(** * Incrementally maintainable materialized views: createas.c

    A shallow embedding of the IVM part of
    [src/backend/commands/createas.c]: the restriction checker
    ([check_ivm_restriction_walker]), the query rewriter
    ([rewriteQueryForIMMV], [makeIvmAggColumn]), the trigger provisioner
    ([CreateIvmTriggersOnBaseTables]), the primary-key analyser
    ([get_primary_key_attnos_from_query]), the index provisioner
    ([CreateIndexOnIMMV]) and the orchestrator ([ExecCreateTableAs]).

    [ereport(ERROR, ...)] unwinds the whole command, so every fallible
    function returns a [result]; state that the C code mutates through
    a pointer (the walker's context, the [Relids] set, the catalog) is
    passed explicitly. *)

From Stdlib Require Import List ZArith Bool String Ascii Lia.
Import ListNotations.
Local Open Scope string_scope.
Local Open Scope list_scope.
Local Open Scope Z_scope.

Set Implicit Arguments.

(** ** Errors and notices *)

(** The diagnostics raised by the code, one constructor per
    [ereport(ERROR, ...)] or [elog(ERROR, ...)] site. *)
Inductive diag : Type :=
| E_Having
| E_OrderBy
| E_LimitOffset
| E_DistinctOn
| E_WindowFuncs
| E_GroupingSets
| E_SetOperations
| E_EmptyTargetList
| E_RowMarks
| E_RecursiveCTE
| E_SystemColumn
| E_NestedDistinct
| E_NestedAggs
| E_TableSample
| E_PartitionedTable
| E_Partitions
| E_InheritanceParent
| E_ForeignTable
| E_ViewOrMatview
| E_Values
| E_SubqueryWithOuterJoin      (* hint: subquery or CTE is not supported with outer join *)
| E_ExistsVarsNotInTargetList  (* hint: targetlist must contain vars that are referred to in EXISTS subquery *)
| E_OnlySimpleEquijoin         (* hint: Only simple equijoin is supported with outer join *)
| E_JoinVarsNotInTargetList    (* hint: targetlist must contain vars in the join condition with outer join *)
| E_WhereNotNullRejecting      (* hint: WHERE cannot contain non null-rejecting predicates with outer join *)
| E_NonStrictInTargetList      (* hint: targetlist cannot contain non strict functions with outer join *)
| E_CteName (name : string)
| E_ColumnName (name : option string)
| E_ExprContainingAgg
| E_SubqueryInTargetList       (* hint: subquery is not supported in targetlist *)
| E_AggWithOuterJoin           (* hint: aggregate is not supported with outer join *)
| E_OnlyExistsSublink          (* hint: subquery in WHERE clause only supports subquery with EXISTS clause *)
| E_NestedSubquery
| E_SublinkWithOuterJoin       (* hint: subquery with outer join is not supported *)
| E_AggFilter
| E_AggDistinct
| E_AggOrder
| E_AggNotSupported (aggfnoid : Z)
| E_GroupByNotInSelectList
| E_MutableFunction
| E_UnrecognizedNodeType
| E_UnsupportedTriggerType
| E_UnexpectedRewriteResult
| E_DuplicateTable
| E_External (msg : string).   (* an error raised inside a collaborator *)

Inductive result (A : Type) : Type :=
| Ok (a : A)
| Error (e : diag).
Arguments Ok {A} a.
Arguments Error {A} e.

Definition bind {A B} (r : result A) (k : A -> result B) : result B :=
  match r with
  | Ok a => k a
  | Error e => Error e
  end.

Notation "'do' x <- c1 ; c2" := (bind c1 (fun x => c2))
  (at level 60, x name, c1 at next level, right associativity).

(** [if (cond) ereport(ERROR, e)] *)
Definition ereport_if (cond : bool) (e : diag) : result unit :=
  if cond then Error e else Ok tt.

Notation "'raise_if' c 'with' e ; k" := (bind (ereport_if c e) (fun _ => k))
  (at level 60, c at next level, e at next level, right associativity).

(** ** Query trees *)

Definition Oid := Z.
Definition AttrNumber := Z.

Record Var : Type := mkVar {
  varno : Z;
  varattno : AttrNumber;
  vartype : Oid;
  varlevelsup : nat
}.

Record SortGroupClause : Type := mkSortGroupClause {
  tleSortGroupRef : nat;
  eqop : Oid;
  sortop : Oid
}.

Inductive SubLinkType := EXISTS_SUBLINK | ALL_SUBLINK | ANY_SUBLINK
  | ROWCOMPARE_SUBLINK | EXPR_SUBLINK | MULTIEXPR_SUBLINK | ARRAY_SUBLINK
  | CTE_SUBLINK.

Inductive JoinType := JOIN_INNER | JOIN_LEFT | JOIN_FULL | JOIN_RIGHT
  | JOIN_SEMI | JOIN_ANTI.

(** [IS_OUTER_JOIN] of nodes/nodes.h: LEFT, FULL, RIGHT and ANTI. *)
Definition IS_OUTER_JOIN (j : JoinType) : bool :=
  match j with
  | JOIN_LEFT | JOIN_FULL | JOIN_RIGHT | JOIN_ANTI => true
  | _ => false
  end.

Inductive RTEKind := RTE_RELATION | RTE_SUBQUERY | RTE_JOIN | RTE_FUNCTION
  | RTE_TABLEFUNC | RTE_VALUES | RTE_CTE | RTE_NAMEDTUPLESTORE | RTE_RESULT.

Inductive RelKind := RELKIND_NONE | RELKIND_RELATION | RELKIND_PARTITIONED_TABLE
  | RELKIND_FOREIGN_TABLE | RELKIND_VIEW | RELKIND_MATVIEW | RELKIND_OTHER.

(** The node hierarchy.  Nullable pointers are [option]s, [List *] fields
    are lists. *)
#[local] Unset Elimination Schemes.
Inductive Node : Type :=
| T_Var (v : Var)
| T_Const (consttype : Oid) (constvalue : Z) (constisnull : bool)
| T_Aggref (aggfnoid : Oid) (aggargtypes : list Oid) (args : list Node)
           (aggorder aggdistinct : list SortGroupClause)
           (aggfilter : option Node) (aggstar : bool)
| T_FuncExpr (funcid : Oid) (args : list Node)
| T_OpExpr (opno : Oid) (args : list Node)
| T_BoolExpr (args : list Node)
| T_SubLink (subLinkType : SubLinkType) (testexpr : option Node)
            (subselect : option Node)
| T_TargetEntry (tle : TargetEntry)
| T_RangeTblRef (rtindex : nat)
| T_JoinExpr (jointype : JoinType) (larg rarg : option Node)
             (quals : option Node)
| T_FromExpr (fromlist : list Node) (quals : option Node)
| T_CommonTableExpr (cte : CommonTableExpr)
| T_Query (q : Query)
with TargetEntry : Type :=
| mkTargetEntry (expr : Node) (resno : AttrNumber) (resname : option string)
                (ressortgroupref : nat) (resjunk : bool)
with CommonTableExpr : Type :=
| mkCommonTableExpr (ctename : option string) (ctequery : option Node)
                    (cterefcount : nat)
with RangeTblEntry : Type :=
| mkRangeTblEntry (rtekind : RTEKind) (relid : Oid) (relkind : RelKind)
                  (tablesample : bool)       (* [rte->tablesample != NULL] *)
                  (subquery : option Query) (lateral : bool)
with Query : Type :=
| mkQuery (hasAggs hasWindowFuncs hasSubLinks hasDistinctOn hasRecursive : bool)
          (cteList : list CommonTableExpr)
          (rtable : list RangeTblEntry)
          (jointree : option Node)           (* a [FromExpr] *)
          (targetList : list TargetEntry)
          (groupClause : list SortGroupClause)
          (groupingSets : bool)              (* [qry->groupingSets != NIL] *)
          (havingQual : option Node)
          (distinctClause sortClause : list SortGroupClause)
          (limitOffset limitCount : option Node)
          (rowMarks : bool)                  (* [qry->rowMarks != NIL] *)
          (setOperations : option Node).
#[local] Set Elimination Schemes.

(** Field access, [tle->expr] and the like. *)
Definition expr (t : TargetEntry) := let (x, _, _, _, _) := t in x.
Definition resno (t : TargetEntry) := let (_, x, _, _, _) := t in x.
Definition resname (t : TargetEntry) := let (_, _, x, _, _) := t in x.
Definition ressortgroupref (t : TargetEntry) := let (_, _, _, x, _) := t in x.
Definition resjunk (t : TargetEntry) := let (_, _, _, _, x) := t in x.

Definition ctename (c : CommonTableExpr) := let (x, _, _) := c in x.
Definition ctequery (c : CommonTableExpr) := let (_, x, _) := c in x.
Definition cterefcount (c : CommonTableExpr) := let (_, _, x) := c in x.

Definition rtekind (r : RangeTblEntry) := let (x, _, _, _, _, _) := r in x.
Definition relid (r : RangeTblEntry) := let (_, x, _, _, _, _) := r in x.
Definition relkind (r : RangeTblEntry) := let (_, _, x, _, _, _) := r in x.
Definition tablesample (r : RangeTblEntry) := let (_, _, _, x, _, _) := r in x.
Definition subquery (r : RangeTblEntry) := let (_, _, _, _, x, _) := r in x.
Definition lateral (r : RangeTblEntry) := let (_, _, _, _, _, x) := r in x.

Definition hasAggs (q : Query) :=
  match q with mkQuery x _ _ _ _ _ _ _ _ _ _ _ _ _ _ _ _ _ => x end.
Definition hasWindowFuncs (q : Query) :=
  match q with mkQuery _ x _ _ _ _ _ _ _ _ _ _ _ _ _ _ _ _ => x end.
Definition hasSubLinks (q : Query) :=
  match q with mkQuery _ _ x _ _ _ _ _ _ _ _ _ _ _ _ _ _ _ => x end.
Definition hasDistinctOn (q : Query) :=
  match q with mkQuery _ _ _ x _ _ _ _ _ _ _ _ _ _ _ _ _ _ => x end.
Definition hasRecursive (q : Query) :=
  match q with mkQuery _ _ _ _ x _ _ _ _ _ _ _ _ _ _ _ _ _ => x end.
Definition cteList (q : Query) :=
  match q with mkQuery _ _ _ _ _ x _ _ _ _ _ _ _ _ _ _ _ _ => x end.
Definition rtable (q : Query) :=
  match q with mkQuery _ _ _ _ _ _ x _ _ _ _ _ _ _ _ _ _ _ => x end.
Definition jointree (q : Query) :=
  match q with mkQuery _ _ _ _ _ _ _ x _ _ _ _ _ _ _ _ _ _ => x end.
Definition targetList (q : Query) :=
  match q with mkQuery _ _ _ _ _ _ _ _ x _ _ _ _ _ _ _ _ _ => x end.
Definition groupClause (q : Query) :=
  match q with mkQuery _ _ _ _ _ _ _ _ _ x _ _ _ _ _ _ _ _ => x end.
Definition groupingSets (q : Query) :=
  match q with mkQuery _ _ _ _ _ _ _ _ _ _ x _ _ _ _ _ _ _ => x end.
Definition havingQual (q : Query) :=
  match q with mkQuery _ _ _ _ _ _ _ _ _ _ _ x _ _ _ _ _ _ => x end.
Definition distinctClause (q : Query) :=
  match q with mkQuery _ _ _ _ _ _ _ _ _ _ _ _ x _ _ _ _ _ => x end.
Definition sortClause (q : Query) :=
  match q with mkQuery _ _ _ _ _ _ _ _ _ _ _ _ _ x _ _ _ _ => x end.
Definition limitOffset (q : Query) :=
  match q with mkQuery _ _ _ _ _ _ _ _ _ _ _ _ _ _ x _ _ _ => x end.
Definition limitCount (q : Query) :=
  match q with mkQuery _ _ _ _ _ _ _ _ _ _ _ _ _ _ _ x _ _ => x end.
Definition rowMarks (q : Query) :=
  match q with mkQuery _ _ _ _ _ _ _ _ _ _ _ _ _ _ _ _ x _ => x end.
Definition setOperations (q : Query) :=
  match q with mkQuery _ _ _ _ _ _ _ _ _ _ _ _ _ _ _ _ _ x => x end.

(** Field updates, [q->targetList = tl] and the like. *)
Definition set_targetList (q : Query) (tl : list TargetEntry) : Query :=
  match q with
  | mkQuery a b c d e f g h _ j k l m n o p r s =>
      mkQuery a b c d e f g h tl j k l m n o p r s
  end.
Definition set_groupClause (q : Query) (gc : list SortGroupClause) : Query :=
  match q with
  | mkQuery a b c d e f g h i _ k l m n o p r s =>
      mkQuery a b c d e f g h i gc k l m n o p r s
  end.
Definition set_hasAggs (q : Query) (v : bool) : Query :=
  match q with
  | mkQuery _ b c d e f g h i j k l m n o p r s =>
      mkQuery v b c d e f g h i j k l m n o p r s
  end.
Definition set_cteList (q : Query) (v : list CommonTableExpr) : Query :=
  match q with
  | mkQuery a b c d e _ g h i j k l m n o p r s =>
      mkQuery a b c d e v g h i j k l m n o p r s
  end.

(** A property of the pointee of a possibly NULL pointer. *)
Definition opt_all {A} (P : A -> Prop) (o : option A) : Prop :=
  match o with
  | Some x => P x
  | None => True
  end.

Definition is_nil {A} (l : list A) : bool :=
  match l with [] => true | _ => false end.

Definition is_some {A} (o : option A) : bool :=
  match o with Some _ => true | None => false end.

Definition Var_eqb (a b : Var) : bool :=
  (varno a =? varno b) && (varattno a =? varattno b) &&
  (vartype a =? vartype b) && Nat.eqb (varlevelsup a) (varlevelsup b).

(** [IsA(node, Aggref)], [IsA(node, SubLink)] *)
Definition IsA_Aggref (n : Node) : bool :=
  match n with T_Aggref _ _ _ _ _ _ _ => true | _ => false end.
Definition IsA_SubLink (n : Node) : bool :=
  match n with T_SubLink _ _ _ => true | _ => false end.

(** ** The restriction-check context *)

Record check_ivm_restriction_context : Type := mkContext {
  has_agg : bool;
  has_outerjoin : bool;
  has_subquery : bool;
  in_exists_subquery : bool;
  join_quals : list (option Node);
  exists_qual_vars : list Var;
  sublevels_up : nat
}.

Definition set_has_agg c v :=
  mkContext v (has_outerjoin c) (has_subquery c) (in_exists_subquery c)
            (join_quals c) (exists_qual_vars c) (sublevels_up c).
Definition set_has_outerjoin c v :=
  mkContext (has_agg c) v (has_subquery c) (in_exists_subquery c)
            (join_quals c) (exists_qual_vars c) (sublevels_up c).
Definition set_has_subquery c v :=
  mkContext (has_agg c) (has_outerjoin c) v (in_exists_subquery c)
            (join_quals c) (exists_qual_vars c) (sublevels_up c).
Definition set_in_exists_subquery c v :=
  mkContext (has_agg c) (has_outerjoin c) (has_subquery c) v
            (join_quals c) (exists_qual_vars c) (sublevels_up c).
Definition set_join_quals c v :=
  mkContext (has_agg c) (has_outerjoin c) (has_subquery c)
            (in_exists_subquery c) v (exists_qual_vars c) (sublevels_up c).
Definition set_exists_qual_vars c v :=
  mkContext (has_agg c) (has_outerjoin c) (has_subquery c)
            (in_exists_subquery c) (join_quals c) v (sublevels_up c).
Definition set_sublevels_up c v :=
  mkContext (has_agg c) (has_outerjoin c) (has_subquery c)
            (in_exists_subquery c) (join_quals c) (exists_qual_vars c) v.

(** [context->sublevels_up++] and [context->sublevels_up--] *)
Definition incr_sublevels c := set_sublevels_up c (S (sublevels_up c)).
Definition decr_sublevels c := set_sublevels_up c (Nat.pred (sublevels_up c)).

(** Walking a list threads the context from one element to the next and
    stops at the first error. *)
Definition walk_list {A} (f : A -> check_ivm_restriction_context ->
                              result check_ivm_restriction_context) :
  list A -> check_ivm_restriction_context ->
  result check_ivm_restriction_context :=
  fix go l c :=
    match l with
    | [] => Ok c
    | x :: r => do c' <- f x c; go r c'
    end.

(** A walker applied to a possibly NULL pointer: [if (node == NULL)
    return false]. *)
Definition walk_opt {A} (f : A -> check_ivm_restriction_context ->
                             result check_ivm_restriction_context)
  (o : option A) (c : check_ivm_restriction_context) :=
  match o with
  | None => Ok c
  | Some n => f n c
  end.

(** Modelled from the spec: [isIvmName] (commands/matview.c, not under
    src/) tells whether a name collides with "the reserved internal
    prefix used for bookkeeping columns"; the generated identifiers
    [__ivm_count__], [__ivm_count_<colname>_], [__ivm_sum_<colname>_] and
    [__ivm_exists_count_<n>__] share the prefix [__ivm_].  A NULL name
    is not an IVM name. *)
Definition isIvmName (s : option string) : bool :=
  match s with
  | Some n => String.prefix "__ivm_" n
  | None => false
  end.

(** [NAMEDATALEN] of pg_config_manual.h: a name holds at most
    [NAMEDATALEN - 1] bytes. *)
Definition NAMEDATALEN : nat := 64.

(** The loop of [makeObjectName] that shortens the two names until they
    fit into [availchars], the longer one first:
    [while (name1chars + name2chars > availchars)].  Every turn takes
    one character away, so [name1chars + name2chars] turns are
    enough. *)
Fixpoint clip_name_lengths (turns name1chars name2chars availchars : nat)
  : nat * nat :=
  match turns with
  | O => (name1chars, name2chars)
  | S turns' =>
      if Nat.ltb availchars (name1chars + name2chars) then
        if Nat.ltb name2chars name1chars
        then clip_name_lengths turns' (Nat.pred name1chars) name2chars
                               availchars
        else clip_name_lengths turns' name1chars (Nat.pred name2chars)
                               availchars
      else (name1chars, name2chars)
  end.

(** [makeObjectName] of commands/indexcmds.c.  That file is not under
    src/; the function is written down here as PostgreSQL has it:
    [name1], then an underscore and [name2] when [name2] is not NULL,
    then an underscore and [label], the two names shortened so that
    the whole holds at most [NAMEDATALEN - 1] bytes.  createas.c always
    passes a label.  Strings are byte strings here, so that
    [pg_mbcliplen] has nothing more to clip. *)
Definition makeObjectName (name1 : string) (name2 : option string)
  (label : string) : string :=
  let name1chars := String.length name1 in
  let name2chars :=
    match name2 with Some n => String.length n | None => O end in
  let overhead :=
    ((match name2 with Some _ => 1 | None => 0 end)
     + (String.length label + 1))%nat in
  let availchars := (NAMEDATALEN - 1 - overhead)%nat in
  let chars := clip_name_lengths (name1chars + name2chars)
                                 name1chars name2chars availchars in
  (substring 0 (fst chars) name1
   ++ match name2 with
      | Some n => "_" ++ substring 0 (snd chars) n
      | None => ""
      end
   ++ "_" ++ label)%string.
Arguments makeObjectName : simpl never.

(** What createas.c needs of the materialized view's relation: its
    name, the names of its attributes in order, and whether one of its
    indexes is compatible with a proposed list of index columns
    ([RelationGetIndexList] and [CheckIndexCompatible]). *)
Record Relation : Type := mkRelation {
  rd_relname : string;
  rd_attnames : list string;
  rd_has_compatible_index : list string -> bool
}.

(** The fields of [IntoClause] and [CreateTableAsStmt] that
    [ExecCreateTableAs] reads. *)
Record IntoClause : Type := mkIntoClause {
  into_relname : string;
  colNames : list string;
  viewQuery : option Query;
  skipData : bool;
  ivm : bool
}.

Record CreateTableAsStmt : Type := mkCreateTableAsStmt {
  stmt_query : Query;
  stmt_is_execute : bool;   (* a CMD_UTILITY query holding an ExecuteStmt *)
  stmt_into : IntoClause;
  if_not_exists : bool
}.

Record ColumnDef : Type := mkColumnDef {
  colname : option string;
  coltype : Oid
}.

(** ** Collaborators

    Functions of the planner, the parser and the catalog that createas.c
    calls and that live in other files.  They are taken as an interface;
    the function names are the C ones. *)
Class Collaborators : Type := {
  (* optimizer/var.c *)
  pull_vars_of_level : Node -> nat -> list Var;
  pull_varnos : Node -> list Z;
  pull_varnos_of_level : option Node -> nat -> list Z;
  flatten_join_alias_vars : Query -> Node -> Node;
  (* optimizer/clauses.c *)
  find_nonnullable_vars : option Node -> list Var;
  contain_nonstrict_functions : list TargetEntry -> bool;
  contain_mutable_functions : Query -> bool;
  (* rewrite/rewriteManip.c *)
  contain_aggs_of_level : Node -> nat -> bool;
  (* catalog lookups *)
  has_superclass : Oid -> bool;
  find_inheritance_children : Oid -> list Oid;
  exprType : Node -> Oid;
  op_mergejoinable : Oid -> Oid -> bool;
  get_mergejoin_opfamilies : Oid -> list Oid;
  op_hashjoinable : Oid -> Oid -> bool;
  get_func_name : Oid -> string;
  get_primary_key_attnos : Oid -> option (list Z) * Oid;
  (* utils/fmgroids.h: the F_COUNT_ANY ... F_MAX_PG_LSN constants that
     check_aggregate_supports_ivm lists *)
  ivm_aggfn_oids : list Oid;
  (* parser *)
  ParseFuncOrColumn : string -> list Node -> bool -> result Node;
  get_sort_group_operators : Oid -> option (Oid * Oid);
  (* commands/matview.c *)
  rewrite_query_for_exists_subquery : Query -> result Query;
  getColumnNameStartWith : RangeTblEntry -> string -> option (string * Z);
  (* optimizer/plan/subselect.c *)
  inline_cte : Query -> CommonTableExpr -> Query;
  (* catalog and executor, as seen from ExecCreateTableAs *)
  get_relname_relid : string -> bool;
  collation_derived : Node -> bool;
  DefineRelation : IntoClause -> list ColumnDef -> result Oid;
  ExecuteQuery : IntoClause -> result Oid;
  QueryRewrite : Query -> list Query;
  ExecutorRun : Query -> IntoClause -> result Oid;
  table_open : Oid -> Relation
}.

Section IVM.

Context {collab : Collaborators}.

#[local] Abbreviation context := check_ivm_restriction_context.

(** *** is_equijoin_condition *)

(** [Relids] values are kept as lists of members. *)
Definition bms_is_member (x : Z) (s : list Z) : bool :=
  existsb (Z.eqb x) s.
Definition bms_num_members (s : list Z) : nat :=
  List.length (nodup Z.eq_dec s).
Definition bms_subset (a b : list Z) : bool :=
  forallb (fun x => bms_is_member x b) a.
Definition bms_equal (a b : list Z) : bool :=
  bms_subset a b && bms_subset b a.

(** The argument is an element of [context->join_quals]; a NULL qual or
    one that is not an [OpExpr] with two arguments is no equijoin. *)
Definition is_equijoin_condition (op : option Node) : bool :=
  match op with
  | Some (T_OpExpr opno [left_expr; right_expr]) =>
      let left_varnos := pull_varnos left_expr in
      let right_varnos := pull_varnos right_expr in
      let opinputtype := exprType left_expr in
      if negb (Nat.eqb (bms_num_members left_varnos) 1)
         || negb (Nat.eqb (bms_num_members right_varnos) 1)
         || bms_equal left_varnos right_varnos
      then false
      else if op_mergejoinable opno opinputtype
              && negb (is_nil (get_mergejoin_opfamilies opno))
      then true
      else if op_hashjoinable opno opinputtype then true
      else false
  | _ => false
  end.

(** *** check_aggregate_supports_ivm *)

Definition check_aggregate_supports_ivm (aggfnoid : Oid) : bool :=
  existsb (Z.eqb aggfnoid) ivm_aggfn_oids.

(** *** check_ivm_restriction_walker *)

(** The checks at the head of the [T_Query] case, up to the system
    column scan. *)
Definition check_query_clauses (qry : Query) : result unit :=
  raise_if is_some (havingQual qry) with E_Having;
  raise_if negb (is_nil (sortClause qry)) with E_OrderBy;
  raise_if is_some (limitOffset qry) || is_some (limitCount qry)
    with E_LimitOffset;
  raise_if hasDistinctOn qry with E_DistinctOn;
  raise_if hasWindowFuncs qry with E_WindowFuncs;
  raise_if groupingSets qry with E_GroupingSets;
  raise_if is_some (setOperations qry) with E_SetOperations;
  raise_if Nat.eqb (List.length (targetList qry)) 0 with E_EmptyTargetList;
  raise_if rowMarks qry with E_RowMarks;
  raise_if hasRecursive qry with E_RecursiveCTE;
  raise_if existsb (fun var => varattno var <? 0)
                   (pull_vars_of_level (T_Query qry) 0)
    with E_SystemColumn;
  Ok tt.

(** The two nested-query checks. *)
Definition check_nested_query (qry : Query) (c : context) : result unit :=
  raise_if Nat.ltb 0 (sublevels_up c) && negb (is_nil (distinctClause qry))
    with E_NestedDistinct;
  raise_if Nat.ltb 0 (sublevels_up c) && hasAggs qry with E_NestedAggs;
  Ok tt.

(** The checks on one range-table entry that precede the descent into a
    subquery. *)
Definition check_rte_kind (rte : RangeTblEntry) : result unit :=
  raise_if tablesample rte with E_TableSample;
  raise_if (match relkind rte with RELKIND_PARTITIONED_TABLE => true
            | _ => false end) with E_PartitionedTable;
  raise_if (match relkind rte with RELKIND_RELATION => true | _ => false end)
           && has_superclass (relid rte) with E_Partitions;
  raise_if (match relkind rte with RELKIND_RELATION => true | _ => false end)
           && negb (is_nil (find_inheritance_children (relid rte)))
    with E_InheritanceParent;
  raise_if (match relkind rte with RELKIND_FOREIGN_TABLE => true
            | _ => false end) with E_ForeignTable;
  raise_if (match relkind rte with RELKIND_VIEW | RELKIND_MATVIEW => true
            | _ => false end) with E_ViewOrMatview;
  raise_if (match rtekind rte with RTE_VALUES => true | _ => false end)
    with E_Values;
  Ok tt.

(** Is there a target entry that is a plain [Var] with this [varno] and
    [varattno]?  [flatten] is applied to the entry's expression first
    (the identity in the EXISTS check). *)
Definition var_in_targetList (flatten : Node -> Node)
  (tl : list TargetEntry) (var : Var) : bool :=
  existsb (fun tle =>
             match expr tle with
             | T_Var _ =>
                 match flatten (expr tle) with
                 | T_Var var2 => (varno var =? varno var2)
                                 && (varattno var =? varattno var2)
                 | _ => false
                 end
             | _ => false
             end) tl.

(** "additional restriction checks for exists subquery" *)
Definition check_exists_vars (qry : Query) (c : context) : result unit :=
  if negb (is_nil (exists_qual_vars c)) && Nat.eqb (sublevels_up c) 0 then
    raise_if negb (forallb (var_in_targetList (fun n => n) (targetList qry))
                           (exists_qual_vars c))
      with E_ExistsVarsNotInTargetList;
    Ok tt
  else Ok tt.

(** [qry->jointree->quals] *)
Definition jointree_quals (qry : Query) : option Node :=
  match jointree qry with
  | Some (T_FromExpr _ quals) => quals
  | _ => None
  end.

(** The first loop of the outer-join block: every join qual must be an
    equijoin; the variables of the flattened quals are collected. *)
Fixpoint collect_qual_vars (qry : Query) (quals : list (option Node))
  (qual_vars : list Var) : result (list Var) :=
  match quals with
  | [] => Ok qual_vars
  | op :: rest =>
      raise_if negb (is_equijoin_condition op) with E_OnlySimpleEquijoin;
      match op with
      | Some n =>
          collect_qual_vars qry rest
            (qual_vars ++ pull_vars_of_level (flatten_join_alias_vars qry n) 0)
      | None => collect_qual_vars qry rest qual_vars
      end
  end.

(** [list_difference] of nodes/list.c on lists of [Var]s. *)
Definition list_difference (l1 l2 : list Var) : list Var :=
  filter (fun v => negb (existsb (Var_eqb v) l2)) l1.

(** [where_quals_vars]: the variables of the flattened WHERE clause. *)
Definition where_quals_vars (qry : Query) : list Var :=
  match jointree_quals qry with
  | Some quals => pull_vars_of_level (flatten_join_alias_vars qry quals) 0
  | None => []
  end.

(** The WHERE check of the outer-join block. *)
Definition check_where_null_rejecting (qry : Query) : result unit :=
  raise_if Nat.ltb 0 (List.length
             (list_difference (where_quals_vars qry)
                              (find_nonnullable_vars (jointree_quals qry))))
    with E_WhereNotNullRejecting;
  Ok tt.

(** "additional restriction checks for outer join query" *)
Definition check_outer_join (qry : Query) (c : context) : result unit :=
  if has_outerjoin c && Nat.eqb (sublevels_up c) 0 then
    do qual_vars <- collect_qual_vars qry (join_quals c) [];
    raise_if negb (forallb (var_in_targetList (flatten_join_alias_vars qry)
                                              (targetList qry)) qual_vars)
      with E_JoinVarsNotInTargetList;
    do _ <- check_where_null_rejecting qry;
    raise_if contain_nonstrict_functions (targetList qry)
      with E_NonStrictInTargetList;
    Ok tt
  else Ok tt.

(** The [T_Aggref] case. *)
Definition check_aggref (aggfnoid : Oid) (aggorder aggdistinct :
  list SortGroupClause) (aggfilter : option Node) : result unit :=
  raise_if is_some aggfilter with E_AggFilter;
  raise_if negb (is_nil aggdistinct) with E_AggDistinct;
  raise_if negb (is_nil aggorder) with E_AggOrder;
  raise_if negb (check_aggregate_supports_ivm aggfnoid)
    with E_AggNotSupported aggfnoid;
  Ok tt.

(** The checks of the [T_TargetEntry] case that precede the descent. *)
Definition check_target_entry (tle : TargetEntry) (c : context)
  : result unit :=
  raise_if isIvmName (resname tle) with E_ColumnName (resname tle);
  raise_if has_agg c && negb (IsA_Aggref (expr tle))
           && contain_aggs_of_level (expr tle) 0 with E_ExprContainingAgg;
  raise_if IsA_SubLink (expr tle) with E_SubqueryInTargetList;
  Ok tt.

(** The checks of the [T_SubLink] case that precede the descent. *)
Definition check_sublink (ty : SubLinkType) (c : context) : result unit :=
  raise_if (match ty with EXISTS_SUBLINK => false | _ => true end)
    with E_OnlyExistsSublink;
  raise_if Nat.ltb 0 (sublevels_up c) with E_NestedSubquery;
  raise_if has_outerjoin c with E_SublinkWithOuterJoin;
  Ok tt.

(** The checks of an outer [T_JoinExpr] that precede the descent. *)
Definition check_outer_joinexpr (c : context) : result unit :=
  raise_if has_subquery c with E_SubqueryWithOuterJoin;
  raise_if has_agg c with E_AggWithOuterJoin;
  Ok tt.

(** The walker proper.  [check_ivm_restriction_walker] is the C function;
    [walker_TargetEntry], [walker_CommonTableExpr], [walker_RangeTblEntry]
    and [walker_Query] are its cases for the node types that the
    embedding keeps as types of their own.
    [expression_tree_walker] and [query_tree_walker] (nodes/nodeFuncs.c)
    are unfolded at their call sites: the former visits the children of
    a node in field order, the latter, under [QTW_IGNORE_RANGE_TABLE],
    visits the target list, the join tree, the set operations, the
    HAVING qualifier, the limit expressions and the CTE list of a
    SELECT.  [check_stack_depth] is assumed not to fail. *)
Fixpoint check_ivm_restriction_walker (node : Node) (c : context)
  {struct node} : result context :=
  match node with
  | T_Query qry => walker_Query qry c
  | T_CommonTableExpr cte => walker_CommonTableExpr cte c
  | T_TargetEntry tle => walker_TargetEntry tle c
  | T_JoinExpr jointype larg rarg quals =>
      do c1 <- (if IS_OUTER_JOIN jointype then
                  do _ <- check_outer_joinexpr c;
                  Ok (set_join_quals (set_has_outerjoin c true)
                                     (join_quals c ++ [quals]))
                else Ok c);
      do c2 <- walk_opt check_ivm_restriction_walker larg c1;
      do c3 <- walk_opt check_ivm_restriction_walker rarg c2;
      walk_opt check_ivm_restriction_walker quals c3
  | T_Var variable =>
      if Nat.ltb 0 (varlevelsup variable) && in_exists_subquery c
      then Ok (set_exists_qual_vars c (exists_qual_vars c ++ [variable]))
      else Ok c
  | T_SubLink subLinkType _ subselect =>
      do _ <- check_sublink subLinkType c;
      do c1 <- walk_opt check_ivm_restriction_walker subselect
                 (incr_sublevels (set_in_exists_subquery c true));
      Ok (set_in_exists_subquery (decr_sublevels c1) false)
  | T_Aggref aggfnoid _ _ aggorder aggdistinct aggfilter _ =>
      do _ <- check_aggref aggfnoid aggorder aggdistinct aggfilter;
      Ok c
  (* default: expression_tree_walker *)
  | T_Const _ _ _ => Ok c
  | T_RangeTblRef _ => Ok c
  | T_FuncExpr _ args => walk_list check_ivm_restriction_walker args c
  | T_OpExpr _ args => walk_list check_ivm_restriction_walker args c
  | T_BoolExpr args => walk_list check_ivm_restriction_walker args c
  | T_FromExpr fromlist quals =>
      do c1 <- walk_list check_ivm_restriction_walker fromlist c;
      walk_opt check_ivm_restriction_walker quals c1
  end

with walker_TargetEntry (tle : TargetEntry) (c : context) {struct tle}
  : result context :=
  match tle with
  | mkTargetEntry e _ _ _ _ =>
      do _ <- check_target_entry tle c;
      check_ivm_restriction_walker e c
  end

with walker_CommonTableExpr (cte : CommonTableExpr) (c : context) {struct cte}
  : result context :=
  match cte with
  | mkCommonTableExpr name ctequery _ =>
      raise_if isIvmName name
        with E_CteName (match name with Some n => n | None => "" end);
      do c1 <- walk_opt check_ivm_restriction_walker ctequery (incr_sublevels c);
      Ok (decr_sublevels c1)
  end

with walker_RangeTblEntry (rte : RangeTblEntry) (c : context) {struct rte}
  : result context :=
  match rte with
  | mkRangeTblEntry kind _ _ _ subquery _ =>
      do _ <- check_rte_kind rte;
      match kind with
      | RTE_SUBQUERY =>
          raise_if has_outerjoin c with E_SubqueryWithOuterJoin;
          do c1 <- walk_opt walker_Query subquery
                     (incr_sublevels (set_has_subquery c true));
          Ok (decr_sublevels c1)
      | _ => Ok c
      end
  end

with walker_Query (qry : Query) (c : context) {struct qry}
  : result context :=
  match qry with
  | mkQuery _ _ _ _ _ ctes rt jt tl _ _ having _ _ loff lcnt _ setops =>
      do _ <- check_query_clauses qry;
      do _ <- check_nested_query qry c;
      let c0 := set_has_agg c (has_agg c || hasAggs qry) in
      (* restrictions for rtable *)
      do c1 <- walk_list walker_RangeTblEntry rt c0;
      (* query_tree_walker *)
      do c2 <- walk_list walker_TargetEntry tl c1;
      do c3 <- walk_opt check_ivm_restriction_walker jt c2;
      do c4 <- walk_opt check_ivm_restriction_walker setops c3;
      do c5 <- walk_opt check_ivm_restriction_walker having c4;
      do c6 <- walk_opt check_ivm_restriction_walker loff c5;
      do c7 <- walk_opt check_ivm_restriction_walker lcnt c6;
      do c8 <- walk_list walker_CommonTableExpr ctes c7;
      do _ <- check_exists_vars qry c8;
      do _ <- check_outer_join qry c8;
      Ok c8
  end.

(** The walks of the [T_Query] case between the checks at its head and
    those at its end: the range table, then what [query_tree_walker]
    visits. *)
Definition walk_query_children (qry : Query) (c0 : context)
  : result context :=
  do c1 <- walk_list walker_RangeTblEntry (rtable qry) c0;
  do c2 <- walk_list walker_TargetEntry (targetList qry) c1;
  do c3 <- walk_opt check_ivm_restriction_walker (jointree qry) c2;
  do c4 <- walk_opt check_ivm_restriction_walker (setOperations qry) c3;
  do c5 <- walk_opt check_ivm_restriction_walker (havingQual qry) c4;
  do c6 <- walk_opt check_ivm_restriction_walker (limitOffset qry) c5;
  do c7 <- walk_opt check_ivm_restriction_walker (limitCount qry) c6;
  walk_list walker_CommonTableExpr (cteList qry) c7.

(** *** check_ivm_restriction *)

Definition initial_context : context :=
  mkContext false false false false [] [] 0.

Definition check_ivm_restriction (node : Node) : result unit :=
  do _ <- check_ivm_restriction_walker node initial_context;
  Ok tt.

(** ** The query rewriter *)

(** Type OIDs of catalog/pg_type.h. *)
Definition INT4OID : Oid := 23.
Definition INT8OID : Oid := 20.

(** [list_nth] on an index outside the list does not return. *)
Definition E_list_nth : diag := E_External "list_nth: index out of range".

(** The error of [check_stack_depth]. *)
Definition E_stack_depth : diag := E_External "stack depth limit exceeded".

(** [makeTargetEntry] of nodes/makefuncs.c: no sort/group reference. *)
Definition makeTargetEntry (e : Node) (no : AttrNumber)
  (name : option string) (junk : bool) : TargetEntry :=
  mkTargetEntry e no name 0%nat junk.

(** [node->args = args], the node being an [Aggref]. *)
Definition set_aggref_args (node : Node) (new_args : list Node) : Node :=
  match node with
  | T_Aggref fn tys _ ord dis fil star => T_Aggref fn tys new_args ord dis fil star
  | other => other
  end.

(** [list_length(tl) + 1] as an attribute number. *)
Definition next_free_resno (tl : list TargetEntry) : AttrNumber :=
  Z.of_nat (List.length tl) + 1.

(** *** makeIvmAggColumn

    The two out-parameters [next_resno] and [aggs] are the state. *)
Definition makeIvmAggColumn (aggfnoid : Oid) (aggargtypes : list Oid)
  (aggargs : list Node) (name : option string)
  (next_resno : AttrNumber) (aggs : list TargetEntry)
  : result (AttrNumber * list TargetEntry) :=
  let dmy_arg := T_Const INT4OID 1 false in
  let aggname := get_func_name aggfnoid in
  do st1 <-
    (if negb (String.eqb aggname "count") then
       do node <- ParseFuncOrColumn "count" [dmy_arg] false;
       let tle_count :=
         makeTargetEntry (set_aggref_args node aggargs) next_resno
           (Some (makeObjectName "__ivm_count" name "_")) false in
       Ok (next_resno + 1, aggs ++ [tle_count])
     else Ok (next_resno, aggs));
  if String.eqb aggname "avg" then
    let dmy_args := map (fun typeid => T_Const typeid 0 true) aggargtypes in
    do node <- ParseFuncOrColumn "sum" dmy_args false;
    let tle_count :=
      makeTargetEntry (set_aggref_args node aggargs) (fst st1)
        (Some (makeObjectName "__ivm_sum" name "_")) false in
    Ok (fst st1 + 1, snd st1 ++ [tle_count])
  else Ok st1.

(** The loop of [rewriteQueryForIMMV] over the target list that calls
    [makeIvmAggColumn] for every entry that is a bare aggregate.  The
    display name is the entry's own unless explicit column names were
    given. *)
Definition display_name (colNames : list string) (tle : TargetEntry)
  : result (option string) :=
  if is_nil colNames then Ok (resname tle)
  else if resno tle - 1 <? 0 then Error E_list_nth
  else match nth_error colNames (Z.to_nat (resno tle - 1)) with
       | Some n => Ok (Some n)
       | None => Error E_list_nth
       end.

Fixpoint add_agg_columns (colNames : list string) (tl : list TargetEntry)
  (next_resno : AttrNumber) (aggs : list TargetEntry)
  : result (AttrNumber * list TargetEntry) :=
  match tl with
  | [] => Ok (next_resno, aggs)
  | tle :: rest =>
      do name <- display_name colNames tle;
      do st <-
        (match expr tle with
         | T_Aggref fn tys aggargs _ _ _ _ =>
             makeIvmAggColumn fn tys aggargs name next_resno aggs
         | _ => Ok (next_resno, aggs)
         end);
      add_agg_columns colNames rest (fst st) (snd st)
  end.

(** The loop over the range table that exposes the count column of
    every lateral subquery made from an EXISTS sublink. *)
Fixpoint add_exists_count_columns (rt : list RangeTblEntry) (varno : Z)
  (tl : list TargetEntry) : list TargetEntry :=
  match rt with
  | [] => tl
  | rte :: rest =>
      let varno := varno + 1 in
      if negb (is_some (subquery rte)) || negb (lateral rte) then
        add_exists_count_columns rest varno tl
      else
        match getColumnNameStartWith rte "__ivm_exists" with
        | None => add_exists_count_columns rest varno tl
        | Some (columnName, attnum) =>
            let countCol := T_Var (mkVar varno attnum INT8OID 0) in
            let tle := makeTargetEntry countCol (next_free_resno tl)
                                       (Some columnName) false in
            add_exists_count_columns rest varno (tl ++ [tle])
        end
  end.

(** Modelled from the spec: [get_sortgroupclause_tle] (optimizer/tlist.c,
    not under src/) resolves a GROUP BY key to the "direct target-list
    reference" it stands for: the entry carrying the clause's
    sort/group reference.  A dangling reference is an error. *)
Definition get_sortgroupclause_tle (scl : SortGroupClause)
  (tl : list TargetEntry) : result TargetEntry :=
  match find (fun tle => Nat.eqb (ressortgroupref tle) (tleSortGroupRef scl))
             tl with
  | Some tle => Ok tle
  | None => Error (E_External "ORDER/GROUP BY expression not found in targetlist")
  end.

Definition set_ressortgroupref (tle : TargetEntry) (ref : nat) : TargetEntry :=
  match tle with
  | mkTargetEntry e no name _ junk => mkTargetEntry e no name ref junk
  end.

(** The largest sort/group reference in use. *)
Definition max_sortgroupref (tl : list TargetEntry) : nat :=
  fold_right (fun tle m => Nat.max (ressortgroupref tle) m) 0%nat tl.

Definition targetIsInSortList (tle : TargetEntry)
  (sortList : list SortGroupClause) : bool :=
  if Nat.eqb (ressortgroupref tle) 0 then false
  else existsb (fun scl => Nat.eqb (tleSortGroupRef scl) (ressortgroupref tle))
               sortList.

(** The second loop of [transformDistinctClause]: every non-junk entry
    not yet in the list gets a sort/group reference (kept if it has
    one, else the next unused one, stored in the entry) and a clause.
    [done] holds the entries already visited, [rest] those to come. *)
Fixpoint distinct_targets (done rest : list TargetEntry)
  (grouplist : list SortGroupClause)
  : result (list TargetEntry * list SortGroupClause) :=
  match rest with
  | [] => Ok (done, grouplist)
  | tle :: rest' =>
      if resjunk tle || targetIsInSortList tle grouplist then
        distinct_targets (done ++ [tle]) rest' grouplist
      else
        match get_sort_group_operators (exprType (expr tle)) with
        | None =>
            Error (E_External "could not identify an equality operator")
        | Some (sortop', eqop') =>
            let ref :=
              if Nat.eqb (ressortgroupref tle) 0
              then S (max_sortgroupref (done ++ tle :: rest'))
              else ressortgroupref tle in
            distinct_targets (done ++ [set_ressortgroupref tle ref]) rest'
              (grouplist ++ [mkSortGroupClause ref eqop' sortop'])
        end
  end.

(** The first loop of [transformDistinctClause]: the ORDER BY items come
    first and must be in the select list. *)
Fixpoint distinct_sort_items (tl : list TargetEntry)
  (sortClause : list SortGroupClause) (grouplist : list SortGroupClause)
  : result (list SortGroupClause) :=
  match sortClause with
  | [] => Ok grouplist
  | scl :: rest =>
      do tle <- get_sortgroupclause_tle scl tl;
      raise_if resjunk tle
        with E_External "for SELECT DISTINCT, ORDER BY expressions must appear in select list";
      distinct_sort_items tl rest (grouplist ++ [scl])
  end.

(** Modelled from the spec: [transformDistinctClause]
    (parser/parse_clause.c, not under src/) is what "convert DISTINCT
    into GROUP BY over all target columns" calls: it returns one
    sort/group clause per non-junk target entry, after those of the
    ORDER BY, and marks the entries in the target list it is given by
    reference. *)
Definition transformDistinctClause (tl : list TargetEntry)
  (sortClause : list SortGroupClause)
  : result (list TargetEntry * list SortGroupClause) :=
  do sorted <- distinct_sort_items tl sortClause [];
  do r <- distinct_targets [] tl sorted;
  raise_if is_nil (snd r)
    with E_External "SELECT DISTINCT must have at least one column";
  Ok r.

(** "group keys must be in targetlist" *)
Fixpoint check_group_keys (tl : list TargetEntry)
  (groupClause : list SortGroupClause) : result unit :=
  match groupClause with
  | [] => Ok tt
  | scl :: rest =>
      do tle <- get_sortgroupclause_tle scl tl;
      raise_if resjunk tle with E_GroupByNotInSelectList;
      check_group_keys tl rest
  end.

(** *** rewriteQueryForIMMV

    [copyObject] makes the function pure: it returns the rewritten
    query.  The steps are kept apart so that each can be named. *)

(** EXISTS sublinks. *)
Definition rewrite_exists (query : Query) : result Query :=
  if hasSubLinks query then
    do rewritten <- rewrite_query_for_exists_subquery query;
    Ok (set_targetList rewritten
          (add_exists_count_columns (rtable rewritten) 0
                                    (targetList rewritten)))
  else Ok query.

(** GROUP BY keys, or DISTINCT turned into GROUP BY. *)
Definition rewrite_group (rewritten : Query) : result Query :=
  if negb (is_nil (groupClause rewritten)) then
    do _ <- check_group_keys (targetList rewritten) (groupClause rewritten);
    Ok rewritten
  else if negb (hasAggs rewritten)
          && negb (is_nil (distinctClause rewritten)) then
    do r <- transformDistinctClause (targetList rewritten)
                                    (sortClause rewritten);
    Ok (set_groupClause (set_targetList rewritten (fst r)) (snd r))
  else Ok rewritten.

(** "Add additional columns for aggregate values" *)
Definition rewrite_aggs (colNames : list string) (rewritten : Query)
  : result Query :=
  if hasAggs rewritten then
    do st <- add_agg_columns colNames (targetList rewritten)
               (next_free_resno (targetList rewritten)) [];
    Ok (set_targetList rewritten (targetList rewritten ++ snd st))
  else Ok rewritten.

(** "Add count for counting distinct tuples in views": the trailing
    count-star column. *)
Definition rewrite_count (rewritten : Query) : result Query :=
  if negb (is_nil (distinctClause rewritten)) || hasAggs rewritten then
    do node <- ParseFuncOrColumn "count" [] true;
    let tle := makeTargetEntry node (next_free_resno (targetList rewritten))
                               (Some "__ivm_count__") false in
    Ok (set_hasAggs (set_targetList rewritten (targetList rewritten ++ [tle]))
                    true)
  else Ok rewritten.

Definition rewriteQueryForIMMV (query : Query) (colNames : list string)
  : result Query :=
  do q1 <- rewrite_exists query;
  do q2 <- rewrite_group q1;
  do q3 <- rewrite_aggs colNames q2;
  rewrite_count q3.

(** ** The trigger provisioner *)

(** Trigger type bits of catalog/pg_trigger.h. *)
Definition TRIGGER_TYPE_BEFORE : Z := 2.
Definition TRIGGER_TYPE_AFTER : Z := 0.
Definition TRIGGER_TYPE_INSERT : Z := 4.
Definition TRIGGER_TYPE_DELETE : Z := 8.
Definition TRIGGER_TYPE_UPDATE : Z := 16.

(** [PRS2_NEW_VARNO] of nodes/primnodes.h. *)
Definition PRS2_NEW_VARNO : nat := 2.

Record TriggerTransition : Type := mkTriggerTransition {
  tt_name : string;
  isNew : bool;
  isTable : bool
}.

(** The fields of [CreateTrigStmt] that [CreateIvmTrigger] sets to
    something else than NULL, NIL or false, together with the relation
    the trigger is created on and the view it depends on.  The two
    trigger arguments are the view's OID and the lock flag, which the C
    code prints with [oidout] and [boolout]. *)
Record CreateTrigStmt : Type := mkCreateTrigStmt {
  trig_relOid : Oid;
  trigname : string;
  timing : Z;
  events : Z;
  funcname : string;
  transitionRels : list TriggerTransition;
  arg_viewOid : Oid;
  arg_ex_lock : bool;
  depends_on : Oid
}.

(** *** CreateIvmTrigger

    The catalog is the list of triggers created so far; [CreateTrigger],
    [recordDependencyOn] and [CommandCounterIncrement] append to it. *)
Definition CreateIvmTrigger (relOid viewOid : Oid) (type timing : Z)
  (ex_lock : bool) (catalog : list CreateTrigStmt)
  : result (list CreateTrigStmt) :=
  let before := timing =? TRIGGER_TYPE_BEFORE in
  do name <-
    (if type =? TRIGGER_TYPE_INSERT then
       Ok (if before then "IVM_trigger_ins_before" else "IVM_trigger_ins_after")
     else if type =? TRIGGER_TYPE_DELETE then
       Ok (if before then "IVM_trigger_del_before" else "IVM_trigger_del_after")
     else if type =? TRIGGER_TYPE_UPDATE then
       Ok (if before then "IVM_trigger_upd_before" else "IVM_trigger_upd_after")
     else Error E_UnsupportedTriggerType);
  let rels1 :=
    if (timing =? TRIGGER_TYPE_AFTER)
       && ((type =? TRIGGER_TYPE_INSERT) || (type =? TRIGGER_TYPE_UPDATE))
    then [mkTriggerTransition "__ivm_newtable" true true] else [] in
  let rels2 :=
    if (timing =? TRIGGER_TYPE_AFTER)
       && ((type =? TRIGGER_TYPE_DELETE) || (type =? TRIGGER_TYPE_UPDATE))
    then [mkTriggerTransition "__ivm_oldtable" false true] else [] in
  let fn := if before then "IVM_immediate_before"
            else "IVM_immediate_maintenance" in
  Ok (catalog ++ [mkCreateTrigStmt relOid name timing type fn
                    (rels1 ++ rels2) viewOid ex_lock viewOid]).

(** The state of the recursion: the relations already provided with
    triggers ([*relids]) and the catalog. *)
Record trigger_state : Type := mkTriggerState {
  relids : list Oid;
  catalog : list CreateTrigStmt
}.

(** The six calls of the [T_RangeTblRef] case and the update of
    [*relids]. *)
Definition create_six_triggers (relOid matviewOid : Oid) (ex_lock : bool)
  (st : trigger_state) : result trigger_state :=
  do c1 <- CreateIvmTrigger relOid matviewOid TRIGGER_TYPE_INSERT
             TRIGGER_TYPE_BEFORE ex_lock (catalog st);
  do c2 <- CreateIvmTrigger relOid matviewOid TRIGGER_TYPE_DELETE
             TRIGGER_TYPE_BEFORE ex_lock c1;
  do c3 <- CreateIvmTrigger relOid matviewOid TRIGGER_TYPE_UPDATE
             TRIGGER_TYPE_BEFORE ex_lock c2;
  do c4 <- CreateIvmTrigger relOid matviewOid TRIGGER_TYPE_INSERT
             TRIGGER_TYPE_AFTER ex_lock c3;
  do c5 <- CreateIvmTrigger relOid matviewOid TRIGGER_TYPE_DELETE
             TRIGGER_TYPE_AFTER ex_lock c4;
  do c6 <- CreateIvmTrigger relOid matviewOid TRIGGER_TYPE_UPDATE
             TRIGGER_TYPE_AFTER ex_lock c5;
  Ok (mkTriggerState (relids st ++ [relOid]) c6).

Definition fold_result {A S} (f : A -> S -> result S)
  : list A -> S -> result S :=
  fix go l s :=
    match l with
    | [] => Ok s
    | x :: r => do s' <- f x s; go r s'
    end.

Definition opt_result {A S} (f : A -> S -> result S) (o : option A) (s : S)
  : result S :=
  match o with
  | None => Ok s
  | Some x => f x s
  end.

(** An [Oid] passed where a bitmapset member is expected, a C [int]:
    an OID from 2^31 on becomes negative. *)
Definition Oid_as_int (oid : Oid) : Z :=
  if oid <? 2147483648 then oid else oid - 4294967296.

(** The error of [bms_is_member] for a negative member. *)
Definition E_negative_member : diag :=
  E_External "negative bitmapset member not allowed".

(** *** CreateIvmTriggersOnBaseTablesRecurse

    [depth] is the stack left to [check_stack_depth]: every call on a
    node uses one unit of it.  A reference outside the range table does
    not return, and [bms_is_member] raises an error for a relation
    whose OID is negative as a bitmapset member. *)
Definition rt_fetch {A} (rti : nat) (rt : list A) : result A :=
  match rti with
  | O => Error E_list_nth
  | S i => match nth_error rt i with
           | Some x => Ok x
           | None => Error E_list_nth
           end
  end.

Fixpoint CreateIvmTriggersOnBaseTablesRecurse (depth : nat) (qry : Query)
  (node : option Node) (matviewOid : Oid) (ex_lock : bool)
  (st : trigger_state) {struct depth} : result trigger_state :=
  match node, depth with
  | None, _ => Ok st
  | Some _, O => Error E_stack_depth
  | Some node, S depth' =>
      let recurse q n :=
        CreateIvmTriggersOnBaseTablesRecurse depth' q n matviewOid ex_lock in
      match node with
      | T_Query query =>
          do st1 <- recurse qry (jointree query) st;
          fold_result
            (fun cte s =>
               match ctequery cte with
               | Some (T_Query cq) => recurse cq (Some (T_Query cq)) s
               | Some _ => Error E_UnrecognizedNodeType
               | None => Ok s
               end)
            (cteList query) st1
      | T_RangeTblRef rti =>
          do rte <- rt_fetch rti (rtable qry);
          match rtekind rte with
          | RTE_RELATION =>
              raise_if (Oid_as_int (relid rte) <? 0) with E_negative_member;
              if negb (bms_is_member (relid rte) (relids st)) then
                create_six_triggers (relid rte) matviewOid ex_lock st
              else Ok st
          | RTE_SUBQUERY =>
              match subquery rte with
              | Some sq => recurse sq (Some (T_Query sq)) st
              | None => Ok st
              end
          | _ => Ok st
          end
      | T_FromExpr fromlist _ =>
          fold_result (fun n s => recurse qry (Some n) s) fromlist st
      | T_JoinExpr _ larg rarg _ =>
          do st1 <- recurse qry larg st;
          recurse qry rarg st1
      | _ => Error E_UnrecognizedNodeType
      end
  end.

(** The same walk by structural recursion, without the stack: the
    range table is passed as [rt], each entry paired with the walk of
    its subquery, and [Recurse_Query q] stands for the C call with
    [qry = q] and [node = q].  The two agree wherever the stack
    suffices (theorems [Recurse_of_depth] and [depth_of_Recurse]). *)
Definition rt_action : Type :=
  (RangeTblEntry * (trigger_state -> result trigger_state))%type.

Section Recurse.

Variable matviewOid : Oid.
Variable ex_lock : bool.

Definition Recurse_RangeTblRef (rt : list rt_action) (rti : nat)
  (st : trigger_state) : result trigger_state :=
  do ra <- rt_fetch rti rt;
  let rte := fst ra in
  match rtekind rte with
  | RTE_RELATION =>
      raise_if (Oid_as_int (relid rte) <? 0) with E_negative_member;
      if negb (bms_is_member (relid rte) (relids st)) then
        create_six_triggers (relid rte) matviewOid ex_lock st
      else Ok st
  | RTE_SUBQUERY => snd ra st
  | _ => Ok st
  end.

Fixpoint Recurse (rt : list rt_action) (node : Node) (st : trigger_state)
  {struct node} : result trigger_state :=
  match node with
  | T_Query (mkQuery _ _ _ _ _ ctes _ jt _ _ _ _ _ _ _ _ _ _) =>
      do st1 <- opt_result (Recurse rt) jt st;
      fold_result Recurse_CommonTableExpr ctes st1
  | T_RangeTblRef rti => Recurse_RangeTblRef rt rti st
  | T_FromExpr fromlist _ => fold_result (Recurse rt) fromlist st
  | T_JoinExpr _ larg rarg _ =>
      do st1 <- opt_result (Recurse rt) larg st;
      opt_result (Recurse rt) rarg st1
  | _ => Error E_UnrecognizedNodeType
  end

with Recurse_CommonTableExpr (cte : CommonTableExpr) (st : trigger_state)
  {struct cte} : result trigger_state :=
  match cte with
  | mkCommonTableExpr _ (Some (T_Query q)) _ => Recurse_Query q st
  | mkCommonTableExpr _ (Some _) _ => Error E_UnrecognizedNodeType
  | mkCommonTableExpr _ None _ => Ok st
  end

with Recurse_RangeTblEntry (rte : RangeTblEntry) (st : trigger_state)
  {struct rte} : result trigger_state :=
  match rte with
  | mkRangeTblEntry _ _ _ _ (Some sq) _ => Recurse_Query sq st
  | mkRangeTblEntry _ _ _ _ None _ => Ok st
  end

with Recurse_Query (q : Query) (st : trigger_state) {struct q}
  : result trigger_state :=
  match q with
  | mkQuery _ _ _ _ _ ctes rtab jt _ _ _ _ _ _ _ _ _ _ =>
      let rt := map (fun rte => (rte, Recurse_RangeTblEntry rte)) rtab in
      do st1 <- opt_result (Recurse rt) jt st;
      fold_result Recurse_CommonTableExpr ctes st1
  end.

End Recurse.

(** *** CreateIvmTriggersOnBaseTables *)

Definition first_rtindex (is_create : bool) : nat :=
  if is_create then 1%nat else S PRS2_NEW_VARNO.

(** The lock-mode decision; [None] when the function returns before
    taking it because there is no base table. *)
Definition choose_ex_lock (qry : Query) (is_create : bool) : option bool :=
  if Nat.ltb (List.length (rtable qry)) (first_rtindex is_create) then None
  else
    match nth_error (rtable qry) (first_rtindex is_create - 1) with
    | None => None
    | Some rte =>
        Some (Nat.ltb (first_rtindex is_create) (List.length (rtable qry))
              || (match rtekind rte with RTE_RELATION => false | _ => true end))
    end.

Definition CreateIvmTriggersOnBaseTables (depth : nat) (qry : Query)
  (matviewOid : Oid) (is_create : bool) (cat : list CreateTrigStmt)
  : result (list CreateTrigStmt) :=
  match choose_ex_lock qry is_create with
  | None => Ok cat
  | Some ex_lock =>
      do st <- CreateIvmTriggersOnBaseTablesRecurse depth qry
                 (Some (T_Query qry)) matviewOid ex_lock
                 (mkTriggerState [] cat);
      Ok (catalog st)
  end.

(** ** The primary-key analyser *)

(** [FirstLowInvalidHeapAttributeNumber] of access/sysattr.h. *)
Definition FirstLowInvalidHeapAttributeNumber : Z := -7.

(** A [Bitmapset *]: NULL or a set of members.  [bms_del_member] keeps
    the set allocated, so an emptied set is not NULL. *)
Definition Bitmapset := option (list Z).

Definition bms_member (x : Z) (s : Bitmapset) : bool :=
  match s with
  | None => false
  | Some l => bms_is_member x l
  end.
Definition bms_add_member (s : Bitmapset) (x : Z) : Bitmapset :=
  match s with
  | None => Some [x]
  | Some l => if bms_is_member x l then Some l else Some (l ++ [x])
  end.
Definition bms_del_member (s : Bitmapset) (x : Z) : Bitmapset :=
  match s with
  | None => None
  | Some l => Some (filter (fun y => negb (y =? x)) l)
  end.
Definition bms_is_empty (s : Bitmapset) : bool :=
  match s with
  | None => true
  | Some l => is_nil l
  end.

(** [list_nth(l, n)] with a C [int] index. *)
Definition list_nth {A} (l : list A) (n : Z) : result A :=
  if n <? 0 then Error E_list_nth
  else match nth_error l (Z.to_nat n) with
       | Some x => Ok x
       | None => Error E_list_nth
       end.

(** The store of a list cell: [list_nth] returned a pointer into the
    list and the set behind it was updated in place. *)
Fixpoint list_set {A} (l : list A) (n : nat) (x : A) : list A :=
  match l, n with
  | [], _ => []
  | _ :: r, O => x :: r
  | y :: r, S n' => y :: list_set r n' x
  end.

(** "convert CTEs to subqueries" *)
Definition inline_ctes (query : Query) : Query :=
  set_cteList
    (fold_left (fun q cte => if Nat.eqb (cterefcount cte) 0 then q
                             else inline_cte q cte)
               (cteList query) query)
    [].

(** The second loop: the key attributes that appear in the target
    list.  [i] is the 1-based position of the head of [tl]. *)
Fixpoint scan_targetList (query : Query) (tl : list TargetEntry) (i : Z)
  (key_attnos_list : list Bitmapset) (keys : Bitmapset)
  : result (list Bitmapset * Bitmapset) :=
  match tl with
  | [] => Ok (key_attnos_list, keys)
  | t :: rest =>
      match flatten_join_alias_vars query (T_TargetEntry t) with
      | T_TargetEntry tle =>
          match expr tle with
          | T_Var var =>
              do attnos <- list_nth key_attnos_list (varno var - 1);
              let k := varattno var - FirstLowInvalidHeapAttributeNumber in
              if bms_member k attnos then
                scan_targetList query rest (i + 1)
                  (list_set key_attnos_list (Z.to_nat (varno var - 1))
                            (bms_del_member attnos k))
                  (bms_add_member keys
                     (i - FirstLowInvalidHeapAttributeNumber))
              else scan_targetList query rest (i + 1) key_attnos_list keys
          | _ => scan_targetList query rest (i + 1) key_attnos_list keys
          end
      | _ => Error (E_External "flatten_join_alias_vars: not a TargetEntry")
      end
  end.

(** The third loop: a relation of the FROM clause with a key attribute
    left over.  [i] is the 1-based index of the head of the list. *)
Fixpoint key_left_over (key_attnos_list : list Bitmapset) (i : Z)
  (rels_in_from : list Z) : bool :=
  match key_attnos_list with
  | [] => false
  | bms :: rest =>
      (negb (bms_is_empty bms) && bms_is_member i rels_in_from)
      || key_left_over rest (i + 1) rels_in_from
  end.

(** The first loop: the key attribute set of every range-table entry,
    in order.  [recurse] is the recursive call for a subquery, [i] the
    1-based index of the head of [rt]; [None] is the early
    [return NULL]. *)
Fixpoint collect_key_attnos
  (recurse : Query -> list Oid -> result (Bitmapset * list Oid))
  (is_create : bool) (rt : list RangeTblEntry) (i : nat)
  (key_attnos_list : list Bitmapset) (constraintList : list Oid)
  : result (option (list Bitmapset) * list Oid) :=
  match rt with
  | [] => Ok (Some key_attnos_list, constraintList)
  | r :: rest =>
      do kc <-
        (if Nat.leb (first_rtindex is_create) i then
           match rtekind r with
           | RTE_SUBQUERY =>
               match subquery r with
               | Some sq =>
                   do rc <- recurse sq constraintList;
                   Ok (fst rc, is_some (fst rc), snd rc)
               | None => Error (E_External "null subquery")
               end
           | RTE_RELATION =>
               let pk := get_primary_key_attnos (relid r) in
               Ok (fst pk, is_some (fst pk), constraintList ++ [snd pk])
           | _ => Ok (None, true, constraintList)
           end
         else Ok (None, true, constraintList));
      let '(key_attnos, has_pkey, cl) := kc in
      if negb has_pkey then Ok (None, cl)
      else collect_key_attnos recurse is_create rest (S i)
             (key_attnos_list ++ [key_attnos]) cl
  end.

(** The part of the function after the first loop. *)
Definition keys_in_targetList (query : Query)
  (key_attnos_list : list Bitmapset) : result Bitmapset :=
  do r2 <- scan_targetList query (targetList query) 1 key_attnos_list None;
  let rels_in_from := pull_varnos_of_level (jointree query) 0 in
  if key_left_over (fst r2) 1 rels_in_from then Ok None
  else Ok (snd r2).

(** *** get_primary_key_attnos_from_query

    [depth] is the stack left to [check_stack_depth]: every recursive
    call uses one unit of it.  The result pairs the returned bitmapset
    with the constraint list, which the C code extends through
    [constraintList] also on the paths that return NULL. *)
Fixpoint get_primary_key_attnos_from_query (depth : nat) (query : Query)
  (constraintList : list Oid) (is_create : bool) {struct depth}
  : result (Bitmapset * list Oid) :=
  match depth with
  | O => Error E_stack_depth
  | S depth' =>
      let query := inline_ctes query in
      do r1 <- collect_key_attnos
                 (fun sq cl =>
                    get_primary_key_attnos_from_query depth' sq cl true)
                 is_create (rtable query) 1%nat [] constraintList;
      match fst r1 with
      | None => Ok (None, snd r1)
      | Some key_attnos_list =>
          do keys <- keys_in_targetList query key_attnos_list;
          Ok (keys, snd r1)
      end
  end.

(** ** The index provisioner *)

Record IndexStmt : Type := mkIndexStmt {
  idxname : string;
  unique : bool;
  nulls_not_distinct : bool;
  accessMethod : string;
  indexParams : list string
}.

(** What the call leaves behind. *)
Inductive index_outcome : Type :=
| NoIndexNotice                 (* NOTICE: could not create an index *)
| CompatibleIndexFound          (* silent return *)
| IndexCreated (stmt : IndexStmt) (depends_on_constraints : list Oid).

(** [NameStr(TupleDescAttr(rd_att, resno - 1)->attname)] *)
Definition attname_of (rel : Relation) (tle : TargetEntry) : result string :=
  list_nth (rd_attnames rel) (resno tle - 1).

Fixpoint group_index_params (rel : Relation) (tl : list TargetEntry)
  (groupClause : list SortGroupClause) : result (list string) :=
  match groupClause with
  | [] => Ok []
  | scl :: rest =>
      do tle <- get_sortgroupclause_tle scl tl;
      do name <- attname_of rel tle;
      do names <- group_index_params rel tl rest;
      Ok (name :: names)
  end.

Fixpoint all_index_params (rel : Relation) (tl : list TargetEntry)
  : result (list string) :=
  match tl with
  | [] => Ok []
  | tle :: rest =>
      do name <- attname_of rel tle;
      do names <- all_index_params rel rest;
      Ok (name :: names)
  end.

Fixpoint key_index_params (rel : Relation) (tl : list TargetEntry)
  (key_attnos : Bitmapset) : result (list string) :=
  match tl with
  | [] => Ok []
  | tle :: rest =>
      if bms_member (resno tle - FirstLowInvalidHeapAttributeNumber) key_attnos
      then
        do name <- attname_of rel tle;
        do names <- key_index_params rel rest key_attnos;
        Ok (name :: names)
      else key_index_params rel rest key_attnos
  end.

(** The name of the index: [snprintf] writes the view's name and the
    suffix [_index] into [char idxname[NAMEDATALEN]], that is as many
    bytes of them as fit before the terminating zero. *)
Definition index_name (rel : Relation) : string :=
  substring 0 (NAMEDATALEN - 1) (rd_relname rel ++ "_index")%string.

(** The end of the function, after the index columns are chosen. *)
Definition define_index (rel : Relation) (params : list string)
  (constraintList : list Oid) : index_outcome :=
  if rd_has_compatible_index rel params then CompatibleIndexFound
  else IndexCreated
         (mkIndexStmt (index_name rel) true true "btree" params)
         constraintList.

(** *** CreateIndexOnIMMV *)
Definition CreateIndexOnIMMV (depth : nat) (query : Query) (rel : Relation)
  (is_create : bool) : result index_outcome :=
  if negb (is_nil (groupClause query)) then
    do params <- group_index_params rel (targetList query)
                                    (groupClause query);
    Ok (define_index rel params [])
  else if negb (is_nil (distinctClause query)) then
    do params <- all_index_params rel (targetList query);
    Ok (define_index rel params [])
  else
    do r <- get_primary_key_attnos_from_query depth query [] is_create;
    match fst r with
    | Some _ =>
        do params <- key_index_params rel (targetList query) (fst r);
        Ok (define_index rel params (snd r))
    | None => Ok NoIndexNotice
    end.

(** ** The orchestrator *)

(** *** create_ctas_nodata

    The column definitions come from the non-junk target entries; an
    explicit column name list overrides the names from the front. *)
Fixpoint ctas_columns (tlist : list TargetEntry) (names : list string)
  : result (list ColumnDef) :=
  match tlist with
  | [] =>
      raise_if negb (is_nil names)
        with E_External "too many column names were specified";
      Ok []
  | tle :: rest =>
      if resjunk tle then ctas_columns rest names
      else
        let (name, names') :=
          match names with
          | n :: ns => (Some n, ns)
          | [] => (resname tle, [])
          end in
        raise_if negb (collation_derived (expr tle))
          with E_External "no collation was derived for column";
        do cols <- ctas_columns rest names';
        Ok (mkColumnDef name (exprType (expr tle)) :: cols)
  end.

Definition create_ctas_nodata (tlist : list TargetEntry) (into : IntoClause)
  : result Oid :=
  do attrList <- ctas_columns tlist (colNames into);
  DefineRelation into attrList.

(** *** CreateTableAsRelExists *)
Definition CreateTableAsRelExists (ctas : CreateTableAsStmt) : result bool :=
  if get_relname_relid (into_relname (stmt_into ctas)) then
    raise_if negb (if_not_exists ctas) with E_DuplicateTable;
    Ok true
  else Ok false.

(** What one run of [ExecCreateTableAs] does to its collaborators, in
    order. *)
Inductive event : Type :=
| PreparedStatementExecuted (address : Oid)
| RestrictionChecked (query : Query)
| QueryRewritten (rewritten : Query)
| RelationDefinedWithNoData (tlist : list TargetEntry) (address : Oid)
| QueryExecuted (query : Query) (address : Oid)
| IVMStateMarked (matviewOid : Oid)
| IndexProvisioned (outcome : index_outcome)
| TriggersProvisioned (triggers : list CreateTrigStmt).

(** The IVM block before the relation is created. *)
Definition prepare_immv (query : Query) (into : IntoClause)
  : result (Query * option Query * list event) :=
  if is_some (viewQuery into) && ivm into then
    raise_if contain_mutable_functions query with E_MutableFunction;
    do _ <- check_ivm_restriction (T_Query query);
    do rewritten <- rewriteQueryForIMMV query (colNames into);
    Ok (rewritten, Some rewritten,
        [RestrictionChecked query; QueryRewritten rewritten])
  else Ok (query, None, []).

(** The creation of the relation, with or without data. *)
Definition create_relation (query : Query) (into : IntoClause)
  : result (Oid * list event) :=
  if skipData into then
    do address <- create_ctas_nodata (targetList query) into;
    Ok (address, [RelationDefinedWithNoData (targetList query) address])
  else
    match QueryRewrite query with
    | [q] =>
        do address <- ExecutorRun q into;
        Ok (address, [QueryExecuted q address])
    | _ => Error E_UnexpectedRewriteResult
    end.

(** The IVM block after the relation is created. *)
Definition finish_immv (depth : nat) (into : IntoClause)
  (query_immv : option Query) (address : Oid) : result (list event) :=
  match viewQuery into with
  | Some vq =>
      if ivm into then
        let matviewRel := table_open address in
        if negb (skipData into) then
          do outcome <- CreateIndexOnIMMV depth vq matviewRel true;
          match query_immv with
          | Some q =>
              do triggers <- CreateIvmTriggersOnBaseTables depth q address true [];
              Ok [IVMStateMarked address; IndexProvisioned outcome;
                  TriggersProvisioned triggers]
          | None => Error (E_External "query_immv is NULL")
          end
        else Ok [IVMStateMarked address]
      else Ok []
  | None => Ok []
  end.

(** *** ExecCreateTableAs

    The result is the address of the relation ([None] is
    [InvalidObjectAddress]) and the trace of what was done. *)
Definition ExecCreateTableAs (depth : nat) (stmt : CreateTableAsStmt)
  : result (option Oid * list event) :=
  let into := stmt_into stmt in
  do exists_already <- CreateTableAsRelExists stmt;
  if exists_already then Ok (None, [])
  else if stmt_is_execute stmt then
    do address <- ExecuteQuery into;
    Ok (Some address, [PreparedStatementExecuted address])
  else
    do p <- prepare_immv (stmt_query stmt) into;
    let '(query, query_immv, ev1) := p in
    do c <- create_relation query into;
    do ev3 <- finish_immv depth into query_immv (fst c);
    Ok (Some (fst c), ev1 ++ snd c ++ ev3).

(** ** Specification vocabulary for the trigger provisioner *)

(** The range table as [Recurse] receives it from [Recurse_Query]. *)
Definition rt_actions (matviewOid : Oid) (ex_lock : bool)
  (rtab : list RangeTblEntry) : list rt_action :=
  map (fun rte => (rte, Recurse_RangeTblEntry matviewOid ex_lock rte)) rtab.

(** The base relations that the walk over a join-tree node reaches:
    through a range-table reference to a plain relation, through a
    reference to a subquery entry and that subquery, or, for a query,
    through its join tree and the bodies of its CTEs. *)
Inductive reach_node : list RangeTblEntry -> Node -> Oid -> Prop :=
| reach_relation rt rti rte :
    rt_fetch rti rt = Ok rte -> rtekind rte = RTE_RELATION ->
    reach_node rt (T_RangeTblRef rti) (relid rte)
| reach_subquery rt rti rte sq r :
    rt_fetch rti rt = Ok rte -> rtekind rte = RTE_SUBQUERY ->
    subquery rte = Some sq -> reachable sq r ->
    reach_node rt (T_RangeTblRef rti) r
| reach_fromlist rt fromlist quals n r :
    In n fromlist -> reach_node rt n r ->
    reach_node rt (T_FromExpr fromlist quals) r
| reach_larg rt jointype larg rarg quals r :
    reach_node rt larg r ->
    reach_node rt (T_JoinExpr jointype (Some larg) rarg quals) r
| reach_rarg rt jointype larg rarg quals r :
    reach_node rt rarg r ->
    reach_node rt (T_JoinExpr jointype larg (Some rarg) quals) r
| reach_query_jointree rt q jt r :
    jointree q = Some jt -> reach_node rt jt r ->
    reach_node rt (T_Query q) r
| reach_query_cte rt q cte cq r :
    In cte (cteList q) -> ctequery cte = Some (T_Query cq) ->
    reachable cq r ->
    reach_node rt (T_Query q) r
with reachable : Query -> Oid -> Prop :=
| reachable_jointree q jt r :
    jointree q = Some jt -> reach_node (rtable q) jt r -> reachable q r
| reachable_cte q cte cq r :
    In cte (cteList q) -> ctequery cte = Some (T_Query cq) ->
    reachable cq r ->
    reachable q r.

(** The six triggers of one base relation, in creation order. *)
Definition six_triggers (matviewOid : Oid) (ex_lock : bool) (relOid : Oid)
  : list CreateTrigStmt :=
  let new := mkTriggerTransition "__ivm_newtable" true true in
  let old := mkTriggerTransition "__ivm_oldtable" false true in
  let mk name timing event fn rels :=
    mkCreateTrigStmt relOid name timing event fn rels matviewOid ex_lock
                     matviewOid in
  [mk "IVM_trigger_ins_before" TRIGGER_TYPE_BEFORE TRIGGER_TYPE_INSERT
      "IVM_immediate_before" [];
   mk "IVM_trigger_del_before" TRIGGER_TYPE_BEFORE TRIGGER_TYPE_DELETE
      "IVM_immediate_before" [];
   mk "IVM_trigger_upd_before" TRIGGER_TYPE_BEFORE TRIGGER_TYPE_UPDATE
      "IVM_immediate_before" [];
   mk "IVM_trigger_ins_after" TRIGGER_TYPE_AFTER TRIGGER_TYPE_INSERT
      "IVM_immediate_maintenance" [new];
   mk "IVM_trigger_del_after" TRIGGER_TYPE_AFTER TRIGGER_TYPE_DELETE
      "IVM_immediate_maintenance" [old];
   mk "IVM_trigger_upd_after" TRIGGER_TYPE_AFTER TRIGGER_TYPE_UPDATE
      "IVM_immediate_maintenance" [new; old]].

(** What a successful stretch of the recursion from [st] to [st'] has
    done when the relations it reaches are those of [R]: the relations
    [new] it has added are those of [R] not yet in [relids st], each
    once, and the catalog has grown by their triggers, six each. *)
Definition provisioned (matviewOid : Oid) (ex_lock : bool)
  (R : Oid -> Prop) (st st' : trigger_state) : Prop :=
  exists new,
    relids st' = relids st ++ new
    /\ catalog st' = catalog st ++ flat_map (six_triggers matviewOid ex_lock) new
    /\ NoDup new
    /\ (forall r, In r new <-> R r /\ ~ In r (relids st)).

(** The statements of the induction on the structural walk. *)
Definition Query_provisioned (matviewOid : Oid) (ex_lock : bool)
  (q : Query) : Prop :=
  forall st st', Recurse_Query matviewOid ex_lock q st = Ok st' ->
                 provisioned matviewOid ex_lock (reachable q) st st'.

Definition RangeTblEntry_provisioned (matviewOid : Oid) (ex_lock : bool)
  (rte : RangeTblEntry) : Prop :=
  forall sq, subquery rte = Some sq ->
             Query_provisioned matviewOid ex_lock sq.

Definition CommonTableExpr_provisioned (matviewOid : Oid) (ex_lock : bool)
  (cte : CommonTableExpr) : Prop :=
  forall st st',
    Recurse_CommonTableExpr matviewOid ex_lock cte st = Ok st' ->
    provisioned matviewOid ex_lock
      (fun r => exists cq, ctequery cte = Some (T_Query cq) /\ reachable cq r)
      st st'.

Definition Node_provisioned (matviewOid : Oid) (ex_lock : bool)
  (node : Node) : Prop :=
  (forall rtab, Forall (RangeTblEntry_provisioned matviewOid ex_lock) rtab ->
     forall st st',
       Recurse matviewOid ex_lock (rt_actions matviewOid ex_lock rtab) node st
         = Ok st' ->
       provisioned matviewOid ex_lock (reach_node rtab node) st st')
  /\ (forall q, node = T_Query q -> Query_provisioned matviewOid ex_lock q).

(** A computation that depends on the stack left, [f depth], returns
    [st'] from [st] whenever the stack is at least [d]. *)
Definition returns_from {S} (f : nat -> S -> result S) (d : nat)
  (st st' : S) : Prop :=
  forall depth, (d <= depth)%nat -> f depth st = Ok st'.

(** The call of [CreateIvmTriggersOnBaseTablesRecurse] for a CTE. *)
Definition recurse_cte (matviewOid : Oid) (ex_lock : bool) (depth : nat)
  (cte : CommonTableExpr) (st : trigger_state) : result trigger_state :=
  match ctequery cte with
  | Some (T_Query cq) =>
      CreateIvmTriggersOnBaseTablesRecurse depth cq (Some (T_Query cq))
        matviewOid ex_lock st
  | Some _ => Error E_UnrecognizedNodeType
  | None => Ok st
  end.

(** The statements of the induction that gives the stack needed. *)
Definition Query_returns (matviewOid : Oid) (ex_lock : bool) (q : Query)
  : Prop :=
  forall st st', Recurse_Query matviewOid ex_lock q st = Ok st' ->
    exists d,
      returns_from (fun depth =>
                      CreateIvmTriggersOnBaseTablesRecurse depth q
                        (Some (T_Query q)) matviewOid ex_lock) d st st'.

Definition RangeTblEntry_returns (matviewOid : Oid) (ex_lock : bool)
  (rte : RangeTblEntry) : Prop :=
  forall sq, subquery rte = Some sq -> Query_returns matviewOid ex_lock sq.

Definition CommonTableExpr_returns (matviewOid : Oid) (ex_lock : bool)
  (cte : CommonTableExpr) : Prop :=
  forall st st',
    Recurse_CommonTableExpr matviewOid ex_lock cte st = Ok st' ->
    exists d,
      returns_from (fun depth => recurse_cte matviewOid ex_lock depth cte)
                   d st st'.

Definition Node_returns (matviewOid : Oid) (ex_lock : bool) (node : Node)
  : Prop :=
  (forall qry,
     Forall (RangeTblEntry_returns matviewOid ex_lock) (rtable qry) ->
     forall st st',
       Recurse matviewOid ex_lock
         (rt_actions matviewOid ex_lock (rtable qry)) node st = Ok st' ->
       exists d,
         returns_from (fun depth =>
                         CreateIvmTriggersOnBaseTablesRecurse depth qry
                           (Some node) matviewOid ex_lock) d st st')
  /\ (forall q, node = T_Query q -> Query_returns matviewOid ex_lock q).

(** The triggers of a catalog that sit on a relation. *)
Definition triggers_on (relOid : Oid) (cat : list CreateTrigStmt)
  : list CreateTrigStmt :=
  filter (fun t => trig_relOid t =? relOid) cat.

(** ** Specification vocabulary for the restriction checker *)

(** A join-tree node has an outer join in it. *)
Inductive contains_outer_join : Node -> Prop :=
| outer_join_here jointype larg rarg quals :
    IS_OUTER_JOIN jointype = true ->
    contains_outer_join (T_JoinExpr jointype larg rarg quals)
| outer_join_larg jointype larg rarg quals :
    contains_outer_join larg ->
    contains_outer_join (T_JoinExpr jointype (Some larg) rarg quals)
| outer_join_rarg jointype larg rarg quals :
    contains_outer_join rarg ->
    contains_outer_join (T_JoinExpr jointype larg (Some rarg) quals)
| outer_join_fromlist fromlist quals n :
    In n fromlist -> contains_outer_join n ->
    contains_outer_join (T_FromExpr fromlist quals).

(** What a successful walk does to the context, as far as the claims
    need it: the nesting depth is restored and the outer-join flag is
    never cleared. *)
Definition context_kept (c c' : check_ivm_restriction_context) : Prop :=
  sublevels_up c' = sublevels_up c
  /\ (has_outerjoin c = true -> has_outerjoin c' = true).

(** A walking function keeps the context on [x]. *)
Definition keeps {A}
  (f : A -> check_ivm_restriction_context ->
       result check_ivm_restriction_context) (x : A) : Prop :=
  forall c c', f x c = Ok c' -> context_kept c c'.

(** ** Specification vocabulary for the rewriter *)

(** The entries of a list are numbered [n], [n + 1], ... *)
Fixpoint resnos_from (n : AttrNumber) (tl : list TargetEntry) : Prop :=
  match tl with
  | [] => True
  | tle :: rest => resno tle = n /\ resnos_from (n + 1) rest
  end.

(** Two target entries are the same output column: they differ at most
    in the sort/group reference. *)
Definition same_column (t t' : TargetEntry) : Prop :=
  expr t = expr t' /\ resno t = resno t' /\ resname t = resname t'
  /\ resjunk t = resjunk t'.

(** A target entry is a key of a GROUP BY clause. *)
Definition grouped_by (groupClause : list SortGroupClause)
  (tle : TargetEntry) : Prop :=
  ressortgroupref tle <> 0%nat
  /\ exists scl, In scl groupClause
                 /\ tleSortGroupRef scl = ressortgroupref tle.

(** ** Specification vocabulary for the primary-key analyser

    The conditions are on the query as the analyser sees it, after the
    CTEs are inlined; [i] is a 0-based position in the range table, so
    [S i] is the range-table index. *)

(** The target entry, flattened, is column [att] of range-table entry
    [rti]. *)
Definition projects (query : Query) (rti att : Z) (t : TargetEntry) : Prop :=
  exists t' v,
    flatten_join_alias_vars query (T_TargetEntry t) = T_TargetEntry t'
    /\ expr t' = T_Var v /\ varno v = rti /\ varattno v = att.





(** Events that provision an index or triggers. *)
Definition provisions (ev : event) : bool :=
  match ev with
  | IndexProvisioned _ | TriggersProvisioned _ => true
  | _ => false
  end.

End IVM.

(** ** Specification vocabulary for the restriction checker, continued *)

(** The queries that [check_ivm_restriction_walker] checks when it is
    called on a node, each paired with whether it is checked as a
    nested query ([sublevels_up > 0]); [nested] tells this for the node
    itself.  The walk is the walker's: a subquery of the range table is
    entered only through an [RTE_SUBQUERY] entry, and neither the
    arguments of an aggregate nor the test expression of a sublink are
    entered. *)
Fixpoint queries_walked (nested : bool) (node : Node) {struct node}
  : list (bool * Query) :=
  match node with
  | T_Query qry => Query_walked nested qry
  | T_CommonTableExpr cte => CommonTableExpr_walked cte
  | T_TargetEntry tle => TargetEntry_walked nested tle
  | T_JoinExpr _ larg rarg quals =>
      match larg with Some n => queries_walked nested n | None => [] end
      ++ match rarg with Some n => queries_walked nested n | None => [] end
      ++ match quals with Some n => queries_walked nested n | None => [] end
  | T_SubLink _ _ subselect =>
      match subselect with Some n => queries_walked true n | None => [] end
  | T_FuncExpr _ args => flat_map (queries_walked nested) args
  | T_OpExpr _ args => flat_map (queries_walked nested) args
  | T_BoolExpr args => flat_map (queries_walked nested) args
  | T_FromExpr fromlist quals =>
      flat_map (queries_walked nested) fromlist
      ++ match quals with Some n => queries_walked nested n | None => [] end
  | T_Var _ | T_Const _ _ _ | T_RangeTblRef _
  | T_Aggref _ _ _ _ _ _ _ => []
  end

with TargetEntry_walked (nested : bool) (tle : TargetEntry) {struct tle}
  : list (bool * Query) :=
  match tle with
  | mkTargetEntry e _ _ _ _ => queries_walked nested e
  end

with CommonTableExpr_walked (cte : CommonTableExpr) {struct cte}
  : list (bool * Query) :=
  match cte with
  | mkCommonTableExpr _ ctequery _ =>
      match ctequery with Some n => queries_walked true n | None => [] end
  end

with RangeTblEntry_walked (rte : RangeTblEntry) {struct rte}
  : list (bool * Query) :=
  match rte with
  | mkRangeTblEntry kind _ _ _ subquery _ =>
      match kind, subquery with
      | RTE_SUBQUERY, Some sq => Query_walked true sq
      | _, _ => []
      end
  end

with Query_walked (nested : bool) (qry : Query) {struct qry}
  : list (bool * Query) :=
  match qry with
  | mkQuery _ _ _ _ _ ctes rt jt tl _ _ having _ _ loff lcnt _ setops =>
      (nested, qry)
      :: flat_map RangeTblEntry_walked rt
      ++ flat_map (TargetEntry_walked nested) tl
      ++ match jt with Some n => queries_walked nested n | None => [] end
      ++ match setops with Some n => queries_walked nested n | None => [] end
      ++ match having with Some n => queries_walked nested n | None => [] end
      ++ match loff with Some n => queries_walked nested n | None => [] end
      ++ match lcnt with Some n => queries_walked nested n | None => [] end
      ++ flat_map CommonTableExpr_walked ctes
  end.

(** [nested] as the walker has it in its context. *)
Definition is_nested (c : check_ivm_restriction_context) : bool :=
  Nat.ltb 0 (sublevels_up c).

(** A walking function, when it succeeds on [x], has only checked
    queries that satisfy [R]; [walked] lists the queries it checks. *)
Definition walks_only {A} (R : bool -> Query -> Prop)
  (f : A -> check_ivm_restriction_context ->
       result check_ivm_restriction_context)
  (walked : bool -> A -> list (bool * Query)) (x : A) : Prop :=
  forall c c', f x c = Ok c' ->
  forall b q, In (b, q) (walked (is_nested c) x) -> R b q.

(** The qualifier of an outer join of a join tree. *)
Inductive outer_join_qual : Node -> option Node -> Prop :=
| outer_qual_here jointype larg rarg quals :
    IS_OUTER_JOIN jointype = true ->
    outer_join_qual (T_JoinExpr jointype larg rarg quals) quals
| outer_qual_larg jointype larg rarg quals q :
    outer_join_qual larg q ->
    outer_join_qual (T_JoinExpr jointype (Some larg) rarg quals) q
| outer_qual_rarg jointype larg rarg quals q :
    outer_join_qual rarg q ->
    outer_join_qual (T_JoinExpr jointype larg (Some rarg) quals) q
| outer_qual_fromlist fromlist quals n q :
    In n fromlist -> outer_join_qual n q ->
    outer_join_qual (T_FromExpr fromlist quals) q.

(** What a successful walk never undoes in the context: the flags for
    aggregates and subqueries stay set and the collected join
    qualifiers stay collected. *)
Definition context_grows (c c' : check_ivm_restriction_context) : Prop :=
  (has_agg c = true -> has_agg c' = true)
  /\ (has_subquery c = true -> has_subquery c' = true)
  /\ (forall q, In q (join_quals c) -> In q (join_quals c')).

Definition grows {A}
  (f : A -> check_ivm_restriction_context ->
       result check_ivm_restriction_context) (x : A) : Prop :=
  forall c c', f x c = Ok c' -> context_grows c c'.

(** The variables that the walker appends to [exists_qual_vars] when
    it is called on a node: those of an upper query level that it
    meets while [in_exists_subquery] is set, in the order of the walk.
    [in_exists] tells the flag for the node itself; a sublink sets it
    for its subquery. *)
Fixpoint vars_collected (in_exists : bool) (node : Node) {struct node}
  : list Var :=
  match node with
  | T_Query qry => Query_vars_collected in_exists qry
  | T_CommonTableExpr cte => CommonTableExpr_vars_collected in_exists cte
  | T_TargetEntry tle => TargetEntry_vars_collected in_exists tle
  | T_JoinExpr _ larg rarg quals =>
      match larg with Some n => vars_collected in_exists n | None => [] end
      ++ match rarg with Some n => vars_collected in_exists n | None => [] end
      ++ match quals with Some n => vars_collected in_exists n | None => [] end
  | T_Var variable =>
      if Nat.ltb 0 (varlevelsup variable) && in_exists then [variable]
      else []
  | T_SubLink _ _ subselect =>
      match subselect with Some n => vars_collected true n | None => [] end
  | T_FuncExpr _ args => flat_map (vars_collected in_exists) args
  | T_OpExpr _ args => flat_map (vars_collected in_exists) args
  | T_BoolExpr args => flat_map (vars_collected in_exists) args
  | T_FromExpr fromlist quals =>
      flat_map (vars_collected in_exists) fromlist
      ++ match quals with Some n => vars_collected in_exists n | None => [] end
  | T_Const _ _ _ | T_RangeTblRef _ | T_Aggref _ _ _ _ _ _ _ => []
  end

with TargetEntry_vars_collected (in_exists : bool) (tle : TargetEntry)
  {struct tle} : list Var :=
  match tle with
  | mkTargetEntry e _ _ _ _ => vars_collected in_exists e
  end

with CommonTableExpr_vars_collected (in_exists : bool)
  (cte : CommonTableExpr) {struct cte} : list Var :=
  match cte with
  | mkCommonTableExpr _ ctequery _ =>
      match ctequery with
      | Some n => vars_collected in_exists n
      | None => []
      end
  end

with RangeTblEntry_vars_collected (in_exists : bool) (rte : RangeTblEntry)
  {struct rte} : list Var :=
  match rte with
  | mkRangeTblEntry kind _ _ _ subquery _ =>
      match kind, subquery with
      | RTE_SUBQUERY, Some sq => Query_vars_collected in_exists sq
      | _, _ => []
      end
  end

with Query_vars_collected (in_exists : bool) (qry : Query) {struct qry}
  : list Var :=
  match qry with
  | mkQuery _ _ _ _ _ ctes rt jt tl _ _ having _ _ loff lcnt _ setops =>
      flat_map (RangeTblEntry_vars_collected in_exists) rt
      ++ flat_map (TargetEntry_vars_collected in_exists) tl
      ++ match jt with Some n => vars_collected in_exists n | None => [] end
      ++ match setops with Some n => vars_collected in_exists n | None => [] end
      ++ match having with Some n => vars_collected in_exists n | None => [] end
      ++ match loff with Some n => vars_collected in_exists n | None => [] end
      ++ match lcnt with Some n => vars_collected in_exists n | None => [] end
      ++ flat_map (CommonTableExpr_vars_collected in_exists) ctes
  end.

(** What a successful walk from [c] to [c'] has done to the part of
    the context that the EXISTS check reads, when the variables it
    collects are [vars]: the flag is as before, set only below the top
    level, and the variables have been appended. *)
Definition collected (c c' : check_ivm_restriction_context)
  (vars : list Var) : Prop :=
  in_exists_subquery c' = in_exists_subquery c
  /\ sublevels_up c' = sublevels_up c
  /\ exists_qual_vars c' = exists_qual_vars c ++ vars.

Definition collects {A}
  (f : A -> check_ivm_restriction_context ->
       result check_ivm_restriction_context)
  (vars : bool -> A -> list Var) (x : A) : Prop :=
  forall c c',
    (in_exists_subquery c = true -> (0 < sublevels_up c)%nat) ->
    f x c = Ok c' ->
    collected c c' (vars (in_exists_subquery c) x).

(** ** Specification vocabulary for the rewriter, continued *)

(** Two queries differ at most in the target list, the GROUP BY clause
    and the aggregate flag, the three fields that
    [rewriteQueryForIMMV] assigns to. *)
Definition same_outside_targets (q q' : Query) : Prop :=
  hasWindowFuncs q' = hasWindowFuncs q
  /\ hasSubLinks q' = hasSubLinks q
  /\ hasDistinctOn q' = hasDistinctOn q
  /\ hasRecursive q' = hasRecursive q
  /\ cteList q' = cteList q
  /\ rtable q' = rtable q
  /\ jointree q' = jointree q
  /\ groupingSets q' = groupingSets q
  /\ havingQual q' = havingQual q
  /\ distinctClause q' = distinctClause q
  /\ sortClause q' = sortClause q
  /\ limitOffset q' = limitOffset q
  /\ limitCount q' = limitCount q
  /\ rowMarks q' = rowMarks q
  /\ setOperations q' = setOperations q.

Section RewriterVocabulary.

Context {collab : Collaborators}.

(** The number of hidden columns that [makeIvmAggColumn] adds for a
    target entry: none unless it is an aggregate, a count for every
    aggregate but [count], and a sum for [avg]. *)
Definition companion_columns (tle : TargetEntry) : nat :=
  match expr tle with
  | T_Aggref fn _ _ _ _ _ _ =>
      ((if String.eqb (get_func_name fn) "count" then 0 else 1)
       + (if String.eqb (get_func_name fn) "avg" then 1 else 0))%nat
  | _ => 0%nat
  end.

(** A range-table entry that the EXISTS step exposes a count column
    of: a lateral subquery with a column whose name starts with
    [__ivm_exists]. *)
Definition has_exists_count (rte : RangeTblEntry) : bool :=
  is_some (subquery rte) && lateral rte
  && is_some (getColumnNameStartWith rte "__ivm_exists").

(** These entries of a range table, in order, each with its
    range-table index. *)
Definition exists_count_entries (rt : list RangeTblEntry)
  : list (nat * RangeTblEntry) :=
  filter (fun e => has_exists_count (snd e))
         (combine (seq 1 (List.length rt)) rt).

(** A target entry is the count column of such an entry: the column
    found in it, as a variable of type [int8] of the entry, under the
    column's name. *)
Definition exposes (tle : TargetEntry) (e : nat * RangeTblEntry) : Prop :=
  exists name attnum,
    getColumnNameStartWith (snd e) "__ivm_exists" = Some (name, attnum)
    /\ expr tle = T_Var (mkVar (Z.of_nat (fst e)) attnum INT8OID 0)
    /\ resname tle = Some name
    /\ resjunk tle = false
    /\ ressortgroupref tle = 0%nat.

End RewriterVocabulary.

(** ** Specification vocabulary for the index provisioner *)

(** How [CreateIndexOnIMMV] ends once it has chosen the index columns
    [params]: silently when the view has a compatible index, and
    otherwise with a unique btree index on these columns that treats
    nulls as not distinct, depends on the constraints [deps] and is
    named by the first 63 bytes of the view's name followed by
    [_index]. *)
Definition index_decided (rel : Relation) (params : list string)
  (deps : list Oid) (outcome : index_outcome) : Prop :=
  (rd_has_compatible_index rel params = true
   /\ outcome = CompatibleIndexFound)
  \/ (rd_has_compatible_index rel params = false
      /\ outcome = IndexCreated
                     (mkIndexStmt
                        (substring 0 63 (rd_relname rel ++ "_index")%string)
                        true true "btree" params)
                     deps).

(** ** The tuple receiver

    The [DestReceiver] that the executor sends the rows of the query
    to: [CreateIntoRelDestReceiver], [intorel_startup],
    [intorel_receive] and [intorel_shutdown].  ([intorel_destroy] only
    frees the object.)  The calls into the table access method and the
    catalog are logged in order.  As in [create_ctas_nodata],
    [DefineRelation into attrList] stands for the call
    [create_ctas_internal(attrList, into)]. *)

(** The fields of [Form_pg_attribute] that [intorel_startup] reads; a
    tuple descriptor is the list of its attributes. *)
Record Form_pg_attribute : Type := mkAttribute {
  attname : string;
  atttypid : Oid;
  atttypmod : Z;
  attcollation : Oid
}.

Definition TupleDesc : Type := list Form_pg_attribute.

Definition InvalidOid : Oid := 0.
Definition OidIsValid (o : Oid) : bool := negb (o =? InvalidOid).

Definition CommandId : Type := Z.

(** A bulk-insert state is only passed around. *)
Inductive BulkInsertState : Type := BulkInsertStateData.

(** What the receiver needs of the catalog and the table access
    method.  [check_enable_rls] raises by itself or tells whether row
    security is enabled; [GetCurrentCommandId] is the command id at
    startup. *)
Class Storage : Type := {
  TupleTableSlot : Type;
  type_is_collatable : Oid -> bool;
  check_enable_rls : Oid -> result bool;
  GetCurrentCommandId : CommandId;
  GetBulkInsertState : BulkInsertState;
  TABLE_INSERT_SKIP_FSM : Z
}.

Section IntoRel.

Context {collab : Collaborators} {storage : Storage}.

(** The calls that the receiver makes, in order. *)
Inductive storage_event : Type :=
| TableOpened (rel : Oid)                   (* with AccessExclusiveLock *)
| MatViewPopulatedStateSet (rel : Oid)
| TupleInserted (rel : Oid) (slot : TupleTableSlot) (cid : CommandId)
                (options : Z) (bistate : option BulkInsertState)
| BulkInsertStateFreed (bistate : option BulkInsertState)
| BulkInsertFinished (rel : Oid) (options : Z)
| TableClosed (rel : Oid).                  (* the lock is kept *)

Record DR_intorel : Type := mkDR_intorel {
  into : option IntoClause;
  rel : option Oid;
  reladdr : Oid;
  output_cid : CommandId;
  ti_options : Z;
  bistate : option BulkInsertState
}.

(** *** CreateIntoRelDestReceiver

    [palloc0] zeroes the private fields. *)
Definition CreateIntoRelDestReceiver (intoClause : option IntoClause)
  : DR_intorel :=
  mkDR_intorel intoClause None InvalidOid 0 0 None.

(** The loop of [intorel_startup] over the attributes and the check
    after it: one column per attribute, named by the explicit column
    names as far as they go. *)
Fixpoint intorel_columns (typeinfo : TupleDesc) (names : list string)
  : result (list ColumnDef) :=
  match typeinfo with
  | [] =>
      raise_if negb (is_nil names)
        with E_External "too many column names were specified";
      Ok []
  | attribute :: rest =>
      let (name, names') :=
        match names with
        | n :: ns => (n, ns)
        | [] => (attname attribute, [])
        end in
      raise_if negb (OidIsValid (attcollation attribute))
               && type_is_collatable (atttypid attribute)
        with E_External "no collation was derived for column";
      do cols <- intorel_columns rest names';
      Ok (mkColumnDef (Some name) (atttypid attribute) :: cols)
  end.

Definition E_null_pointer : diag := E_External "NULL pointer dereferenced".

(** *** intorel_startup *)
Definition intorel_startup (self : DR_intorel) (typeinfo : TupleDesc)
  (log : list storage_event) : result (DR_intorel * list storage_event) :=
  match into self with
  | None => Error E_null_pointer
  | Some into =>
      let is_matview := is_some (viewQuery into) in
      do attrList <- intorel_columns typeinfo (colNames into);
      do intoRelationAddr <- DefineRelation into attrList;
      let log := log ++ [TableOpened intoRelationAddr] in
      do rls <- check_enable_rls intoRelationAddr;
      raise_if rls
        with E_External "policies not yet implemented for this command";
      let log :=
        if is_matview && negb (skipData into)
        then log ++ [MatViewPopulatedStateSet intoRelationAddr]
        else log in
      Ok (mkDR_intorel (Some into) (Some intoRelationAddr) intoRelationAddr
            GetCurrentCommandId TABLE_INSERT_SKIP_FSM
            (if negb (skipData into) then Some GetBulkInsertState else None),
          log)
  end.

(** *** intorel_receive *)
Definition intorel_receive (slot : TupleTableSlot) (self : DR_intorel)
  (log : list storage_event) : result (bool * list storage_event) :=
  match into self with
  | None => Error E_null_pointer
  | Some into =>
      if negb (skipData into) then
        match rel self with
        | None => Error E_null_pointer
        | Some r =>
            Ok (true, log ++ [TupleInserted r slot (output_cid self)
                                (ti_options self) (bistate self)])
        end
      else Ok (true, log)
  end.

(** *** intorel_shutdown *)
Definition intorel_shutdown (self : DR_intorel) (log : list storage_event)
  : result (DR_intorel * list storage_event) :=
  match into self, rel self with
  | Some into, Some r =>
      let log :=
        if negb (skipData into)
        then log ++ [BulkInsertStateFreed (bistate self);
                     BulkInsertFinished r (ti_options self)]
        else log in
      Ok (mkDR_intorel (Some into) None (reladdr self) (output_cid self)
            (ti_options self) (bistate self),
          log ++ [TableClosed r])
  | _, _ => Error E_null_pointer
  end.

(** The receiver as the executor drives it: started, sent the rows one
    by one, shut down. *)
Fixpoint receive_all (slots : list TupleTableSlot) (self : DR_intorel)
  (log : list storage_event) : result (list storage_event) :=
  match slots with
  | [] => Ok log
  | slot :: rest =>
      do r <- intorel_receive slot self log;
      receive_all rest self (snd r)
  end.

Definition receiver_run (self : DR_intorel) (typeinfo : TupleDesc)
  (slots : list TupleTableSlot) (log : list storage_event)
  : result (DR_intorel * list storage_event) :=
  do s <- intorel_startup self typeinfo log;
  do log1 <- receive_all slots (fst s) (snd s);
  intorel_shutdown (fst s) log1.

(** The tuple descriptor of a target list, as the receiver of
    [ExecCreateTableAs] gets it: one attribute for every target entry
    that is not junk, with its name and the type of its expression,
    and a collation that passes the check of [intorel_startup] exactly
    when [create_ctas_nodata] finds one derived. *)
Definition describes (tlist : list TargetEntry) (typeinfo : TupleDesc)
  : Prop :=
  Forall2 (fun t a =>
             resname t = Some (attname a)
             /\ exprType (expr t) = atttypid a
             /\ collation_derived (expr t)
                = negb (negb (OidIsValid (attcollation a))
                        && type_is_collatable (atttypid a)))
          (filter (fun t => negb (resjunk t)) tlist) typeinfo.

End IntoRel.

(** ** Sample collaborators and queries

    A small catalog on which the definitions can be run: tables [t1]
    (OID 16384, primary key column 1), [t2] (OID 16385, primary key
    column 1) and [t3] (OID 16386, no primary key). *)
Module Sample.

(** The variables of an expression, in order. *)
Fixpoint vars_of (n : Node) : list Var :=
  match n with
  | T_Var v => [v]
  | T_FuncExpr _ args | T_OpExpr _ args | T_BoolExpr args =>
      flat_map vars_of args
  | _ => []
  end.

Definition opt_vars_of (o : option Node) : list Var :=
  match o with Some n => vars_of n | None => [] end.

(** The variables of a join tree, in order: those of the qualifiers of
    its [FromExpr] and [JoinExpr] nodes.  A range-table reference holds
    no variable. *)
Fixpoint jointree_vars (n : Node) : list Var :=
  match n with
  | T_FromExpr fromlist quals =>
      flat_map jointree_vars fromlist
      ++ match quals with Some q => jointree_vars q | None => [] end
  | T_JoinExpr _ larg rarg quals =>
      match larg with Some l => jointree_vars l | None => [] end
      ++ match rarg with Some r => jointree_vars r | None => [] end
      ++ match quals with Some q => jointree_vars q | None => [] end
  | T_Var v => [v]
  | T_FuncExpr _ args | T_OpExpr _ args | T_BoolExpr args =>
      flat_map jointree_vars args
  | _ => []
  end.

(** Equality operator 96 ([int4eq]) is merge- and hash-joinable, 97
    ([int4lt]) is not. *)
Definition collab : Collaborators := {|
  pull_vars_of_level := fun n _ => vars_of n;
  pull_varnos := fun n => map varno (vars_of n);
  pull_varnos_of_level := fun o levelsup =>
    map varno
        (filter (fun v => Nat.eqb (varlevelsup v) levelsup)
                (match o with Some n => jointree_vars n | None => [] end));
  flatten_join_alias_vars := fun _ n => n;
  find_nonnullable_vars := fun o =>
    match o with
    | Some (T_OpExpr _ args) => flat_map vars_of args
    | _ => []
    end;
  contain_nonstrict_functions := fun _ => false;
  contain_mutable_functions := fun _ => false;
  contain_aggs_of_level := fun n _ =>
    match n with
    | T_FuncExpr _ args | T_OpExpr _ args => existsb IsA_Aggref args
    | _ => false
    end;
  has_superclass := fun _ => false;
  find_inheritance_children := fun _ => [];
  exprType := fun _ => INT4OID;
  op_mergejoinable := fun opno _ => opno =? 96;
  get_mergejoin_opfamilies := fun opno => if opno =? 96 then [1976] else [];
  op_hashjoinable := fun opno _ => opno =? 96;
  get_func_name := fun oid =>
    if (oid =? 2147) || (oid =? 2803) then "count"
    else if oid =? 2108 then "sum"
    else if oid =? 2101 then "avg"
    else "other";
  get_primary_key_attnos := fun relid =>
    if (relid =? 16384) || (relid =? 16385)
    then (Some [1 - FirstLowInvalidHeapAttributeNumber], relid + 1000)
    else (None, 0);
  ivm_aggfn_oids := [2147; 2803; 2108; 2101];
  ParseFuncOrColumn := fun name args star =>
    if String.eqb name "count" then
      Ok (T_Aggref (if star then 2803 else 2147) [] args [] [] None star)
    else if String.eqb name "sum" then
      Ok (T_Aggref 2108 [INT4OID] args [] [] None false)
    else Error (E_External "function does not exist");
  get_sort_group_operators := fun _ => Some (97, 96);
  rewrite_query_for_exists_subquery := fun q => Ok q;
  getColumnNameStartWith := fun _ _ => None;
  inline_cte := fun q _ => q;
  get_relname_relid := fun _ => false;
  collation_derived := fun _ => true;
  DefineRelation := fun _ _ => Ok 20000;
  ExecuteQuery := fun _ => Ok 20000;
  QueryRewrite := fun q => [q];
  ExecutorRun := fun _ _ => Ok 20000;
  table_open := fun _ => mkRelation "mv" ["a"; "b"; "c"; "d"] (fun _ => false)
|}.

(** A query with the given flags and clauses and nothing else. *)
Definition select (aggs : bool) (rt : list RangeTblEntry)
  (jt : option Node) (tl : list TargetEntry)
  (group distinct : list SortGroupClause) : Query :=
  mkQuery aggs false false false false [] rt jt tl group false None
          distinct [] None None false None.

Definition table (oid : Oid) : RangeTblEntry :=
  mkRangeTblEntry RTE_RELATION oid RELKIND_RELATION false None false.

Definition column (rel att : Z) : Node := T_Var (mkVar rel att INT4OID 0).

Definition target (e : Node) (no : Z) (name : string) : TargetEntry :=
  mkTargetEntry e no (Some name) 0%nat false.

Definition from (rtis : list nat) (quals : option Node) : option Node :=
  Some (T_FromExpr (map T_RangeTblRef rtis) quals).

(** [SELECT t1.a FROM t1] *)
Definition q_plain : Query :=
  select false [table 16384] (from [1%nat] None)
         [target (column 1 1) 1 "a"] [] [].

(** [SELECT DISTINCT t1.a, t1.b FROM t1] *)
Definition q_distinct : Query :=
  select false [table 16384] (from [1%nat] None)
         [mkTargetEntry (column 1 1) 1 (Some "a") 1%nat false;
          mkTargetEntry (column 1 2) 2 (Some "b") 2%nat false]
         []
         [mkSortGroupClause 1 96 97; mkSortGroupClause 2 96 97].

(** [SELECT t1.a, avg(t1.b) AS m FROM t1 GROUP BY t1.a] *)
Definition avg_b : Node :=
  T_Aggref 2101 [INT4OID] [T_TargetEntry (target (column 1 2) 1 "")]
           [] [] None false.

Definition q_avg : Query :=
  select true [table 16384] (from [1%nat] None)
         [mkTargetEntry (column 1 1) 1 (Some "a") 1%nat false;
          target avg_b 2 "m"]
         [mkSortGroupClause 1 96 97] [].

(** [WITH c AS (SELECT t1.a FROM t1) SELECT 1 AS x]: the CTE is not
    referenced and the main query has no range table. *)
Definition q_cte_only : Query :=
  mkQuery false false false false false
          [mkCommonTableExpr (Some "c") (Some (T_Query q_plain)) 0]
          [] (from [] None) [target (T_Const INT4OID 1 false) 1 "x"]
          [] false None [] [] None None false None.

(** [SELECT t1.a FROM t1 JOIN t1 AS s ON t1.a = s.a, t2]: the same
    relation twice, and a second one. *)
Definition q_selfjoin : Query :=
  select false [table 16384; table 16384; table 16385]
         (Some (T_FromExpr
                  [T_JoinExpr JOIN_INNER (Some (T_RangeTblRef 1))
                              (Some (T_RangeTblRef 2))
                              (Some (T_OpExpr 96 [column 1 1; column 2 1]));
                   T_RangeTblRef 3]
                  None))
         [target (column 1 1) 1 "a"] [] [].

(** [SELECT DISTINCT t1.a + 1 AS x, t1.a FROM t1 GROUP BY t1.a] *)
Definition q_distinct_group : Query :=
  select false [table 16384] (from [1%nat] None)
         [mkTargetEntry (T_OpExpr 551 [column 1 1; T_Const INT4OID 1 false])
                        1 (Some "x") 2%nat false;
          mkTargetEntry (column 1 1) 2 (Some "a") 1%nat false]
         [mkSortGroupClause 1 96 97]
         [mkSortGroupClause 2 96 97; mkSortGroupClause 1 96 97].

Definition subquery_rte (q : Query) : RangeTblEntry :=
  mkRangeTblEntry RTE_SUBQUERY 0 RELKIND_NONE false (Some q) false.

(** [SELECT DISTINCT t1.a FROM t1 ORDER BY t1.a] *)
Definition q_distinct_ordered : Query :=
  mkQuery false false false false false [] [table 16384] (from [1%nat] None)
          [mkTargetEntry (column 1 1) 1 (Some "a") 1%nat false]
          [] false None [mkSortGroupClause 1 96 97]
          [mkSortGroupClause 1 96 97] None None false None.

(** [SELECT s.a FROM (SELECT DISTINCT t1.a FROM t1 ORDER BY t1.a) s] *)
Definition q_from_distinct_ordered : Query :=
  select false [subquery_rte q_distinct_ordered] (from [1%nat] None)
         [target (column 1 1) 1 "a"] [] [].

(** [SELECT s.a FROM (SELECT DISTINCT t1.a, t1.b FROM t1) s] *)
Definition q_from_distinct : Query :=
  select false [subquery_rte q_distinct] (from [1%nat] None)
         [target (column 1 1) 1 "a"] [] [].

(** [EXISTS (SELECT t2.a FROM t2)] *)
Definition exists_t2 : Node :=
  T_SubLink EXISTS_SUBLINK None
    (Some (T_Query (select false [table 16385] (from [1%nat] None)
                           [target (column 1 1) 1 "a"] [] []))).

(** [SELECT t1.a, EXISTS (SELECT t2.a FROM t2) AS e FROM t1] *)
Definition q_sublink_target : Query :=
  mkQuery false false true false false [] [table 16384] (from [1%nat] None)
          [target (column 1 1) 1 "a"; target exists_t2 2 "e"]
          [] false None [] [] None None false None.

(** The same with [ORDER BY t1.a]. *)
Definition q_sublink_target_ordered : Query :=
  mkQuery false false true false false [] [table 16384] (from [1%nat] None)
          [mkTargetEntry (column 1 1) 1 (Some "a") 1%nat false;
           target exists_t2 2 "e"]
          [] false None [] [mkSortGroupClause 1 96 97] None None false None.

(** [SELECT t1.a, NOT EXISTS (SELECT t2.a FROM t2) AS e FROM t1]: the
    sublink sits inside a larger target expression. *)
Definition q_sublink_nested_in_target : Query :=
  mkQuery false false true false false [] [table 16384] (from [1%nat] None)
          [target (column 1 1) 1 "a"; target (T_BoolExpr [exists_t2]) 2 "e"]
          [] false None [] [] None None false None.

Definition join_rte : RangeTblEntry :=
  mkRangeTblEntry RTE_JOIN 0 RELKIND_NONE false None false.

(** [SELECT t1.a, t2.a FROM t1 LEFT JOIN t2 ON t1.a <op> t2.a WHERE <w>] *)
Definition q_left_join (op : Oid) (w : option Node) : Query :=
  select false [table 16384; table 16385; join_rte]
         (Some (T_FromExpr
                  [T_JoinExpr JOIN_LEFT (Some (T_RangeTblRef 1))
                              (Some (T_RangeTblRef 2))
                              (Some (T_OpExpr op [column 1 1; column 2 1]))]
                  w))
         [target (column 1 1) 1 "a"; target (column 2 1) 2 "a2"] [] [].

(** [f(t2.b)] for a function 1000 that is not strict: nothing is known
    to be non-null where it holds. *)
Definition f_t2_b : Node := T_FuncExpr 1000 [column 2 2].

(** [t2.b > 5], with the strict operator 521. *)
Definition t2_b_gt_5 : Node :=
  T_OpExpr 521 [column 2 2; T_Const INT4OID 5 false].



(** [SELECT t1.a FROM t1, t2]: no qualifier mentions [t2], and its key
    column is not projected. *)
Definition q_unmentioned : Query :=
  select false [table 16384; table 16385] (from [1%nat; 2%nat] None)
         [target (column 1 1) 1 "a"] [] [].

Definition mv : Relation := mkRelation "mv" ["a"; "b"] (fun _ => false).

(** The result of a run on the sample catalog, or [default]. *)
Definition run {A} (r : result A) (default : A) : A :=
  match r with Ok a => a | Error _ => default end.

Definition q_distinct_rewritten : Query :=
  Eval vm_compute in
    run (rewriteQueryForIMMV (collab := collab) q_distinct []) q_distinct.

Definition q_avg_rewritten : Query :=
  Eval vm_compute in
    run (rewriteQueryForIMMV (collab := collab) q_avg []) q_avg.

Definition q_selfjoin_triggers : list CreateTrigStmt :=
  Eval vm_compute in
    run (CreateIvmTriggersOnBaseTables 10 q_selfjoin 20000 true []) [].

(** [CREATE INCREMENTAL MATERIALIZED VIEW mv AS SELECT DISTINCT t1.a,
    t1.b FROM t1 WITH NO DATA] *)
Definition stmt_no_data : CreateTableAsStmt :=
  mkCreateTableAsStmt q_distinct false
    (mkIntoClause "mv" [] (Some q_distinct) true true) false.

End Sample.

(** ** More samples

    Further queries, statements and a storage layer on the sample
    catalog. *)
Module Fixture.

Import Sample.

(** [SELECT s.a FROM (SELECT t1.a FROM t1) s] *)
Definition q_from_subquery : Query :=
  select false [subquery_rte q_plain] (from [1%nat] None)
         [target (column 1 1) 1 "a"] [] [].

(** [SELECT t1.a, t2.a FROM t1 LEFT JOIN t2 ON t1.a = t2.a] *)
Definition q_left_equijoin : Query := q_left_join 96 None.

Definition t1_a_eq_t2_a : Node := T_OpExpr 96 [column 1 1; column 2 1].

(** The sample catalog with another answer to whether a relation name
    is taken, another rewriting of EXISTS sublinks and another lookup
    of the columns of a range-table entry. *)
Definition variant (taken : string -> bool)
  (rewrite_exists_sublinks : Query -> result Query)
  (column_starting_with : RangeTblEntry -> string -> option (string * Z))
  : Collaborators := {|
  pull_vars_of_level := @pull_vars_of_level collab;
  pull_varnos := @pull_varnos collab;
  pull_varnos_of_level := @pull_varnos_of_level collab;
  flatten_join_alias_vars := @flatten_join_alias_vars collab;
  find_nonnullable_vars := @find_nonnullable_vars collab;
  contain_nonstrict_functions := @contain_nonstrict_functions collab;
  contain_mutable_functions := @contain_mutable_functions collab;
  contain_aggs_of_level := @contain_aggs_of_level collab;
  has_superclass := @has_superclass collab;
  find_inheritance_children := @find_inheritance_children collab;
  exprType := @exprType collab;
  op_mergejoinable := @op_mergejoinable collab;
  get_mergejoin_opfamilies := @get_mergejoin_opfamilies collab;
  op_hashjoinable := @op_hashjoinable collab;
  get_func_name := @get_func_name collab;
  get_primary_key_attnos := @get_primary_key_attnos collab;
  ivm_aggfn_oids := @ivm_aggfn_oids collab;
  ParseFuncOrColumn := @ParseFuncOrColumn collab;
  get_sort_group_operators := @get_sort_group_operators collab;
  rewrite_query_for_exists_subquery := rewrite_exists_sublinks;
  getColumnNameStartWith := column_starting_with;
  inline_cte := @inline_cte collab;
  get_relname_relid := taken;
  collation_derived := @collation_derived collab;
  DefineRelation := @DefineRelation collab;
  ExecuteQuery := @ExecuteQuery collab;
  QueryRewrite := @QueryRewrite collab;
  ExecutorRun := @ExecutorRun collab;
  table_open := @table_open collab
|}.

(** Every relation name is taken. *)
Definition collab_taken : Collaborators :=
  variant (fun _ => true) (@rewrite_query_for_exists_subquery collab)
          (@getColumnNameStartWith collab).

(** [SELECT t1.a FROM t1 WHERE EXISTS (SELECT t2.a FROM t2)] *)
Definition q_exists : Query :=
  mkQuery false false true false false [] [table 16384]
          (from [1%nat] (Some exists_t2))
          [target (column 1 1) 1 "a"]
          [] false None [] [] None None false None.

(** [SELECT t1.a FROM t1 WHERE EXISTS (SELECT t2.a FROM t2 WHERE t2.a =
    t1.a)]: the subquery refers to [t1.a] one level up. *)
Definition t1_a_from_below : Var := mkVar 1 1 INT4OID 1.

Definition q_exists_correlated : Query :=
  mkQuery false false true false false [] [table 16384]
          (from [1%nat]
             (Some (T_SubLink EXISTS_SUBLINK None
                      (Some (T_Query
                               (select false [table 16385]
                                  (from [1%nat]
                                     (Some (T_OpExpr 96
                                              [column 1 1;
                                               T_Var t1_a_from_below])))
                                  [target (column 1 1) 1 "a"] [] []))))))
          [target (column 1 1) 1 "a"]
          [] false None [] [] None None false None.

(** The lateral subquery that stands for the sublink, with the count
    as its second column. *)
Definition lateral_count_rte : RangeTblEntry :=
  mkRangeTblEntry RTE_SUBQUERY 0 RELKIND_NONE false
    (Some (select true [table 16385] (from [1%nat] None)
                  [target (column 1 1) 1 "a";
                   target (T_Aggref 2803 [] [] [] [] None true) 2
                          "__ivm_exists_count_0__"]
                  [] []))
    true.

Definition q_exists_lateral : Query :=
  mkQuery false false true false false [] [table 16384; lateral_count_rte]
          (from [1%nat; 2%nat] None)
          [target (column 1 1) 1 "a"]
          [] false None [] [] None None false None.

(** A catalog whose EXISTS rewriting returns [q_exists_lateral]. *)
Definition collab_exists : Collaborators :=
  variant (fun _ => false) (fun _ => Ok q_exists_lateral)
          (fun rte _ => if lateral rte
                        then Some ("__ivm_exists_count_0__", 2)
                        else None).

(** [CREATE INCREMENTAL MATERIALIZED VIEW mv AS SELECT t1.a FROM t1] *)
Definition into_mv : IntoClause :=
  mkIntoClause "mv" [] (Some q_plain) false true.

Definition stmt_immv : CreateTableAsStmt :=
  mkCreateTableAsStmt q_plain false into_mv false.

(** [CREATE TABLE IF NOT EXISTS mv AS SELECT t1.a FROM t1 ORDER BY ...]:
    a query that the restriction check would reject. *)
Definition stmt_if_not_exists : CreateTableAsStmt :=
  mkCreateTableAsStmt q_distinct_ordered false
    (mkIntoClause "mv" [] (Some q_distinct_ordered) false true) true.

(** [CREATE MATERIALIZED VIEW mv AS SELECT DISTINCT t1.a FROM t1 ORDER
    BY t1.a], without the IVM option. *)
Definition stmt_plain_matview : CreateTableAsStmt :=
  mkCreateTableAsStmt q_distinct_ordered false
    (mkIntoClause "mv" [] (Some q_distinct_ordered) false false) false.

(** [CREATE TABLE t (x, y) AS SELECT t1.a FROM t1 WITH NO DATA]: one
    column name too many. *)
Definition into_two_names : IntoClause :=
  mkIntoClause "t" ["x"; "y"] None true false.

(** [CREATE TABLE t (x) AS SELECT t1.a, t1.b FROM t1 WITH NO DATA] *)
Definition into_one_name : IntoClause :=
  mkIntoClause "t" ["x"] None true false.

(** A view whose name has 60 bytes, so that the name and the suffix
    [_index] do not fit into a name. *)
Definition mv_long : Relation :=
  mkRelation "monthly_revenue_per_customer_and_sales_region_immediate_view"
             ["a"; "b"] (fun _ => false).

(** A trigger that is in the catalog already. *)
Definition other_trigger : CreateTrigStmt :=
  mkCreateTrigStmt 16390 "audit" TRIGGER_TYPE_AFTER TRIGGER_TYPE_INSERT
                   "audit_fn" [] 0 false 0.

(** Rows are numbers; type 25 ([text]) is collatable; row security is
    off. *)
Definition storage : Storage := {|
  TupleTableSlot := Z;
  type_is_collatable := fun oid => oid =? 25;
  check_enable_rls := fun _ => Ok false;
  GetCurrentCommandId := 1;
  GetBulkInsertState := BulkInsertStateData;
  TABLE_INSERT_SKIP_FSM := 2
|}.

(** The tuple descriptor of [SELECT t1.a FROM t1]. *)
Definition desc_a : TupleDesc := [mkAttribute "a" INT4OID (-1) 0].

End Fixture.

(** * Theorems *)

Unset Implicit Arguments.

(** ** Basic facts about the result monad *)

Lemma bind_Ok_inv {A B} (r : result A) (k : A -> result B) (b : B) :
  bind r k = Ok b -> exists a, r = Ok a /\ k a = Ok b.
Proof.
  destruct r as [a|e]; simpl; intros H; [eauto | discriminate].
Qed.

Lemma ereport_if_Ok (c : bool) (e : diag) :
  ereport_if c e = Ok tt <-> c = false.
Proof.
  destruct c; simpl; split; congruence.
Qed.

Lemma raise_if_Ok_inv {B} (c : bool) (e : diag) (k : unit -> result B) b :
  bind (ereport_if c e) k = Ok b -> c = false /\ k tt = Ok b.
Proof.
  destruct c; simpl; intros H; [discriminate | auto].
Qed.

Ltac inv_bind H :=
  lazymatch type of H with
  | bind (ereport_if _ _) _ = Ok _ =>
      let Hc := fresh "Hc" in
      apply raise_if_Ok_inv in H; destruct H as [Hc H]
  | bind _ _ = Ok _ =>
      let x := fresh "x" in
      let Hx := fresh "Hx" in
      apply bind_Ok_inv in H; destruct H as (x & Hx & H)
  end.

Ltac inv_bind_as H x Hx :=
  lazymatch type of H with
  | bind _ _ = Ok _ => apply bind_Ok_inv in H; destruct H as (x & Hx & H)
  end.

(** ** Names and their lengths *)

Lemma substring_all (s : string) (n : nat) :
  (String.length s <= n)%nat -> substring 0 n s = s.
Proof.
  revert n. induction s as [|c s IH]; intros [|n] H; simpl in *;
    try reflexivity.
  - lia.
  - f_equal. apply IH. lia.
Qed.

Lemma length_substring (s : string) (n : nat) :
  String.length (substring 0 n s) = Nat.min n (String.length s).
Proof.
  revert n. induction s as [|c s IH]; intros [|n]; simpl; try reflexivity.
  f_equal. apply IH.
Qed.

Lemma length_append (s1 s2 : string) :
  String.length (s1 ++ s2) = (String.length s1 + String.length s2)%nat.
Proof.
  induction s1 as [|c s1 IH]; simpl; [reflexivity | now rewrite IH].
Qed.

(** Names that fit are not shortened. *)
Lemma clip_name_lengths_fit (turns n1 n2 avail : nat) :
  (n1 + n2 <= avail)%nat -> clip_name_lengths turns n1 n2 avail = (n1, n2).
Proof.
  intros H. destruct turns as [|turns]; simpl; [reflexivity|].
  destruct (Nat.ltb_spec avail (n1 + n2)); [lia | reflexivity].
Qed.

(** The loop ends with names that fit, whatever their length, and
    shortens neither below what is needed. *)
Lemma clip_name_lengths_spec (turns : nat) :
  forall n1 n2 avail,
    (n1 + n2 <= turns)%nat ->
    let r := clip_name_lengths turns n1 n2 avail in
    (fst r <= n1)%nat /\ (snd r <= n2)%nat
    /\ (fst r + snd r = Nat.min (n1 + n2) avail)%nat.
Proof.
  induction turns as [|turns IH]; intros n1 n2 avail H; simpl.
  - repeat split; lia.
  - destruct (Nat.ltb_spec avail (n1 + n2)); [|simpl; lia].
    destruct (Nat.ltb_spec n2 n1).
    + destruct (IH (Nat.pred n1) n2 avail ltac:(lia)) as (A & B & C).
      repeat split; lia.
    + destruct (IH n1 (Nat.pred n2) avail ltac:(lia)) as (A & B & C).
      repeat split; lia.
Qed.

(** A name made from parts that fit is the parts joined by
    underscores. *)
Lemma makeObjectName_fit (name1 name2 label : string) :
  (String.length name1 + String.length name2 + String.length label + 2
   <= 63)%nat ->
  makeObjectName name1 (Some name2) label
  = (name1 ++ "_" ++ name2 ++ "_" ++ label)%string.
Proof.
  intros H. unfold makeObjectName.
  rewrite clip_name_lengths_fit by (unfold NAMEDATALEN; lia).
  cbn [fst snd]. now rewrite !substring_all by lia.
Qed.

(** No name made by [makeObjectName] with a label of less than 61
    bytes is longer than a name may be. *)
Lemma length_makeObjectName (name1 : string) (name2 : option string)
  (label : string) :
  (String.length label < 61)%nat ->
  (String.length (makeObjectName name1 name2 label) < NAMEDATALEN)%nat.
Proof.
  intros H. unfold makeObjectName.
  set (n1 := String.length name1).
  set (n2 := match name2 with Some n => String.length n | None => O end).
  set (avail := (NAMEDATALEN - 1 - _)%nat).
  destruct (clip_name_lengths_spec (n1 + n2) n1 n2 avail (Nat.le_refl _))
    as (A & B & C).
  destruct (clip_name_lengths (n1 + n2) n1 n2 avail) as [c1 c2].
  cbn [fst snd] in *. subst avail.
  destruct name2 as [n|]; unfold NAMEDATALEN in *;
    rewrite !length_append, !length_substring; simpl String.length; lia.
Qed.

(** ** Structural induction on query trees

    The induction principle that the nested, mutually defined node
    types call for: lists of children carry [Forall], nullable children
    [opt_all]. *)
Section NodeInduction.

Variable P : Node -> Prop.
Variable Pt : TargetEntry -> Prop.
Variable Pc : CommonTableExpr -> Prop.
Variable Pr : RangeTblEntry -> Prop.
Variable Pq : Query -> Prop.

Hypothesis H_Var : forall v, P (T_Var v).
Hypothesis H_Const : forall ty v isnull, P (T_Const ty v isnull).
Hypothesis H_Aggref : forall fn tys args ord dis fil star,
  Forall P args -> opt_all P fil ->
  P (T_Aggref fn tys args ord dis fil star).
Hypothesis H_FuncExpr : forall fn args, Forall P args -> P (T_FuncExpr fn args).
Hypothesis H_OpExpr : forall op args, Forall P args -> P (T_OpExpr op args).
Hypothesis H_BoolExpr : forall args, Forall P args -> P (T_BoolExpr args).
Hypothesis H_SubLink : forall ty test sub,
  opt_all P test -> opt_all P sub -> P (T_SubLink ty test sub).
Hypothesis H_TargetEntry : forall tle, Pt tle -> P (T_TargetEntry tle).
Hypothesis H_RangeTblRef : forall rti, P (T_RangeTblRef rti).
Hypothesis H_JoinExpr : forall jt larg rarg quals,
  opt_all P larg -> opt_all P rarg -> opt_all P quals ->
  P (T_JoinExpr jt larg rarg quals).
Hypothesis H_FromExpr : forall fromlist quals,
  Forall P fromlist -> opt_all P quals -> P (T_FromExpr fromlist quals).
Hypothesis H_CommonTableExpr : forall cte, Pc cte -> P (T_CommonTableExpr cte).
Hypothesis H_Query : forall q, Pq q -> P (T_Query q).
Hypothesis H_tle : forall e no name ref junk,
  P e -> Pt (mkTargetEntry e no name ref junk).
Hypothesis H_cte : forall name q refcount,
  opt_all P q -> Pc (mkCommonTableExpr name q refcount).
Hypothesis H_rte : forall kind oid rk ts sq lat,
  opt_all Pq sq -> Pr (mkRangeTblEntry kind oid rk ts sq lat).
Hypothesis H_query :
  forall aggs wf sl don rec ctes rt jt tl gc gs hq dc sc lo lc rm so,
    Forall Pc ctes -> Forall Pr rt -> opt_all P jt -> Forall Pt tl ->
    opt_all P hq -> opt_all P lo -> opt_all P lc -> opt_all P so ->
    Pq (mkQuery aggs wf sl don rec ctes rt jt tl gc gs hq dc sc lo lc rm so).

Lemma Node_ind' : forall n : Node, P n
with TargetEntry_ind' : forall t : TargetEntry, Pt t
with CommonTableExpr_ind' : forall c : CommonTableExpr, Pc c
with RangeTblEntry_ind' : forall r : RangeTblEntry, Pr r
with Query_ind' : forall q : Query, Pq q.
Proof.
  - intros n. destruct n.
    + apply H_Var.
    + apply H_Const.
    + apply H_Aggref.
      * induction args; constructor; [apply Node_ind' | assumption].
      * destruct aggfilter; simpl; [apply Node_ind' | exact I].
    + apply H_FuncExpr.
      induction args; constructor; [apply Node_ind' | assumption].
    + apply H_OpExpr.
      induction args; constructor; [apply Node_ind' | assumption].
    + apply H_BoolExpr.
      induction args; constructor; [apply Node_ind' | assumption].
    + apply H_SubLink.
      * destruct testexpr; simpl; [apply Node_ind' | exact I].
      * destruct subselect; simpl; [apply Node_ind' | exact I].
    + apply H_TargetEntry, TargetEntry_ind'.
    + apply H_RangeTblRef.
    + apply H_JoinExpr.
      * destruct larg; simpl; [apply Node_ind' | exact I].
      * destruct rarg; simpl; [apply Node_ind' | exact I].
      * destruct quals; simpl; [apply Node_ind' | exact I].
    + apply H_FromExpr.
      * induction fromlist; constructor; [apply Node_ind' | assumption].
      * destruct quals; simpl; [apply Node_ind' | exact I].
    + apply H_CommonTableExpr, CommonTableExpr_ind'.
    + apply H_Query, Query_ind'.
  - intros t. destruct t. apply H_tle, Node_ind'.
  - intros c. destruct c as [name cq refcount]. apply H_cte.
    destruct cq; simpl; [apply Node_ind' | exact I].
  - intros r. destruct r as [kind oid rk ts sq lat]. apply H_rte.
    destruct sq; simpl; [apply Query_ind' | exact I].
  - intros q.
    destruct q as [aggs wf sl don rec ctes rt jt tl gc gs hq dc sc lo lc rm so].
    apply H_query.
    + induction ctes; constructor;
        [apply CommonTableExpr_ind' | assumption].
    + induction rt; constructor;
        [apply RangeTblEntry_ind' | assumption].
    + destruct jt; simpl; [apply Node_ind' | exact I].
    + induction tl; constructor;
        [apply TargetEntry_ind' | assumption].
    + destruct hq; simpl; [apply Node_ind' | exact I].
    + destruct lo; simpl; [apply Node_ind' | exact I].
    + destruct lc; simpl; [apply Node_ind' | exact I].
    + destruct so; simpl; [apply Node_ind' | exact I].
Qed.

Lemma Node_mutind :
  (forall n, P n) /\ (forall t, Pt t) /\ (forall c, Pc c)
  /\ (forall r, Pr r) /\ (forall q, Pq q).
Proof.
  repeat split;
    [apply Node_ind' | apply TargetEntry_ind' | apply CommonTableExpr_ind'
    | apply RangeTblEntry_ind' | apply Query_ind'].
Qed.

End NodeInduction.

(** ** ExecCreateTableAs and WITH NO DATA *)

Section Orchestrator.

Context {collab : Collaborators}.

(** The IVM block before the creation does not depend on [skipData]. *)
Lemma prepare_immv_ivm (query vq : Query) (into : IntoClause) :
  viewQuery into = Some vq -> ivm into = true ->
  prepare_immv query into =
    (raise_if contain_mutable_functions query with E_MutableFunction;
     do _ <- check_ivm_restriction (T_Query query);
     do rewritten <- rewriteQueryForIMMV query (colNames into);
     Ok (rewritten, Some rewritten,
         [RestrictionChecked query; QueryRewritten rewritten])).
Proof.
  intros Hv Hi. unfold prepare_immv. rewrite Hv, Hi. reflexivity.
Qed.

(** C9.  For CREATE INCREMENTAL MATERIALIZED VIEW ... WITH NO DATA on a
    relation that does not exist yet: a query that the restriction
    check rejects makes the whole command fail with the check's
    diagnostic; and when the check, the rewrite and the definition of
    the relation succeed the command succeeds, having checked the
    query, rewritten it, defined the relation from the rewritten target
    list and marked the IVM state, with no index and no trigger
    provisioned.  With data instead, a successful run provisions both,
    after marking the IVM state. *)
Theorem ExecCreateTableAs_skipData (depth : nat) (stmt : CreateTableAsStmt)
  (vq : Query) :
  let into := stmt_into stmt in
  let query := stmt_query stmt in
  get_relname_relid (into_relname into) = false ->
  stmt_is_execute stmt = false ->
  viewQuery into = Some vq ->
  ivm into = true ->
  contain_mutable_functions query = false ->
  (skipData into = true ->
   (forall e, check_ivm_restriction (T_Query query) = Error e ->
              ExecCreateTableAs depth stmt = Error e)
   /\ (forall rewritten address,
         check_ivm_restriction (T_Query query) = Ok tt ->
         rewriteQueryForIMMV query (colNames into) = Ok rewritten ->
         create_ctas_nodata (targetList rewritten) into = Ok address ->
         ExecCreateTableAs depth stmt =
           Ok (Some address,
               [RestrictionChecked query; QueryRewritten rewritten;
                RelationDefinedWithNoData (targetList rewritten) address;
                IVMStateMarked address]))
   /\ (forall address trace,
         ExecCreateTableAs depth stmt = Ok (address, trace) ->
         In (RestrictionChecked query) trace
         /\ (exists rewritten, In (QueryRewritten rewritten) trace)
         /\ (exists oid, address = Some oid /\ In (IVMStateMarked oid) trace)
         /\ forallb (fun ev => negb (provisions ev)) trace = true))
  /\ (skipData into = false ->
      forall address trace,
        ExecCreateTableAs depth stmt = Ok (address, trace) ->
        exists oid outcome triggers before,
          address = Some oid
          /\ trace = before ++ [IVMStateMarked oid; IndexProvisioned outcome;
                                TriggersProvisioned triggers]).
Proof.
  intros into query Hrel Hexe Hview Hivm Hmut.
  assert (Hhead : ExecCreateTableAs depth stmt =
            (do p <- prepare_immv query into;
             let '(q, query_immv, ev1) := p in
             do c <- create_relation q into;
             do ev3 <- finish_immv depth into query_immv (fst c);
             Ok (Some (fst c), ev1 ++ snd c ++ ev3))).
  { unfold ExecCreateTableAs, CreateTableAsRelExists.
    fold into. rewrite Hrel. simpl. rewrite Hexe. reflexivity. }
  rewrite Hhead, (prepare_immv_ivm query vq into Hview Hivm), Hmut.
  simpl ereport_if. cbv beta iota delta [bind].
  split.
  - intros Hskip. split; [|split].
    + intros e He. rewrite He. reflexivity.
    + intros rewritten address Hchk Hrw Hdef.
      rewrite Hchk, Hrw. unfold create_relation, finish_immv.
      rewrite Hskip, Hdef, Hview, Hivm. reflexivity.
    + intros address trace.
      destruct (check_ivm_restriction (T_Query query)) as [[]|e];
        [|discriminate].
      destruct (rewriteQueryForIMMV query (colNames into)) as [rw|e];
        [|discriminate].
      unfold create_relation, finish_immv. rewrite Hskip, Hview, Hivm.
      destruct (create_ctas_nodata (targetList rw) into) as [a|e];
        [|discriminate].
      simpl. intros H. injection H as <- <-.
      split; [simpl; auto|].
      split; [exists rw; simpl; auto|].
      split; [exists a; simpl; auto 6|reflexivity].
  - intros Hskip address trace.
    destruct (check_ivm_restriction (T_Query query)) as [[]|e];
      [|discriminate].
    destruct (rewriteQueryForIMMV query (colNames into)) as [rw|e];
      [|discriminate].
    unfold create_relation, finish_immv. rewrite Hskip, Hview, Hivm.
    destruct (QueryRewrite rw) as [|q1 [|q2 qs]]; try discriminate.
    destruct (ExecutorRun q1 into) as [a|e]; [|discriminate].
    simpl.
    destruct (CreateIndexOnIMMV depth vq (table_open a) true) as [o|e];
      [|discriminate].
    simpl.
    destruct (CreateIvmTriggersOnBaseTables depth rw a true []) as [tr|e];
      [|discriminate].
    simpl. intros H. injection H as <- <-.
    exists a, o, tr, [RestrictionChecked query; QueryRewritten rw;
                      QueryExecuted q1 a].
    split; reflexivity.
Qed.

End Orchestrator.

(** ** The trigger provisioner *)

Section Triggers.

Variable matviewOid : Oid.
Variable ex_lock : bool.

#[local] Abbreviation provisioned := (provisioned matviewOid ex_lock).
#[local] Abbreviation Recurse := (Recurse matviewOid ex_lock).
#[local] Abbreviation Recurse_Query := (Recurse_Query matviewOid ex_lock).
#[local] Abbreviation Recurse_CommonTableExpr := (Recurse_CommonTableExpr matviewOid ex_lock).
#[local] Abbreviation Recurse_RangeTblEntry := (Recurse_RangeTblEntry matviewOid ex_lock).
#[local] Abbreviation rt_actions := (rt_actions matviewOid ex_lock).

Lemma create_six_triggers_eq (relOid : Oid) (st : trigger_state) :
  create_six_triggers relOid matviewOid ex_lock st
  = Ok (mkTriggerState (relids st ++ [relOid])
          (catalog st ++ six_triggers matviewOid ex_lock relOid)).
Proof.
  unfold create_six_triggers, CreateIvmTrigger, six_triggers. simpl.
  repeat rewrite <- app_assoc. reflexivity.
Qed.

Lemma bms_is_member_In (x : Z) (s : list Z) :
  bms_is_member x s = true <-> In x s.
Proof.
  unfold bms_is_member. rewrite existsb_exists. split.
  - intros (y & Hy & Heq). apply Z.eqb_eq in Heq. now subst.
  - intros H. exists x. split; [assumption | apply Z.eqb_refl].
Qed.

(** *** Composition of [provisioned] stretches *)

Lemma provisioned_none (R : Oid -> Prop) (st : trigger_state) :
  (forall r, R r -> In r (relids st)) -> provisioned R st st.
Proof.
  intros HR. exists []. simpl. rewrite !app_nil_r.
  split; [reflexivity | split; [reflexivity | split; [constructor|]]].
  intros r. simpl. split; [contradiction|]. intros [Hr Hn]. auto.
Qed.

Lemma provisioned_ext (R R' : Oid -> Prop) (st st' : trigger_state) :
  (forall r, R r <-> R' r) -> provisioned R st st' -> provisioned R' st st'.
Proof.
  intros Heq (new & H1 & H2 & H3 & H4). exists new.
  split; [assumption | split; [assumption | split; [assumption|]]].
  intros r. rewrite H4, (Heq r). reflexivity.
Qed.

Lemma provisioned_seq (R1 R2 : Oid -> Prop) (st s1 st' : trigger_state) :
  provisioned R1 st s1 -> provisioned R2 s1 st' ->
  provisioned (fun r => R1 r \/ R2 r) st st'.
Proof.
  intros (n1 & A1 & A2 & A3 & A4) (n2 & B1 & B2 & B3 & B4).
  exists (n1 ++ n2). rewrite B1, B2, A1, A2, flat_map_app, <- !app_assoc.
  split; [reflexivity | split; [reflexivity | split]].
  - apply NoDup_app; try assumption.
    intros r Hr1 Hr2. apply B4 in Hr2. destruct Hr2 as [_ Hn].
    apply Hn. rewrite A1. apply in_or_app. now right.
  - intros r. rewrite in_app_iff. split.
    + intros [Hr | Hr].
      * apply A4 in Hr. tauto.
      * apply B4 in Hr. destruct Hr as [Hr Hn]. split; [now right|].
        intros Hin. apply Hn. rewrite A1. apply in_or_app. now left.
    + intros [[Hr | Hr] Hn].
      * left. apply A4. now split.
      * destruct (in_dec Z.eq_dec r n1) as [Hin | Hnin]; [now left|].
        right. apply B4. split; [assumption|].
        rewrite A1, in_app_iff. tauto.
Qed.

Lemma provisioned_opt {A} (f : A -> trigger_state -> result trigger_state)
  (R : A -> Oid -> Prop) (o : option A) (st st' : trigger_state) :
  opt_all (fun x => forall st st', f x st = Ok st' -> provisioned (R x) st st') o ->
  opt_result f o st = Ok st' ->
  provisioned (fun r => exists x, o = Some x /\ R x r) st st'.
Proof.
  destruct o as [x|]; simpl; intros HP H.
  - apply provisioned_ext with (R := R x); [|now apply HP].
    intros r. split; [eauto|]. intros (y & Hy & Hr). now injection Hy as <-.
  - injection H as <-. apply provisioned_none.
    intros r (x & Hx & _). discriminate.
Qed.

Lemma provisioned_fold {A} (f : A -> trigger_state -> result trigger_state)
  (R : A -> Oid -> Prop) (l : list A) :
  Forall (fun x => forall st st', f x st = Ok st' -> provisioned (R x) st st') l ->
  forall st st', fold_result f l st = Ok st' ->
  provisioned (fun r => exists x, In x l /\ R x r) st st'.
Proof.
  induction 1 as [|x l Hx Hl IH]; simpl; intros st st' H.
  - injection H as <-. apply provisioned_none.
    intros r (x & [] & _).
  - inv_bind H.
    apply provisioned_ext
      with (R := fun r => R x r \/ exists y, In y l /\ R y r).
    + intros r. split.
      * intros [Hr | (y & Hy & Hr)]; eauto.
      * intros (y & [<- | Hy] & Hr); eauto.
    + eapply provisioned_seq; [apply Hx | apply IH]; eassumption.
Qed.

Lemma rt_fetch_actions (rti : nat) (rtab : list RangeTblEntry) (ra : rt_action) :
  rt_fetch rti (rt_actions rtab) = Ok ra ->
  rt_fetch rti rtab = Ok (fst ra) /\ snd ra = Recurse_RangeTblEntry (fst ra).
Proof.
  unfold rt_fetch, rt_actions. destruct rti as [|i]; [discriminate|].
  rewrite nth_error_map. destruct (nth_error rtab i) as [rte|]; simpl;
    [|discriminate].
  intros H. injection H as <-. auto.
Qed.

Lemma rt_fetch_In {A} (rti : nat) (l : list A) (x : A) :
  rt_fetch rti l = Ok x -> In x l.
Proof.
  unfold rt_fetch. destruct rti as [|i]; [discriminate|].
  destruct (nth_error l i) eqn:E; [|discriminate].
  intros H. injection H as <-. eapply nth_error_In, E.
Qed.

Lemma reach_RangeTblRef_inv (rt : list RangeTblEntry) (rti : nat) (r : Oid) :
  reach_node rt (T_RangeTblRef rti) r ->
  exists rte,
    rt_fetch rti rt = Ok rte
    /\ ((rtekind rte = RTE_RELATION /\ r = relid rte)
        \/ (rtekind rte = RTE_SUBQUERY
            /\ exists sq, subquery rte = Some sq /\ reachable sq r)).
Proof.
  intros H. inversion H; subst; eauto 10.
Qed.

(** The [T_RangeTblRef] case. *)
Lemma Recurse_RangeTblRef_provisioned (rtab : list RangeTblEntry) (rti : nat) :
  Forall (fun rte => forall sq, subquery rte = Some sq ->
            forall st st', Recurse_Query sq st = Ok st' ->
                           provisioned (reachable sq) st st') rtab ->
  forall st st',
    Recurse_RangeTblRef matviewOid ex_lock (rt_actions rtab) rti st = Ok st' ->
    provisioned (reach_node rtab (T_RangeTblRef rti)) st st'.
Proof.
  intros Hrt st st' H. unfold Recurse_RangeTblRef in H. inv_bind H.
  apply rt_fetch_actions in Hx. destruct x as [rte act]. simpl in *.
  destruct Hx as [Hfetch ->].
  assert (Hother : rtekind rte <> RTE_RELATION -> rtekind rte <> RTE_SUBQUERY ->
                   st' = st -> provisioned (reach_node rtab (T_RangeTblRef rti)) st st').
  { intros H1 H2 ->. apply provisioned_none. intros r Hr.
    apply reach_RangeTblRef_inv in Hr.
    destruct Hr as (rte' & Hf & [[Hk _] | [Hk _]]);
      rewrite Hfetch in Hf; injection Hf as <-; contradiction. }
  destruct (rtekind rte) eqn:Hkind;
    try (apply Hother; [discriminate | discriminate | congruence]).
  - (* a plain relation *)
    apply provisioned_ext with (R := fun r => r = relid rte).
    { intros r. split.
      - intros ->. now apply reach_relation.
      - intros Hr. apply reach_RangeTblRef_inv in Hr.
        destruct Hr as (rte' & Hf & [[_ Hr] | [Hk _]]);
          rewrite Hfetch in Hf; injection Hf as <-; congruence. }
    apply raise_if_Ok_inv in H. destruct H as [_ H].
    destruct (bms_is_member (relid rte) (relids st)) eqn:Hmem; simpl in H.
    + injection H as <-. apply provisioned_none.
      intros r ->. now apply bms_is_member_In.
    + rewrite create_six_triggers_eq in H. injection H as <-.
      exists [relid rte]. simpl.
      split; [reflexivity | split; [reflexivity | split]].
      * constructor; [intros [] | constructor].
      * intros r. split.
        -- intros [<- | []]. split; [reflexivity|]. intros Hin.
           apply bms_is_member_In in Hin. congruence.
        -- intros [-> _]. now left.
  - (* a subquery *)
    destruct (subquery rte) as [sq|] eqn:Hsq.
    + apply provisioned_ext with (R := reachable sq).
      { intros r. split.
        - intros Hr.
          eapply reach_subquery; [exact Hfetch | exact Hkind | exact Hsq | exact Hr].
        - intros Hr. apply reach_RangeTblRef_inv in Hr.
          destruct Hr as (rte' & Hf & [[Hk _] | [_ (sq' & Hs & Hr)]]);
            rewrite Hfetch in Hf; injection Hf as <-; congruence. }
      rewrite Forall_forall in Hrt.
      apply (Hrt _ (rt_fetch_In _ _ _ Hfetch) sq Hsq).
      destruct rte as [kind oid rk ts sq0 lat]. simpl in Hsq. subst sq0.
      exact H.
    + assert (st' = st) as ->.
      { destruct rte as [kind oid rk ts sq0 lat]. simpl in Hsq. subst sq0.
        simpl in H. congruence. }
      apply provisioned_none. intros r Hr. apply reach_RangeTblRef_inv in Hr.
      destruct Hr as (rte' & Hf & [[Hk _] | [_ (sq' & Hs & Hr)]]);
        rewrite Hfetch in Hf; injection Hf as <-; congruence.
Qed.

#[local] Abbreviation Query_provisioned :=
  (Query_provisioned matviewOid ex_lock).
#[local] Abbreviation RangeTblEntry_provisioned :=
  (RangeTblEntry_provisioned matviewOid ex_lock).
#[local] Abbreviation CommonTableExpr_provisioned :=
  (CommonTableExpr_provisioned matviewOid ex_lock).
#[local] Abbreviation Node_provisioned :=
  (Node_provisioned matviewOid ex_lock).

Lemma reach_FromExpr_iff rt fromlist quals r :
  reach_node rt (T_FromExpr fromlist quals) r
  <-> exists n, In n fromlist /\ reach_node rt n r.
Proof.
  split.
  - intros H. inversion H; subst; eauto.
  - intros (n & Hn & Hr). eapply reach_fromlist; eauto.
Qed.

Lemma reach_JoinExpr_iff rt jointype larg rarg quals r :
  reach_node rt (T_JoinExpr jointype larg rarg quals) r
  <-> (exists n, larg = Some n /\ reach_node rt n r)
      \/ (exists n, rarg = Some n /\ reach_node rt n r).
Proof.
  split.
  - intros H. inversion H; subst; eauto.
  - intros [(n & -> & Hr) | (n & -> & Hr)];
      [now apply reach_larg | now apply reach_rarg].
Qed.

Lemma reach_Query_iff rt q r :
  reach_node rt (T_Query q) r
  <-> (exists jt, jointree q = Some jt /\ reach_node rt jt r)
      \/ (exists cte, In cte (cteList q)
                      /\ exists cq, ctequery cte = Some (T_Query cq)
                                    /\ reachable cq r).
Proof.
  split.
  - intros H. inversion H; subst; eauto 8.
  - intros [(jt & Hjt & Hr) | (cte & Hin & cq & Hcq & Hr)].
    + eapply reach_query_jointree; eauto.
    + eapply reach_query_cte; eauto.
Qed.

Lemma reachable_iff q r :
  reachable q r
  <-> (exists jt, jointree q = Some jt /\ reach_node (rtable q) jt r)
      \/ (exists cte, In cte (cteList q)
                      /\ exists cq, ctequery cte = Some (T_Query cq)
                                    /\ reachable cq r).
Proof.
  split.
  - intros H. inversion H; subst; eauto 8.
  - intros [(jt & Hjt & Hr) | (cte & Hin & cq & Hcq & Hr)].
    + eapply reachable_jointree; eauto.
    + eapply reachable_cte; eauto.
Qed.

(** A node that is no join-tree node is not recognized. *)
Lemma Node_provisioned_unrecognized (node : Node) :
  (forall rt st, Recurse rt node st = Error E_UnrecognizedNodeType) ->
  (forall q, node <> T_Query q) ->
  Node_provisioned node.
Proof.
  intros Herr Hq. split.
  - intros rtab _ st st' H. rewrite Herr in H. discriminate.
  - intros q ->. now elim (Hq q).
Qed.

(** The jointree-then-CTEs walk shared by the [T_Query] case and
    [Recurse_Query]. *)
Lemma Recurse_jointree_ctes rtab jt ctes R st st' :
  opt_all Node_provisioned jt ->
  Forall CommonTableExpr_provisioned ctes ->
  Forall RangeTblEntry_provisioned rtab ->
  (forall r, R r <->
     (exists n, jt = Some n /\ reach_node rtab n r)
     \/ (exists cte, In cte ctes
                     /\ exists cq, ctequery cte = Some (T_Query cq)
                                   /\ reachable cq r)) ->
  (do st1 <- opt_result (Recurse (rt_actions rtab)) jt st;
   fold_result Recurse_CommonTableExpr ctes st1) = Ok st' ->
  provisioned R st st'.
Proof.
  intros Hjt Hctes Hrt HR H. inv_bind H.
  eapply provisioned_ext; [intros r; symmetry; apply HR|].
  eapply provisioned_seq.
  - eapply (provisioned_opt (Recurse (rt_actions rtab)) (reach_node rtab));
      [|exact Hx].
    destruct jt as [n|]; simpl in *; [|exact I].
    intros s s'. now apply Hjt.
  - eapply (provisioned_fold Recurse_CommonTableExpr
              (fun cte r => exists cq, ctequery cte = Some (T_Query cq)
                                       /\ reachable cq r));
      [exact Hctes | exact H].
Qed.

Lemma Recurse_Query_provisioned (q : Query) : Query_provisioned q.
Proof.
  enough (HQ : forall q,
             Query_provisioned q
             /\ Forall CommonTableExpr_provisioned (cteList q)
             /\ opt_all Node_provisioned (jointree q))
    by apply HQ.
  clear q.
  apply Query_ind'
      with (P := Node_provisioned) (Pt := fun _ => True)
           (Pc := CommonTableExpr_provisioned)
           (Pr := RangeTblEntry_provisioned);
      try (intros; apply Node_provisioned_unrecognized;
           [reflexivity | discriminate]).
    - (* T_RangeTblRef *)
      intros rti. split; [|discriminate].
      intros rtab Hrt st st'. now apply Recurse_RangeTblRef_provisioned.
    - (* T_JoinExpr *)
      intros jt larg rarg quals Hl Hr _. split; [|discriminate].
      intros rtab Hrt st st' H. simpl in H. inv_bind H.
      eapply provisioned_ext;
        [intros r; symmetry; apply reach_JoinExpr_iff|].
      eapply provisioned_seq.
      + eapply (provisioned_opt (Recurse (rt_actions rtab)) (reach_node rtab));
          [|exact Hx].
        destruct larg; simpl in *; [|exact I]. intros s s'. now apply Hl.
      + eapply (provisioned_opt (Recurse (rt_actions rtab)) (reach_node rtab));
          [|exact H].
        destruct rarg; simpl in *; [|exact I]. intros s s'. now apply Hr.
    - (* T_FromExpr *)
      intros fromlist quals Hl _. split; [|discriminate].
      intros rtab Hrt st st' H. simpl in H.
      eapply provisioned_ext;
        [intros r; symmetry; apply reach_FromExpr_iff|].
      eapply (provisioned_fold (Recurse (rt_actions rtab)) (reach_node rtab));
        [|exact H].
      eapply Forall_impl; [|exact Hl].
      intros n Hn s s'. now apply Hn.
    - (* T_Query as a node *)
      intros q (Hq & Hctes & Hjt). split.
      + intros rtab Hrt st st' H.
        destruct q as [aggs wf sl don rec ctes rt jt tl gc gs hq dc sc lo lc rm so].
        simpl in *.
        eapply Recurse_jointree_ctes; eauto.
        intros r. rewrite reach_Query_iff. simpl. reflexivity.
      + intros q' Heq. injection Heq as <-. exact Hq.
    - (* TargetEntry *) trivial.
    - (* CommonTableExpr *)
      intros name q refcount Hq st st' H.
      destruct q as [n|]; simpl in *.
      + destruct n; try discriminate.
        apply provisioned_ext with (R := reachable q).
        * intros r. split; [eauto|]. intros (cq & Hcq & Hr). congruence.
        * now apply (proj2 Hq q).
      + injection H as <-. apply provisioned_none.
        intros r (cq & Hcq & _). discriminate.
    - (* RangeTblEntry *)
      intros kind oid rk ts sq lat Hsq sq' Heq. simpl in Heq. subst sq.
      simpl in Hsq. apply Hsq.
    - (* Query *)
      intros aggs wf sl don rec ctes rt jt tl gc gs hq dc sc lo lc rm so
             Hctes Hrt Hjt _ _ _ _ _.
      split; [|split; assumption].
      intros st st' H. simpl in H.
      eapply Recurse_jointree_ctes; eauto.
      intros r. rewrite reachable_iff. simpl. reflexivity.
Qed.

(** *** The walk with a stack and the structural walk *)

#[local] Abbreviation CIR depth qry node :=
  (CreateIvmTriggersOnBaseTablesRecurse depth qry node matviewOid ex_lock).

Lemma Recurse_T_Query (q : Query) (st : trigger_state) :
  Recurse (rt_actions (rtable q)) (T_Query q) st = Recurse_Query q st.
Proof. destruct q. reflexivity. Qed.

Lemma rt_fetch_rt_actions (rti : nat) (rtab : list RangeTblEntry)
  (rte : RangeTblEntry) :
  rt_fetch rti rtab = Ok rte ->
  rt_fetch rti (rt_actions rtab) = Ok (rte, Recurse_RangeTblEntry rte).
Proof.
  unfold rt_fetch. destruct rti as [|i]; [discriminate|].
  change (rt_actions rtab)
    with (map (fun rte => (rte, Recurse_RangeTblEntry rte)) rtab).
  rewrite nth_error_map.
  destruct (nth_error rtab i); simpl; intros H;
    [injection H as <-; reflexivity | discriminate].
Qed.

Lemma fold_result_Ok_ext {A S} (f g : A -> S -> result S) (l : list A) :
  (forall x s s', In x l -> f x s = Ok s' -> g x s = Ok s') ->
  forall s s', fold_result f l s = Ok s' -> fold_result g l s = Ok s'.
Proof.
  induction l as [|x l IH]; simpl; intros Hfg s s' H; [exact H|].
  inv_bind_as H s1 H1.
  rewrite (Hfg x s s1 (or_introl eq_refl) H1). simpl.
  apply IH; [|exact H]. intros y t t' Hy. apply Hfg. now right.
Qed.

(** Whatever the walk with a stack returns, the structural walk
    returns. *)
Theorem Recurse_of_depth (depth : nat) :
  forall qry node st st',
    CIR depth qry node st = Ok st' ->
    opt_result (Recurse (rt_actions (rtable qry))) node st = Ok st'.
Proof.
  induction depth as [|depth IH]; intros qry [node|] st st' H;
    simpl in H; try exact H; try discriminate.
  assert (IHq : forall q s s',
             CIR depth q (Some (T_Query q)) s = Ok s' ->
             Recurse_Query q s = Ok s').
  { intros q s s' Hq. apply IH in Hq.
    change (Recurse (rt_actions (rtable q)) (T_Query q) s = Ok s') in Hq.
    now rewrite Recurse_T_Query in Hq. }
  destruct node; try discriminate.
  - (* T_RangeTblRef *)
    simpl. unfold Recurse_RangeTblRef. inv_bind_as H rte Hrte.
    rewrite (rt_fetch_rt_actions _ _ _ Hrte). simpl.
    destruct (rtekind rte); try exact H.
    destruct rte as [kind oid rk ts [sq|] lat]; simpl in *;
      [now apply IHq | exact H].
  - (* T_JoinExpr *)
    simpl. inv_bind_as H st1 H1. apply IH in H1, H. rewrite H1. exact H.
  - (* T_FromExpr *)
    simpl. eapply fold_result_Ok_ext; [|exact H].
    intros n s s' _ Hn. apply IH in Hn. exact Hn.
  - (* T_Query *)
    inv_bind_as H st1 H1. apply IH in H1.
    destruct q as [aggs wf sl don rec ctes rt jt tl gc gs hq dc sc lo lc rm so].
    simpl in *. rewrite H1. simpl.
    eapply fold_result_Ok_ext; [|exact H].
    intros [name cq refcount] s s' _ Hc. simpl in *.
    destruct cq as [n|]; [|exact Hc].
    destruct n; try discriminate. now apply IHq.
Qed.

#[local] Abbreviation Query_returns := (Query_returns matviewOid ex_lock).
#[local] Abbreviation RangeTblEntry_returns :=
  (RangeTblEntry_returns matviewOid ex_lock).
#[local] Abbreviation CommonTableExpr_returns :=
  (CommonTableExpr_returns matviewOid ex_lock).
#[local] Abbreviation Node_returns := (Node_returns matviewOid ex_lock).
#[local] Abbreviation recurse_cte := (recurse_cte matviewOid ex_lock).

Lemma returns_fold {A S} (f : A -> S -> result S)
  (g : nat -> A -> S -> result S) (l : list A) :
  Forall (fun x => forall st st', f x st = Ok st' ->
            exists d, returns_from (fun depth => g depth x) d st st') l ->
  forall st st', fold_result f l st = Ok st' ->
    exists d, returns_from (fun depth => fold_result (g depth) l) d st st'.
Proof.
  induction 1 as [|x l Hx Hl IH]; simpl; intros st st' H.
  - exists 0%nat. intros depth _. exact H.
  - inv_bind_as H s1 H1.
    destruct (Hx _ _ H1) as (d1 & Hd1). destruct (IH _ _ H) as (d2 & Hd2).
    exists (Nat.max d1 d2). intros depth Hd.
    rewrite (Hd1 depth) by lia. simpl. apply Hd2. lia.
Qed.

Lemma CIR_None (depth : nat) (qry : Query) (st : trigger_state) :
  CIR depth qry None st = Ok st.
Proof. destruct depth; reflexivity. Qed.

Lemma returns_opt (qry : Query) (o : option Node) (st st' : trigger_state) :
  opt_all Node_returns o ->
  Forall RangeTblEntry_returns (rtable qry) ->
  opt_result (Recurse (rt_actions (rtable qry))) o st = Ok st' ->
  exists d, returns_from (fun depth => CIR depth qry o) d st st'.
Proof.
  destruct o as [n|]; simpl; intros Ho Hrt H.
  - now apply (proj1 Ho qry Hrt).
  - exists 0%nat. intros depth _. rewrite CIR_None. exact H.
Qed.

(** The join tree, then the CTEs: the body of the [T_Query] case. *)
Lemma returns_query_body (qry : Query) (jt : option Node)
  (ctes : list CommonTableExpr) (st st' : trigger_state) :
  opt_all Node_returns jt ->
  Forall CommonTableExpr_returns ctes ->
  Forall RangeTblEntry_returns (rtable qry) ->
  (do st1 <- opt_result (Recurse (rt_actions (rtable qry))) jt st;
   fold_result Recurse_CommonTableExpr ctes st1) = Ok st' ->
  exists d,
    returns_from (fun depth s =>
                    do st1 <- CIR depth qry jt s;
                    fold_result (recurse_cte depth) ctes st1) d st st'.
Proof.
  intros Hjt Hctes Hrt H. inv_bind_as H st1 H1.
  destruct (returns_opt qry jt _ _ Hjt Hrt H1) as (d1 & Hd1).
  destruct (returns_fold Recurse_CommonTableExpr recurse_cte ctes Hctes _ _ H)
    as (d2 & Hd2).
  exists (Nat.max d1 d2). intros depth Hd.
  rewrite (Hd1 depth) by lia. simpl. apply Hd2. lia.
Qed.

(** One more unit of stack for the call on the node itself. *)
Lemma returns_S (f : nat -> trigger_state -> result trigger_state)
  (g : nat -> trigger_state -> result trigger_state) (d : nat)
  (st st' : trigger_state) :
  (forall depth s, g (S depth) s = f depth s) ->
  returns_from f d st st' -> returns_from g (S d) st st'.
Proof.
  intros Hg Hf [|depth] Hd; [lia|]. rewrite Hg. apply Hf. lia.
Qed.

Lemma Node_returns_unrecognized (node : Node) :
  (forall rt st, Recurse rt node st = Error E_UnrecognizedNodeType) ->
  (forall q, node <> T_Query q) ->
  Node_returns node.
Proof.
  intros Herr Hq. split.
  - intros qry _ st st' H. rewrite Herr in H. discriminate.
  - intros q ->. now elim (Hq q).
Qed.

Lemma Recurse_Query_returns (q : Query) : Query_returns q.
Proof.
  enough (HQ : forall q,
             Query_returns q
             /\ Forall CommonTableExpr_returns (cteList q)
             /\ opt_all Node_returns (jointree q))
    by apply HQ.
  clear q.
  apply Query_ind'
    with (P := Node_returns) (Pt := fun _ => True)
         (Pc := CommonTableExpr_returns)
         (Pr := RangeTblEntry_returns);
    try (intros; apply Node_returns_unrecognized;
         [reflexivity | discriminate]).
  - (* T_RangeTblRef *)
    intros rti. split; [|discriminate].
    intros qry Hrt st st' H. simpl in H. unfold Recurse_RangeTblRef in H.
    inv_bind_as H ra Hra. apply rt_fetch_actions in Hra.
    destruct ra as [rte act]. simpl in *. destruct Hra as [Hfetch ->].
    assert (Hflat : forall r,
               (match rtekind rte with
                | RTE_RELATION =>
                    raise_if (Oid_as_int (relid rte) <? 0)
                    with E_negative_member;
                    if negb (bms_is_member (relid rte) (relids st)) then
                      create_six_triggers (relid rte) matviewOid ex_lock st
                    else Ok st
                | RTE_SUBQUERY => r
                | _ => Ok st
                end) = Ok st' ->
               rtekind rte <> RTE_SUBQUERY ->
               exists d,
                 returns_from (fun depth => CIR depth qry (Some (T_RangeTblRef rti)))
                              d st st').
    { intros r Hr Hk. exists 1%nat. intros [|depth] Hd; [lia|].
      simpl. rewrite Hfetch. simpl.
      destruct (rtekind rte); try exact Hr. contradiction. }
    destruct (rtekind rte) eqn:Hkind;
      try (apply (Hflat (Ok st)); [exact H | discriminate]).
    destruct (subquery rte) as [sq|] eqn:Hsq.
    + rewrite Forall_forall in Hrt.
      assert (Hq : Recurse_Query sq st = Ok st').
      { destruct rte as [k o rk ts sq0 lat]. simpl in Hsq. subst sq0.
        exact H. }
      destruct (Hrt _ (rt_fetch_In _ _ _ Hfetch) sq Hsq _ _ Hq) as (d & Hd).
      exists (S d). intros [|depth] Hle; [lia|].
      simpl. rewrite Hfetch. simpl. rewrite Hkind, Hsq. apply Hd. lia.
    + assert (st' = st) as ->.
      { destruct rte as [k o rk ts sq0 lat]. simpl in Hsq. subst sq0.
        simpl in H. congruence. }
      exists 1%nat. intros [|depth] Hle; [lia|].
      simpl. rewrite Hfetch. simpl. rewrite Hkind, Hsq. reflexivity.
  - (* T_JoinExpr *)
    intros jt larg rarg quals Hl Hr _. split; [|discriminate].
    intros qry Hrt st st' H. simpl in H. inv_bind_as H st1 H1.
    destruct (returns_opt qry larg _ _ Hl Hrt H1) as (d1 & Hd1).
    destruct (returns_opt qry rarg _ _ Hr Hrt H) as (d2 & Hd2).
    exists (S (Nat.max d1 d2)). intros [|depth] Hle; [lia|].
    simpl. rewrite (Hd1 depth) by lia. simpl. apply Hd2. lia.
  - (* T_FromExpr *)
    intros fromlist quals Hl _. split; [|discriminate].
    intros qry Hrt st st' H. simpl in H.
    destruct (returns_fold (Recurse (rt_actions (rtable qry)))
                (fun depth n => CIR depth qry (Some n)) fromlist) with
      (st := st) (st' := st') as (d & Hd).
    + eapply Forall_impl; [|exact Hl]. intros n Hn s s'.
      now apply (proj1 Hn qry Hrt).
    + exact H.
    + exists (S d). intros [|depth] Hle; [lia|]. simpl. apply Hd. lia.
  - (* T_Query as a node *)
    intros q (Hq & Hctes & Hjt). split.
    + intros qry Hrt st st' H.
      destruct q as [aggs wf sl don rec ctes rt jt tl gc gs hq dc sc lo lc rm so].
      simpl in *.
      destruct (returns_query_body qry jt ctes _ _ Hjt Hctes Hrt H) as (d & Hd).
      exists (S d). intros [|depth] Hle; [lia|]. simpl. apply Hd. lia.
    + intros q' Heq. injection Heq as <-. exact Hq.
  - (* TargetEntry *) trivial.
  - (* CommonTableExpr *)
    intros name q refcount Hq st st' H.
    destruct q as [n|]; simpl in *.
    + destruct n; try discriminate.
      destruct (proj2 Hq q eq_refl _ _ H) as (d & Hd).
      exists d. exact Hd.
    + exists 0%nat. intros depth _. exact H.
  - (* RangeTblEntry *)
    intros kind oid rk ts sq lat Hsq sq' Heq. simpl in Heq. subst sq.
    simpl in Hsq. apply Hsq.
  - (* Query *)
    intros aggs wf sl don rec ctes rt jt tl gc gs hq dc sc lo lc rm so
           Hctes Hrt Hjt _ _ _ _ _.
    split; [|split; assumption].
    intros st st' H. simpl in H.
    destruct (returns_query_body
                (mkQuery aggs wf sl don rec ctes rt jt tl gc gs hq dc sc lo lc
                         rm so) jt ctes _ _ Hjt Hctes Hrt H) as (d & Hd).
    exists (S d). intros [|depth] Hle; [lia|]. simpl. apply Hd. lia.
Qed.

(** With enough stack, the walk with a stack returns what the
    structural walk returns. *)
Theorem depth_of_Recurse (q : Query) (st st' : trigger_state) :
  Recurse_Query q st = Ok st' ->
  exists d, forall depth, (d <= depth)%nat ->
    CIR depth q (Some (T_Query q)) st = Ok st'.
Proof. apply Recurse_Query_returns. Qed.

End Triggers.

(** *** The lock mode and the six triggers *)

Lemma six_triggers_relOid (oid : Oid) (ex : bool) (r : Oid) (t : CreateTrigStmt) :
  In t (six_triggers oid ex r) ->
  trig_relOid t = r /\ arg_ex_lock t = ex /\ arg_viewOid t = oid.
Proof.
  unfold six_triggers. simpl.
  intros H. repeat (destruct H as [<- | H]; [auto|]). contradiction.
Qed.

Lemma triggers_on_six_same (oid : Oid) (ex : bool) (r : Oid) :
  triggers_on r (six_triggers oid ex r) = six_triggers oid ex r.
Proof.
  unfold triggers_on, six_triggers. simpl. rewrite Z.eqb_refl. reflexivity.
Qed.

Lemma triggers_on_six_other (oid : Oid) (ex : bool) (r x : Oid) :
  x <> r -> triggers_on r (six_triggers oid ex x) = [].
Proof.
  intros Hne. unfold triggers_on, six_triggers. simpl.
  destruct (Z.eqb_spec x r) as [->|_]; [contradiction | reflexivity].
Qed.

Lemma triggers_on_flat_map_notin (oid : Oid) (ex : bool) (r : Oid) (new : list Oid) :
  ~ In r new ->
  triggers_on r (flat_map (six_triggers oid ex) new) = [].
Proof.
  induction new as [|x new IH]; cbn [flat_map In]; intros Hn; [reflexivity|].
  unfold triggers_on in *. rewrite filter_app.
  fold (triggers_on r (six_triggers oid ex x)).
  rewrite triggers_on_six_other by (intros ->; apply Hn; now left).
  apply IH. intros Hin. apply Hn. now right.
Qed.

Lemma triggers_on_flat_map (oid : Oid) (ex : bool) (r : Oid) (new : list Oid) :
  NoDup new -> In r new ->
  triggers_on r (flat_map (six_triggers oid ex) new) = six_triggers oid ex r.
Proof.
  induction 1 as [|x new Hx Hnd IH]; cbn [flat_map In]; [contradiction|].
  unfold triggers_on in *. rewrite filter_app.
  fold (triggers_on r (six_triggers oid ex x)).
  fold (triggers_on r (flat_map (six_triggers oid ex) new)).
  intros [-> | Hin].
  - rewrite triggers_on_six_same, triggers_on_flat_map_notin by assumption.
    apply app_nil_r.
  - rewrite triggers_on_six_other by (intros ->; contradiction).
    now apply IH.
Qed.

(** A successful call of the provisioner is a successful structural
    walk. *)
Lemma CreateIvmTriggersOnBaseTables_structural (depth : nat) (qry : Query)
  (oid : Oid) (is_create ex : bool) (cat : list CreateTrigStmt) :
  choose_ex_lock qry is_create = Some ex ->
  CreateIvmTriggersOnBaseTables depth qry oid is_create [] = Ok cat ->
  exists st,
    Recurse_Query oid ex qry (mkTriggerState [] []) = Ok st
    /\ catalog st = cat.
Proof.
  unfold CreateIvmTriggersOnBaseTables. intros -> H. inv_bind_as H st Hst.
  injection H as <-. exists st. split; [|reflexivity].
  apply Recurse_of_depth in Hst.
  change (Recurse oid ex (rt_actions oid ex (rtable qry)) (T_Query qry)
            (mkTriggerState [] []) = Ok st) in Hst.
  now rewrite Recurse_T_Query in Hst.
Qed.

(** What a successful call of the provisioner on a fresh catalog
    leaves: the triggers of the relations it reached, six each. *)
Lemma CreateIvmTriggersOnBaseTables_catalog (depth : nat) (qry : Query)
  (oid : Oid) (is_create ex : bool) (cat : list CreateTrigStmt) :
  choose_ex_lock qry is_create = Some ex ->
  CreateIvmTriggersOnBaseTables depth qry oid is_create [] = Ok cat ->
  exists new,
    cat = flat_map (six_triggers oid ex) new /\ NoDup new
    /\ forall r, In r new <-> reachable qry r.
Proof.
  intros Hch H.
  destruct (CreateIvmTriggersOnBaseTables_structural _ _ _ _ _ _ Hch H)
    as (x & Hx & <-).
  destruct (Recurse_Query_provisioned oid ex qry _ _ Hx)
    as (new & H1 & H2 & H3 & H4).
  simpl in *. exists new. split; [assumption | split; [assumption|]].
  intros r. rewrite H4. tauto.
Qed.

Lemma choose_ex_lock_defined (qry : Query) (is_create : bool) :
  (first_rtindex is_create <= List.length (rtable qry))%nat ->
  exists rte,
    nth_error (rtable qry) (first_rtindex is_create - 1) = Some rte
    /\ choose_ex_lock qry is_create =
         Some (Nat.ltb (first_rtindex is_create) (List.length (rtable qry))
               || (match rtekind rte with RTE_RELATION => false | _ => true end)).
Proof.
  intros Hlen. unfold choose_ex_lock.
  destruct (Nat.ltb_spec (List.length (rtable qry)) (first_rtindex is_create));
    [lia|].
  destruct (nth_error (rtable qry) (first_rtindex is_create - 1)) as [rte|] eqn:E.
  - exists rte. auto.
  - apply nth_error_None in E.
    assert (0 < first_rtindex is_create)%nat by (destruct is_create; simpl; lia).
    lia.
Qed.

(** C4.  When the range table reaches the starting index (1 at
    creation, past the OLD and NEW entries otherwise),
    [CreateIvmTriggersOnBaseTables] is the walk of
    [CreateIvmTriggersOnBaseTablesRecurse] over the query with one lock
    mode [ex_lock], started with no relation visited.  The mode is
    non-exclusive exactly when the range table has a single entry from
    the starting index on and that entry is a plain relation; with
    more entries, or with another kind of first entry, it is
    exclusive.  When the call succeeds on a fresh catalog, every
    reachable base relation has its six triggers, each with this mode
    as its argument, and no trigger in the catalog has another mode. *)
Theorem lock_mode_decision (qry : Query) (oid : Oid) (is_create : bool) :
  (first_rtindex is_create <= List.length (rtable qry))%nat ->
  exists rte ex_lock,
    nth_error (rtable qry) (first_rtindex is_create - 1) = Some rte
    /\ (ex_lock = false <->
          List.length (rtable qry) = first_rtindex is_create
          /\ rtekind rte = RTE_RELATION)
    /\ ((first_rtindex is_create < List.length (rtable qry))%nat
        \/ rtekind rte <> RTE_RELATION -> ex_lock = true)
    /\ (forall depth cat0,
          CreateIvmTriggersOnBaseTables depth qry oid is_create cat0
          = (do st <- CreateIvmTriggersOnBaseTablesRecurse depth qry
                        (Some (T_Query qry)) oid ex_lock
                        (mkTriggerState [] cat0);
             Ok (catalog st)))
    /\ (forall depth cat,
          CreateIvmTriggersOnBaseTables depth qry oid is_create [] = Ok cat ->
          (forall r, reachable qry r ->
             triggers_on r cat = six_triggers oid ex_lock r
             /\ List.length (triggers_on r cat) = 6%nat
             /\ forall t, In t (triggers_on r cat) ->
                          arg_ex_lock t = ex_lock)
          /\ (forall t, In t cat -> arg_ex_lock t = ex_lock)).
Proof.
  intros Hlen.
  destruct (choose_ex_lock_defined qry is_create Hlen) as (rte & Hnth & Hch).
  exists rte,
    (Nat.ltb (first_rtindex is_create) (List.length (rtable qry))
     || (match rtekind rte with RTE_RELATION => false | _ => true end)).
  split; [exact Hnth|].
  split; [|split; [|split]].
  - rewrite orb_false_iff, Nat.ltb_ge. split.
    + intros [H1 H2]. split; [lia|].
      destruct (rtekind rte); congruence.
    + intros [H1 H2]. rewrite H2. split; [lia | reflexivity].
  - intros [H | H].
    + apply Nat.ltb_lt in H. rewrite H. reflexivity.
    + destruct (rtekind rte); try contradiction; apply orb_true_r.
  - intros depth cat0. unfold CreateIvmTriggersOnBaseTables.
    rewrite Hch. reflexivity.
  - intros depth cat Hcat.
    destruct (CreateIvmTriggersOnBaseTables_catalog _ _ _ _ _ _ Hch Hcat)
      as (new & -> & Hnd & Hnew).
    split.
    + intros r Hr. apply Hnew in Hr.
      rewrite triggers_on_flat_map by assumption.
      split; [reflexivity | split; [reflexivity|]].
      intros t Ht. now apply six_triggers_relOid in Ht.
    + intros t Ht. apply in_flat_map in Ht. destruct Ht as (r & _ & Ht).
      now apply six_triggers_relOid in Ht.
Qed.

(** C5, as amended.  When the range table reaches the starting index
    and the call succeeds on a fresh catalog, every base relation
    reachable from the join tree, the subquery entries and the CTE
    bodies has exactly the six triggers of [six_triggers] (BEFORE and
    AFTER, each for INSERT, DELETE and UPDATE), however often it is
    reached; no other relation has any; the call returns the same
    catalog for every stack that is large enough; a BEFORE trigger calls
    [IVM_immediate_before] without transition tables, an AFTER trigger
    calls [IVM_immediate_maintenance] with [__ivm_newtable] for INSERT
    and UPDATE and [__ivm_oldtable] for DELETE and UPDATE. *)
Theorem six_triggers_per_relation (depth : nat) (qry : Query) (oid : Oid)
  (is_create : bool) (cat : list CreateTrigStmt) :
  (first_rtindex is_create <= List.length (rtable qry))%nat ->
  CreateIvmTriggersOnBaseTables depth qry oid is_create [] = Ok cat ->
  exists ex_lock,
    choose_ex_lock qry is_create = Some ex_lock
    /\ (exists d, forall depth', (d <= depth')%nat ->
          CreateIvmTriggersOnBaseTables depth' qry oid is_create [] = Ok cat)
    /\ (forall r, reachable qry r ->
          triggers_on r cat = six_triggers oid ex_lock r
          /\ map (fun t => (timing t, events t)) (triggers_on r cat) =
               [(TRIGGER_TYPE_BEFORE, TRIGGER_TYPE_INSERT);
                (TRIGGER_TYPE_BEFORE, TRIGGER_TYPE_DELETE);
                (TRIGGER_TYPE_BEFORE, TRIGGER_TYPE_UPDATE);
                (TRIGGER_TYPE_AFTER, TRIGGER_TYPE_INSERT);
                (TRIGGER_TYPE_AFTER, TRIGGER_TYPE_DELETE);
                (TRIGGER_TYPE_AFTER, TRIGGER_TYPE_UPDATE)])
    /\ (forall t, In t cat ->
          reachable qry (trig_relOid t)
          /\ (timing t = TRIGGER_TYPE_BEFORE ->
                funcname t = "IVM_immediate_before" /\ transitionRels t = [])
          /\ (timing t = TRIGGER_TYPE_AFTER ->
                funcname t = "IVM_immediate_maintenance"
                /\ transitionRels t =
                     (if (events t =? TRIGGER_TYPE_INSERT)
                         || (events t =? TRIGGER_TYPE_UPDATE)
                      then [mkTriggerTransition "__ivm_newtable" true true]
                      else [])
                     ++ (if (events t =? TRIGGER_TYPE_DELETE)
                            || (events t =? TRIGGER_TYPE_UPDATE)
                         then [mkTriggerTransition "__ivm_oldtable" false true]
                         else []))).
Proof.
  intros Hlen Hcat.
  destruct (choose_ex_lock_defined qry is_create Hlen) as (rte & Hnth & Hch).
  eexists. split; [exact Hch|].
  split.
  { destruct (CreateIvmTriggersOnBaseTables_structural _ _ _ _ _ _ Hch Hcat)
      as (st & Hst & <-).
    destruct (depth_of_Recurse _ _ _ _ _ Hst) as (d & Hd).
    exists d. intros depth' Hle. unfold CreateIvmTriggersOnBaseTables.
    now rewrite Hch, (Hd depth' Hle). }
  destruct (CreateIvmTriggersOnBaseTables_catalog _ _ _ _ _ _ Hch Hcat)
    as (new & -> & Hnd & Hnew).
  split.
  - intros r Hr. apply Hnew in Hr.
    rewrite triggers_on_flat_map by assumption.
    split; reflexivity.
  - intros t Ht. apply in_flat_map in Ht. destruct Ht as (r & Hr & Ht).
    split.
    + apply six_triggers_relOid in Ht as (-> & _). now apply Hnew.
    + unfold six_triggers in Ht. simpl in Ht.
      repeat (destruct Ht as [<- | Ht];
              [simpl; split; intros; try discriminate; split; reflexivity|]).
      contradiction.
Qed.

(** C5 as stated fails: a relation reachable through the CTE list of a
    query without range table gets no trigger, because the call returns
    before walking the tree. *)
Lemma six_triggers_per_relation_counterexample :
  check_ivm_restriction (collab := Sample.collab) (T_Query Sample.q_cte_only)
    = Ok tt
  /\ reachable Sample.q_cte_only 16384
  /\ forall depth,
       CreateIvmTriggersOnBaseTables depth Sample.q_cte_only 20000 true []
       = Ok [].
Proof.
  split; [reflexivity | split; [|reflexivity]].
  eapply reachable_cte; [left; reflexivity | reflexivity |].
  eapply reachable_jointree; [reflexivity|].
  eapply reach_fromlist; [left; reflexivity|].
  change 16384 with (relid (Sample.table 16384)).
  apply reach_relation; reflexivity.
Qed.

(** ** The query rewriter *)

Section Rewriter.

Context {collab : Collaborators}.

Lemma same_column_refl (t : TargetEntry) : same_column t t.
Proof. repeat split. Qed.

Lemma same_column_set_ref (t : TargetEntry) (ref : nat) :
  same_column t (set_ressortgroupref t ref).
Proof. destruct t. repeat split. Qed.

Lemma grouped_by_app (gl ext : list SortGroupClause) (t : TargetEntry) :
  grouped_by gl t -> grouped_by (gl ++ ext) t.
Proof.
  intros (Hne & scl & Hin & Href). split; [assumption|].
  exists scl. split; [apply in_or_app; now left | assumption].
Qed.

Lemma targetIsInSortList_grouped (t : TargetEntry) (gl : list SortGroupClause) :
  targetIsInSortList t gl = true -> grouped_by gl t.
Proof.
  unfold targetIsInSortList, grouped_by.
  destruct (Nat.eqb_spec (ressortgroupref t) 0); [discriminate|].
  rewrite existsb_exists. intros (scl & Hin & Heq).
  apply Nat.eqb_eq in Heq. eauto.
Qed.

(** *** DISTINCT turned into GROUP BY *)

(** The loop over the target list keeps the entries as columns, only
    extends the clause list, and leaves every non-junk entry grouped. *)
Lemma distinct_targets_spec (rest : list TargetEntry) :
  forall done gl tl' gl',
    distinct_targets done rest gl = Ok (tl', gl') ->
    exists rest' ext,
      tl' = done ++ rest' /\ gl' = gl ++ ext
      /\ Forall2 same_column rest rest'
      /\ Forall (fun t => resjunk t = false -> grouped_by gl' t) rest'.
Proof.
  induction rest as [|tle rest IH]; simpl; intros done gl tl' gl' H.
  - injection H as <- <-. exists [], []. rewrite !app_nil_r.
    repeat split; constructor.
  - destruct (resjunk tle || targetIsInSortList tle gl) eqn:Hskip.
    + apply IH in H. destruct H as (rest' & ext & -> & -> & HF2 & HF).
      exists (tle :: rest'), ext. rewrite <- app_assoc. simpl.
      split; [reflexivity | split; [reflexivity | split]].
      * constructor; [apply same_column_refl | assumption].
      * constructor; [|assumption].
        intros Hj. rewrite Hj in Hskip. simpl in Hskip.
        apply grouped_by_app. now apply targetIsInSortList_grouped.
    + destruct (get_sort_group_operators (exprType (expr tle)))
        as [[sortop' eqop']|]; [|discriminate].
      apply IH in H. destruct H as (rest' & ext & -> & Hgl & HF2 & HF).
      rewrite <- !app_assoc in Hgl. simpl in Hgl.
      eexists (_ :: rest'), (_ :: ext). rewrite <- !app_assoc. simpl.
      split; [reflexivity | split; [exact Hgl | split]].
      * constructor; [apply same_column_set_ref | assumption].
      * constructor; [|assumption].
        intros _. split.
        -- destruct tle as [e no name ref junk]. simpl.
           destruct (Nat.eqb_spec ref 0); [discriminate | assumption].
        -- eexists. split;
             [rewrite Hgl; apply in_or_app; right; left; reflexivity|].
           destruct tle. reflexivity.
Qed.

Lemma transformDistinctClause_spec (tl : list TargetEntry)
  (sc : list SortGroupClause) tl' gl' :
  transformDistinctClause tl sc = Ok (tl', gl') ->
  Forall2 same_column tl tl'
  /\ Forall (fun t => resjunk t = false -> grouped_by gl' t) tl'.
Proof.
  unfold transformDistinctClause. intros H. do 2 inv_bind H. inv_bind H.
  injection H as ->. destruct (distinct_targets_spec _ _ _ _ _ Hx0)
    as (rest' & ext & -> & -> & HF2 & HF).
  simpl. auto.
Qed.

Lemma Forall2_same_column_length (l l' : list TargetEntry) :
  Forall2 same_column l l' -> List.length l = List.length l'.
Proof. apply Forall2_length. Qed.

(** C2, as amended.  For a query that, after the EXISTS step, has a
    DISTINCT clause, no aggregate and no GROUP BY clause, a successful
    rewrite yields a query with [hasAggs] set, whose target list is the
    original columns followed by one count-star entry named
    [__ivm_count__] with the next resno, and whose GROUP BY clause has
    every original non-junk column as a key. *)
Theorem rewrite_distinct_to_group (query q1 rewritten : Query)
  (colNames : list string) :
  rewrite_exists query = Ok q1 ->
  distinctClause q1 <> [] ->
  hasAggs q1 = false ->
  groupClause q1 = [] ->
  rewriteQueryForIMMV query colNames = Ok rewritten ->
  hasAggs rewritten = true
  /\ exists columns count_star,
       ParseFuncOrColumn "count" [] true = Ok count_star
       /\ targetList rewritten =
            columns ++ [mkTargetEntry count_star
                          (Z.of_nat (List.length (targetList q1)) + 1)
                          (Some "__ivm_count__") 0%nat false]
       /\ Forall2 same_column (targetList q1) columns
       /\ Forall (fun t => resjunk t = false ->
                           grouped_by (groupClause rewritten) t) columns.
Proof.
  intros Hex Hdist Haggs Hgroup H.
  unfold rewriteQueryForIMMV in H. rewrite Hex in H. simpl in H.
  inv_bind H. inv_bind H.
  (* the GROUP BY step *)
  unfold rewrite_group in Hx. rewrite Hgroup, Haggs in Hx. simpl in Hx.
  destruct (distinctClause q1) as [|d ds] eqn:Hd; [contradiction|].
  simpl in Hx. inv_bind Hx. injection Hx as <-.
  destruct x1 as [tl' gl']. simpl in *.
  apply transformDistinctClause_spec in Hx1. destruct Hx1 as [HF2 HF].
  (* the aggregate step does nothing *)
  unfold rewrite_aggs in Hx0.
  destruct q1 as [aggs wf sl don rec ctes rt jt tl gc gs hq dc sc lo lc rm so].
  simpl in *. subst aggs gc dc. simpl in Hx0. injection Hx0 as <-.
  (* the count step *)
  unfold rewrite_count in H. simpl in H. inv_bind H. injection H as <-.
  simpl. split; [reflexivity|].
  exists tl', x. split; [assumption|]. split; [|split; assumption].
  unfold makeTargetEntry, next_free_resno.
  now rewrite (Forall2_same_column_length _ _ HF2).
Qed.

End Rewriter.

(** C2 as stated fails when the query has a GROUP BY clause of its own:
    the DISTINCT clause is then not converted, and a column that is no
    GROUP BY key stays outside the clause. *)
Lemma rewrite_distinct_to_group_counterexample :
  distinctClause Sample.q_distinct_group <> []
  /\ hasAggs Sample.q_distinct_group = false
  /\ exists rewritten x,
       rewriteQueryForIMMV (collab := Sample.collab)
                           Sample.q_distinct_group [] = Ok rewritten
       /\ nth_error (targetList Sample.q_distinct_group) 0 = Some x
       /\ resjunk x = false
       /\ forall t, In t (targetList rewritten) -> same_column x t ->
                    ~ grouped_by (groupClause rewritten) t.
Proof.
  split; [discriminate | split; [reflexivity|]].
  eexists. eexists. split; [reflexivity|].
  split; [reflexivity | split; [reflexivity|]].
  simpl. intros t [<- | [<- | [<- | []]]] (He & Hno & Hname & Hjunk);
    try discriminate.
  intros (_ & scl & [<- | []] & Href). discriminate.
Qed.

(** *** Companion columns of aggregates *)

Section Companions.

Context {collab : Collaborators}.

Lemma resnos_from_app (n : AttrNumber) (l1 l2 : list TargetEntry) :
  resnos_from n (l1 ++ l2)
  <-> resnos_from n l1 /\ resnos_from (n + Z.of_nat (List.length l1)) l2.
Proof.
  revert n. induction l1 as [|t l1 IH]; intros n; simpl.
  - rewrite Z.add_0_r. tauto.
  - rewrite IH.
    replace (n + 1 + Z.of_nat (List.length l1))
      with (n + Z.pos (Pos.of_succ_nat (List.length l1))) by lia.
    tauto.
Qed.

(** One call appends its columns to [aggs], numbered from [next_resno]
    on, and advances [next_resno] past them. *)
Lemma makeIvmAggColumn_spec fn tys aggargs name n aggs n' aggs' :
  makeIvmAggColumn fn tys aggargs name n aggs = Ok (n', aggs') ->
  exists ext,
    aggs' = aggs ++ ext /\ n' = n + Z.of_nat (List.length ext)
    /\ resnos_from n ext.
Proof.
  unfold makeIvmAggColumn. intros H. inv_bind H.
  assert (H1 : exists e1, snd x = aggs ++ e1
                          /\ fst x = n + Z.of_nat (List.length e1)
                          /\ resnos_from n e1).
  { destruct (negb (get_func_name fn =? "count")%string).
    - inv_bind Hx. injection Hx as <-. simpl.
      eexists [_]. simpl. repeat split; lia.
    - injection Hx as <-. exists []. simpl.
      rewrite app_nil_r. repeat split; lia. }
  destruct H1 as (e1 & He1 & Hn1 & Hr1). destruct x as [n1 a1]. simpl in *.
  subst n1 a1.
  destruct (get_func_name fn =? "avg")%string.
  - inv_bind H. injection H as <- <-.
    eexists (e1 ++ [_]). rewrite app_assoc. split; [reflexivity|].
    rewrite length_app, resnos_from_app. simpl. repeat split; try lia.
    exact Hr1.
  - injection H as <- <-. exists e1. auto.
Qed.

Lemma add_agg_columns_spec colNames tl :
  forall n aggs n' aggs',
    add_agg_columns colNames tl n aggs = Ok (n', aggs') ->
    exists ext,
      aggs' = aggs ++ ext /\ n' = n + Z.of_nat (List.length ext)
      /\ resnos_from n ext.
Proof.
  induction tl as [|tle tl IH]; simpl; intros n aggs n' aggs' H.
  - injection H as <- <-. exists []. simpl. rewrite app_nil_r.
    repeat split; lia.
  - do 2 inv_bind H. destruct x0 as [n1 a1]. simpl in H.
    assert (H1 : exists e1, a1 = aggs ++ e1
                            /\ n1 = n + Z.of_nat (List.length e1)
                            /\ resnos_from n e1).
    { destruct (expr tle);
        try (injection Hx0 as <- <-; exists []; simpl;
             rewrite app_nil_r; repeat split; lia).
      now apply makeIvmAggColumn_spec in Hx0. }
    destruct H1 as (e1 & -> & -> & Hr1).
    apply IH in H. destruct H as (e2 & -> & -> & Hr2).
    exists (e1 ++ e2). rewrite app_assoc, length_app, resnos_from_app.
    repeat split; try assumption. lia.
Qed.

Lemma add_agg_columns_app colNames l1 l2 n aggs :
  add_agg_columns colNames (l1 ++ l2) n aggs =
    (do st <- add_agg_columns colNames l1 n aggs;
     add_agg_columns colNames l2 (fst st) (snd st)).
Proof.
  revert n aggs. induction l1 as [|t l1 IH]; intros n aggs; simpl.
  - reflexivity.
  - destruct (display_name colNames t) as [name|e]; simpl; [|reflexivity].
    destruct (expr t); simpl; try apply IH.
    destruct (makeIvmAggColumn aggfnoid aggargtypes args name n aggs)
      as [st|e]; simpl; [apply IH | reflexivity].
Qed.

(** The two companion columns of an [avg] entry. *)
Lemma makeIvmAggColumn_avg fn tys aggargs name n aggs n' aggs' :
  get_func_name fn = "avg" ->
  makeIvmAggColumn fn tys aggargs name n aggs = Ok (n', aggs') ->
  exists count_node sum_node,
    ParseFuncOrColumn "count" [T_Const INT4OID 1 false] false = Ok count_node
    /\ ParseFuncOrColumn "sum" (map (fun ty => T_Const ty 0 true) tys) false
       = Ok sum_node
    /\ n' = n + 2
    /\ aggs' = aggs ++
         [mkTargetEntry (set_aggref_args count_node aggargs) n
            (Some (makeObjectName "__ivm_count" name "_")) 0%nat false;
          mkTargetEntry (set_aggref_args sum_node aggargs) (n + 1)
            (Some (makeObjectName "__ivm_sum" name "_")) 0%nat false].
Proof.
  unfold makeIvmAggColumn. intros ->. simpl. intros H.
  inv_bind H. inv_bind Hx. injection Hx as <-. simpl in H. inv_bind H.
  injection H as <- <-. exists x0, x.
  rewrite <- app_assoc. repeat split; try assumption. lia.
Qed.

Lemma rewrite_group_hasAggs (q1 q2 : Query) :
  hasAggs q1 = true -> rewrite_group q1 = Ok q2 -> q2 = q1.
Proof.
  unfold rewrite_group. intros ->. simpl.
  destruct (negb (is_nil (groupClause q1))); intros H.
  - inv_bind H. congruence.
  - congruence.
Qed.

Lemma targetList_set_targetList (q : Query) (tl : list TargetEntry) :
  targetList (set_targetList q tl) = tl.
Proof. destruct q. reflexivity. Qed.

Lemma hasAggs_set_targetList (q : Query) (tl : list TargetEntry) :
  hasAggs (set_targetList q tl) = hasAggs q.
Proof. destruct q. reflexivity. Qed.

Lemma targetList_set_hasAggs (q : Query) (b : bool) :
  targetList (set_hasAggs q b) = targetList q.
Proof. destruct q. reflexivity. Qed.

(** C3, as amended.  Let the query, after the EXISTS step, have
    aggregates and a target entry that is a bare [avg] aggregate with
    display name [a].  Then a successful rewrite appends to the target
    list, among the companion columns and before the final count-star
    column, a count column directly followed by a sum column.  Each is
    the aggregate that [ParseFuncOrColumn] returned for [count] or
    [sum], with the arguments of the [avg] aggregate in place of its
    own.  They are named [makeObjectName("__ivm_count", a, "_")] and
    [makeObjectName("__ivm_sum", a, "_")], which is [__ivm_count_a__]
    and [__ivm_sum_a__], with two underscores at the end, when [a] has
    at most 49 bytes.  All appended entries are numbered consecutively
    from the previous length plus one, so that a target list numbered
    from 1 stays so. *)
Theorem avg_companion_columns (query q1 rewritten : Query)
  (colNames : list string) (pre post : list TargetEntry) (tle : TargetEntry)
  fn tys aggargs ord dis fil star (a : string) :
  rewrite_exists query = Ok q1 ->
  hasAggs q1 = true ->
  targetList q1 = pre ++ tle :: post ->
  expr tle = T_Aggref fn tys aggargs ord dis fil star ->
  get_func_name fn = "avg" ->
  display_name colNames tle = Ok (Some a) ->
  rewriteQueryForIMMV query colNames = Ok rewritten ->
  exists before after count_node sum_node count_col sum_col last,
    ParseFuncOrColumn "count" [T_Const INT4OID 1 false] false = Ok count_node
    /\ ParseFuncOrColumn "sum" (map (fun ty => T_Const ty 0 true) tys) false
       = Ok sum_node
    /\ (forall f t own o d fi s,
          count_node = T_Aggref f t own o d fi s ->
          count_col = T_Aggref f t aggargs o d fi s)
    /\ (forall f t own o d fi s,
          sum_node = T_Aggref f t own o d fi s ->
          sum_col = T_Aggref f t aggargs o d fi s)
    /\ targetList rewritten =
         targetList q1 ++ before
         ++ [mkTargetEntry count_col
               (Z.of_nat (List.length (targetList q1 ++ before)) + 1)
               (Some (makeObjectName "__ivm_count" (Some a) "_")) 0%nat false;
             mkTargetEntry sum_col
               (Z.of_nat (List.length (targetList q1 ++ before)) + 2)
               (Some (makeObjectName "__ivm_sum" (Some a) "_")) 0%nat false]
         ++ after ++ [last]
    /\ ((String.length a <= 49)%nat ->
        makeObjectName "__ivm_count" (Some a) "_"
        = ("__ivm_count_" ++ a ++ "__")%string
        /\ makeObjectName "__ivm_sum" (Some a) "_"
           = ("__ivm_sum_" ++ a ++ "__")%string)
    /\ resname last = Some "__ivm_count__"
    /\ resnos_from (Z.of_nat (List.length (targetList q1)) + 1)
         (skipn (List.length (targetList q1)) (targetList rewritten))
    /\ (resnos_from 1 (targetList q1) ->
        resnos_from 1 (targetList rewritten)).
Proof.
  intros Hex Haggs Htl Hexpr Havg Hdisp H.
  unfold rewriteQueryForIMMV in H. rewrite Hex in H. simpl in H.
  do 2 inv_bind H.
  apply rewrite_group_hasAggs in Hx; [|assumption]. subst x.
  unfold rewrite_aggs in Hx0. rewrite Haggs in Hx0. inv_bind Hx0.
  injection Hx0 as <-. destruct x as [n' aggs'].
  (* the companion columns, all together *)
  pose proof (add_agg_columns_spec _ _ _ _ _ _ Hx) as (ext & Hext & _ & Hres).
  simpl in Hext. subst aggs'.
  (* the entries before, at and after the [avg] entry *)
  rewrite Htl, add_agg_columns_app in Hx. inv_bind Hx.
  destruct x as [n1 a1].
  apply add_agg_columns_spec in Hx0. destruct Hx0 as (before & -> & -> & _).
  simpl in Hx. rewrite Hdisp, Hexpr in Hx. simpl in Hx. inv_bind Hx.
  destruct x as [n2 a2].
  apply makeIvmAggColumn_avg in Hx0; [|assumption].
  destruct Hx0 as (count_node & sum_node & Hcount & Hsum & -> & ->).
  simpl in Hx.
  apply add_agg_columns_spec in Hx. destruct Hx as (after & Heq & _ & _).
  simpl in Heq.
  (* the count-star column *)
  unfold rewrite_count in H.
  rewrite hasAggs_set_targetList, Haggs, orb_true_r in H. inv_bind H.
  injection H as <-.
  rewrite targetList_set_hasAggs, !targetList_set_targetList.
  exists before, after, count_node, sum_node,
    (set_aggref_args count_node aggargs), (set_aggref_args sum_node aggargs),
    (makeTargetEntry x (next_free_resno (targetList q1 ++ ext))
                     (Some "__ivm_count__") false).
  split; [exact Hcount | split; [exact Hsum|]].
  split; [intros f t own o d fi s ->; reflexivity|].
  split; [intros f t own o d fi s ->; reflexivity|].
  unfold next_free_resno in *. rewrite <- Htl in Heq.
  split; [|split; [|split; [reflexivity|]]].
  - replace (Z.of_nat (List.length (targetList q1 ++ before)) + 1)
      with (Z.of_nat (List.length (targetList q1)) + 1
            + Z.of_nat (List.length before))
      by (rewrite length_app; lia).
    replace (Z.of_nat (List.length (targetList q1 ++ before)) + 2)
      with (Z.of_nat (List.length (targetList q1)) + 1
            + Z.of_nat (List.length before) + 1)
      by (rewrite length_app; lia).
    rewrite Heq, <- !app_assoc. reflexivity.
  - intros Hlen.
    rewrite !makeObjectName_fit by (simpl String.length; lia).
    split; reflexivity.
  - assert (Hnew : resnos_from (Z.of_nat (List.length (targetList q1)) + 1)
                     (ext ++ [makeTargetEntry x
                                (Z.of_nat (List.length (targetList q1 ++ ext)) + 1)
                                (Some "__ivm_count__") false])).
    { apply resnos_from_app. split; [exact Hres|]. simpl.
      rewrite length_app, Nat2Z.inj_add.
      split; [lia | exact I]. }
    split.
    + rewrite <- app_assoc, skipn_app, skipn_all, Nat.sub_diag. exact Hnew.
    + intros H1. rewrite <- app_assoc. apply resnos_from_app.
      split; [exact H1|]. rewrite Z.add_comm. exact Hnew.
Qed.

End Companions.

(** C3 as stated fails on the names: for
    [SELECT t1.a, avg(t1.b) AS m FROM t1 GROUP BY t1.a] the companion
    columns are named [__ivm_count_m__] and [__ivm_sum_m__], because
    [makeObjectName] puts an underscore before the label [_]; no column
    is named [__ivm_count_m_] or [__ivm_sum_m_]. *)
Lemma avg_companion_columns_counterexample :
  rewriteQueryForIMMV (collab := Sample.collab) Sample.q_avg []
    = Ok Sample.q_avg_rewritten
  /\ map resname (targetList Sample.q_avg_rewritten)
     = [Some "a"; Some "m"; Some "__ivm_count_m__"; Some "__ivm_sum_m__";
        Some "__ivm_count__"]
  /\ ~ In (Some "__ivm_count_m_")
          (map resname (targetList Sample.q_avg_rewritten))
  /\ ~ In (Some "__ivm_sum_m_")
          (map resname (targetList Sample.q_avg_rewritten)).
Proof.
  split; [reflexivity|]. split; [reflexivity|].
  split; intros H; simpl in H;
    repeat (destruct H as [H|H]; [discriminate H|]); exact H.
Qed.

(** ** The restriction checker *)

Section Walker.

Context {collab : Collaborators}.

#[local] Abbreviation context := check_ivm_restriction_context.
#[local] Abbreviation walker := check_ivm_restriction_walker.

(** The [T_Query] case, step by step. *)
Lemma walker_Query_eq (qry : Query) (c : context) :
  walker_Query qry c =
    (do _ <- check_query_clauses qry;
     do _ <- check_nested_query qry c;
     do c8 <- walk_query_children qry
                (set_has_agg c (has_agg c || hasAggs qry));
     do _ <- check_exists_vars qry c8;
     do _ <- check_outer_join qry c8;
     Ok c8).
Proof.
  destruct qry. simpl. unfold walk_query_children. simpl.
  repeat (first
    [ reflexivity
    | match goal with
      | |- context [bind ?m _] =>
          lazymatch m with
          | bind _ _ => fail
          | _ => destruct m; simpl
          end
      end ]).
Qed.

Lemma walker_TargetEntry_eq (tle : TargetEntry) (c : context) :
  walker_TargetEntry tle c =
    (do _ <- check_target_entry tle c; walker (expr tle) c).
Proof. destruct tle. reflexivity. Qed.

Lemma walk_list_app {A} (f : A -> context -> result context)
  (l1 l2 : list A) (c : context) :
  walk_list f (l1 ++ l2) c = (do c' <- walk_list f l1 c; walk_list f l2 c').
Proof.
  revert c. induction l1 as [|x l1 IH]; intros c; simpl; [reflexivity|].
  destruct (f x c); simpl; [apply IH | reflexivity].
Qed.

(** A list walk that meets an element rejected in every context
    fails. *)
Lemma walk_list_rejected {A} (f : A -> context -> result context)
  (l1 l2 : list A) (x : A) (c : context) :
  (forall c', exists e, f x c' = Error e) ->
  exists e, walk_list f (l1 ++ x :: l2) c = Error e.
Proof.
  intros Hx. rewrite walk_list_app.
  destruct (walk_list f l1 c) as [c'|e]; simpl; [|eauto].
  destruct (Hx c') as (e & He). rewrite He. simpl. eauto.
Qed.

Lemma bind_Error {A B} (r : result A) (k : A -> result B) :
  (forall a, exists e, k a = Error e) -> exists e, bind r k = Error e.
Proof.
  intros Hk. destruct r as [a|e]; simpl; [apply Hk | eauto].
Qed.

Lemma bind_Error_l {A B} (r : result A) (k : A -> result B) :
  (exists e, r = Error e) -> exists e, bind r k = Error e.
Proof.
  intros (e & ->). simpl. eauto.
Qed.

End Walker.

Section WalkerClaims.

Context {collab : Collaborators}.

#[local] Abbreviation context := check_ivm_restriction_context.
#[local] Abbreviation walker := check_ivm_restriction_walker.

(** *** Nested queries *)

Lemma check_nested_query_rejects (qry : Query) (c : context) :
  (0 < sublevels_up c)%nat ->
  distinctClause qry <> [] \/ hasAggs qry = true ->
  check_nested_query qry c =
    Error (if is_nil (distinctClause qry) then E_NestedAggs
           else E_NestedDistinct).
Proof.
  intros Hlvl Hq. unfold check_nested_query.
  apply Nat.ltb_lt in Hlvl. rewrite Hlvl. simpl.
  destruct (distinctClause qry) as [|d ds]; simpl; [|reflexivity].
  destruct Hq as [Hq | ->]; [contradiction | reflexivity].
Qed.

Lemma walker_Query_nested_rejected (qry : Query) (c : context) :
  (0 < sublevels_up c)%nat ->
  distinctClause qry <> [] \/ hasAggs qry = true ->
  exists e, walker_Query qry c = Error e.
Proof.
  intros Hlvl Hq. rewrite walker_Query_eq.
  rewrite (check_nested_query_rejects qry c Hlvl Hq).
  destruct (check_query_clauses qry); simpl; eauto.
Qed.

(** C8, as amended.  A query checked at nesting depth greater than zero
    that has a DISTINCT clause or aggregates is rejected.  The
    diagnostic is the nested-DISTINCT one (without a DISTINCT clause,
    the nested-aggregates one) whenever none of the checks on the
    query's clauses, which come first, rejects it.  At depth zero
    neither of the two checks fires.  The queries of subquery
    range-table entries, CTEs and sublinks are checked at a depth
    greater than zero, so they are rejected in any context. *)
Theorem nested_distinct_or_aggs_rejected (qry : Query) (c : context) :
  (0 < sublevels_up c)%nat ->
  distinctClause qry <> [] \/ hasAggs qry = true ->
  (exists e, walker (T_Query qry) c = Error e)
  /\ (check_query_clauses qry = Ok tt ->
      walker (T_Query qry) c =
        Error (if is_nil (distinctClause qry) then E_NestedAggs
               else E_NestedDistinct))
  /\ (forall c0, sublevels_up c0 = 0%nat -> check_nested_query qry c0 = Ok tt)
  /\ (forall c' oid rk ts lat, exists e,
        walker_RangeTblEntry
          (mkRangeTblEntry RTE_SUBQUERY oid rk ts (Some qry) lat) c' = Error e)
  /\ (forall c' name refcount, exists e,
        walker_CommonTableExpr
          (mkCommonTableExpr name (Some (T_Query qry)) refcount) c' = Error e)
  /\ (forall c' ty test, exists e,
        walker (T_SubLink ty test (Some (T_Query qry))) c' = Error e).
Proof.
  intros Hlvl Hq.
  assert (Hrej : forall c1, exists e,
             walker_Query qry (incr_sublevels c1) = Error e).
  { intros c1. apply walker_Query_nested_rejected; [simpl; lia | exact Hq]. }
  split; [|split; [|split; [|split; [|split]]]].
  - simpl. now apply walker_Query_nested_rejected.
  - intros Hcl. simpl. rewrite walker_Query_eq, Hcl. simpl.
    now rewrite check_nested_query_rejects.
  - intros c0 H0. unfold check_nested_query. rewrite H0. reflexivity.
  - intros c' oid rk ts lat. simpl.
    apply bind_Error. intros _. apply bind_Error. intros _.
    destruct (Hrej (set_has_subquery c' true)) as (e & He).
    rewrite He. simpl. eauto.
  - intros c' name refcount. simpl.
    apply bind_Error. intros _.
    destruct (Hrej c') as (e & He). rewrite He. simpl. eauto.
  - intros c' ty test. simpl.
    apply bind_Error. intros _.
    destruct (Hrej (set_in_exists_subquery c' true)) as (e & He).
    rewrite He. simpl. eauto.
Qed.

(** *** Sublinks in the target list *)

Lemma walker_TargetEntry_SubLink (tle : TargetEntry) (c : context) :
  IsA_SubLink (expr tle) = true ->
  exists e, walker_TargetEntry tle c = Error e.
Proof.
  intros Hs. rewrite walker_TargetEntry_eq. unfold check_target_entry.
  rewrite Hs.
  destruct (isIvmName (resname tle)); simpl; [eauto|].
  destruct (has_agg c && _ && _); simpl; eauto.
Qed.

Lemma walk_query_children_rejected (qry : Query) (c : context)
  (pre post : list TargetEntry) (tle : TargetEntry) :
  targetList qry = pre ++ tle :: post ->
  (forall c', exists e, walker_TargetEntry tle c' = Error e) ->
  exists e, walk_query_children qry c = Error e.
Proof.
  intros Htl Hrej. unfold walk_query_children. rewrite Htl.
  apply bind_Error. intros c1.
  destruct (walk_list_rejected walker_TargetEntry pre post tle c1 Hrej)
    as (e & He).
  rewrite He. simpl. eauto.
Qed.

Lemma walker_Query_rejected (qry : Query) (c : context)
  (pre post : list TargetEntry) (tle : TargetEntry) :
  targetList qry = pre ++ tle :: post ->
  (forall c', exists e, walker_TargetEntry tle c' = Error e) ->
  exists e, walker_Query qry c = Error e.
Proof.
  intros Htl Hrej. rewrite walker_Query_eq.
  apply bind_Error. intros _. apply bind_Error. intros _.
  destruct (walk_query_children_rejected qry
              (set_has_agg c (has_agg c || hasAggs qry)) pre post tle Htl Hrej)
    as (e & He).
  rewrite He. simpl. eauto.
Qed.

(** C10, as amended.  A query with a target entry whose expression is
    itself a sublink, of any type, is rejected.  When nothing before
    that entry is rejected (the clauses of the query, its range table,
    the target entries in front of it, the name of the entry and the
    check for an expression containing an aggregate), the diagnostic
    is that a subquery is not supported in the target list. *)
Theorem sublink_in_targetList_rejected (qry : Query)
  (pre post : list TargetEntry) (tle : TargetEntry) :
  targetList qry = pre ++ tle :: post ->
  IsA_SubLink (expr tle) = true ->
  (exists e, check_ivm_restriction (T_Query qry) = Error e)
  /\ (forall c1 c2,
        check_query_clauses qry = Ok tt ->
        walk_list walker_RangeTblEntry (rtable qry)
          (set_has_agg initial_context (hasAggs qry)) = Ok c1 ->
        walk_list walker_TargetEntry pre c1 = Ok c2 ->
        isIvmName (resname tle) = false ->
        has_agg c2 && contain_aggs_of_level (expr tle) 0 = false ->
        check_ivm_restriction (T_Query qry) = Error E_SubqueryInTargetList).
Proof.
  intros Htl Hs. split.
  - unfold check_ivm_restriction. simpl.
    destruct (walker_Query_rejected qry initial_context pre post tle Htl
                (fun c' => walker_TargetEntry_SubLink tle c' Hs)) as (e & He).
    rewrite He. simpl. eauto.
  - intros c1 c2 Hcl Hrt Hpre Hname Hagg.
    unfold check_ivm_restriction. simpl.
    rewrite walker_Query_eq, Hcl. simpl.
    unfold walk_query_children. simpl.
    rewrite Hrt. simpl. rewrite Htl, walk_list_app, Hpre. simpl.
    rewrite walker_TargetEntry_eq. unfold check_target_entry.
    rewrite Hname.
    destruct (expr tle); try discriminate Hs.
    simpl. rewrite andb_true_r, Hagg. reflexivity.
Qed.

End WalkerClaims.

(** C8 as stated fails on the diagnostic: a nested query with DISTINCT
    and ORDER BY is rejected for its ORDER BY clause. *)
Lemma nested_distinct_or_aggs_rejected_counterexample :
  distinctClause Sample.q_distinct_ordered <> []
  /\ check_ivm_restriction (collab := Sample.collab)
       (T_Query Sample.q_from_distinct_ordered) = Error E_OrderBy
  /\ check_ivm_restriction_walker (collab := Sample.collab)
       (T_Query Sample.q_distinct_ordered) (incr_sublevels initial_context)
     = Error E_OrderBy.
Proof.
  split; [discriminate | split; reflexivity].
Qed.

(** C10 as stated fails on the diagnostic: a query with an EXISTS
    sublink as a target entry and an ORDER BY clause is rejected for
    the ORDER BY clause. *)
Lemma sublink_in_targetList_rejected_counterexample :
  (exists tle, In tle (targetList Sample.q_sublink_target_ordered)
               /\ IsA_SubLink (expr tle) = true)
  /\ check_ivm_restriction (collab := Sample.collab)
       (T_Query Sample.q_sublink_target_ordered) = Error E_OrderBy.
Proof.
  split; [|reflexivity].
  exists (Sample.target Sample.exists_t2 2 "e").
  split; [right; left; reflexivity | reflexivity].
Qed.

(** A sublink below the top of a target expression is not seen by the
    target-list check: it is checked like a sublink of the WHERE
    clause. *)
Remark sublink_nested_in_target_expression_accepted :
  check_ivm_restriction (collab := Sample.collab)
    (T_Query Sample.q_sublink_nested_in_target) = Ok tt.
Proof. reflexivity. Qed.

(** *** The walker and its context *)

Section WalkerContext.

Context {collab : Collaborators}.

#[local] Abbreviation context := check_ivm_restriction_context.
#[local] Abbreviation walker := check_ivm_restriction_walker.

Lemma context_kept_refl (c : context) : context_kept c c.
Proof. split; auto. Qed.

Lemma context_kept_trans (c1 c2 c3 : context) :
  context_kept c1 c2 -> context_kept c2 c3 -> context_kept c1 c3.
Proof.
  intros [H1 H2] [H3 H4]. split; [congruence | auto].
Qed.

Lemma walk_list_keeps {A} (f : A -> context -> result context) (l : list A) :
  Forall (keeps f) l ->
  forall c c', walk_list f l c = Ok c' -> context_kept c c'.
Proof.
  induction 1 as [|x l Hx Hl IH]; intros c c' H; simpl in H.
  - injection H as <-. apply context_kept_refl.
  - inv_bind H. eapply context_kept_trans; [apply Hx | apply IH]; eassumption.
Qed.

Lemma walk_opt_keeps {A} (f : A -> context -> result context) (o : option A) :
  opt_all (keeps f) o ->
  forall c c', walk_opt f o c = Ok c' -> context_kept c c'.
Proof.
  destruct o as [x|]; simpl; intros Hx c c' H.
  - now apply Hx.
  - injection H as <-. apply context_kept_refl.
Qed.

(** A walk one level down and back. *)
Lemma nested_walk_kept {A} (f : A -> context -> result context) (o : option A)
  (c c0 c1 : context) :
  opt_all (keeps f) o ->
  sublevels_up c0 = S (sublevels_up c) ->
  (has_outerjoin c = true -> has_outerjoin c0 = true) ->
  walk_opt f o c0 = Ok c1 ->
  sublevels_up c1 = S (sublevels_up c)
  /\ (has_outerjoin c = true -> has_outerjoin c1 = true).
Proof.
  intros Ho Hl Hj H. apply (walk_opt_keeps f o Ho) in H.
  destruct H as [H1 H2]. split; [congruence | auto].
Qed.

Lemma walker_keeps_context :
  (forall node, keeps walker node)
  /\ (forall tle, keeps walker_TargetEntry tle)
  /\ (forall cte, keeps walker_CommonTableExpr cte)
  /\ (forall rte, keeps walker_RangeTblEntry rte)
  /\ (forall qry, keeps walker_Query qry).
Proof.
  apply (Node_mutind (keeps walker) (keeps walker_TargetEntry)
           (keeps walker_CommonTableExpr) (keeps walker_RangeTblEntry)
           (keeps walker_Query)).
  {
    (* T_Var *)
      intros v c c' H. simpl in H.
      destruct (_ && _); injection H as <-; split; auto.
  }
  { intros ty v isnull c c' H. injection H as <-. apply context_kept_refl.
  }
  { intros fn tys args ord dis fil star _ _ c c' H. simpl in H.
      inv_bind H. injection H as <-. apply context_kept_refl.
  }
  { intros fn args Hargs c c'. now apply walk_list_keeps.
  }
  { intros op args Hargs c c'. now apply walk_list_keeps.
  }
  { intros args Hargs c c'. now apply walk_list_keeps.
  }
  { (* T_SubLink *)
      intros ty test sub _ Hsub c c' H. simpl in H. do 2 inv_bind H.
      injection H as <-.
      apply (nested_walk_kept walker sub c) in Hx0;
        [|exact Hsub | reflexivity | auto].
      destruct Hx0 as [H1 H2].
      split; simpl; [rewrite H1; reflexivity | exact H2].
  }
  { intros tle Ht. exact Ht.
  }
  { intros rti c c' H. injection H as <-. apply context_kept_refl.
  }
  { (* T_JoinExpr *)
      intros jt larg rarg quals Hl Hr Hq c c' H. simpl in H.
      do 3 inv_bind H.
      assert (H0 : context_kept c x).
      { destruct (IS_OUTER_JOIN jt).
        - inv_bind Hx. injection Hx as <-. split; auto.
        - injection Hx as <-. apply context_kept_refl. }
      eapply context_kept_trans; [exact H0|].
      eapply context_kept_trans;
        [eapply walk_opt_keeps; [|eassumption]; assumption|].
      eapply context_kept_trans;
        (eapply walk_opt_keeps; [|eassumption]; assumption).
  }
  { (* T_FromExpr *)
      intros fromlist quals Hl Hq c c' H. simpl in H. inv_bind H.
      eapply context_kept_trans;
        [eapply walk_list_keeps | eapply walk_opt_keeps];
        try eassumption; assumption.
  }
  { intros cte Hc. exact Hc.
  }
  { intros q Hq. exact Hq.
  }
  { (* TargetEntry *)
      intros e no name ref junk He c c' H. simpl in H. inv_bind H.
      now apply He.
  }
  { (* CommonTableExpr *)
      intros name q refcount Hq c c' H. simpl in H. do 2 inv_bind H.
      injection H as <-.
      apply (nested_walk_kept walker q c) in Hx;
        [|exact Hq | reflexivity | auto].
      destruct Hx as [H1 H2].
      split; simpl; [rewrite H1; reflexivity | exact H2].
  }
  { (* RangeTblEntry *)
      intros kind oid rk ts sq lat Hsq c c' H. simpl in H. inv_bind H.
      destruct kind; try (injection H as <-; apply context_kept_refl).
      do 2 inv_bind H. injection H as <-.
      apply (nested_walk_kept walker_Query sq c) in Hx0;
        [|exact Hsq | reflexivity | auto].
      destruct Hx0 as [H1 H2].
      split; simpl; [rewrite H1; reflexivity | exact H2].
  }
  { (* Query *)
      intros aggs wf sl don rec ctes rt jt tl gc gs hq dc sc lo lc rm so
             Hctes Hrt Hjt Htl Hhq Hlo Hlc Hso c c' H.
      rewrite walker_Query_eq in H. do 5 inv_bind H. injection H as <-.
      unfold walk_query_children in Hx1. simpl in Hx1.
      do 7 inv_bind Hx1.
      apply context_kept_trans
        with (c2 := set_has_agg c (has_agg c || aggs)); [split; auto|].
      repeat (eapply context_kept_trans;
              [first [eapply walk_list_keeps; [|eassumption]; assumption
                     |eapply walk_opt_keeps; [|eassumption]; assumption]|]).
      apply context_kept_refl.
  }
Qed.

Lemma walker_keeps (node : Node) (c c' : context) :
  walker node c = Ok c' -> context_kept c c'.
Proof. apply walker_keeps_context. Qed.

Lemma walk_opt_walker_keeps (o : option Node) (c c' : context) :
  walk_opt walker o c = Ok c' -> context_kept c c'.
Proof.
  apply walk_opt_keeps. destruct o; simpl; [|exact I].
  intros c1 c2. apply walker_keeps.
Qed.

Lemma walk_list_walker_keeps (l : list Node) (c c' : context) :
  walk_list walker l c = Ok c' -> context_kept c c'.
Proof.
  apply walk_list_keeps. apply Forall_forall. intros n _ c1 c2.
  apply walker_keeps.
Qed.

(** A successful walk over a join tree with an outer join in it sets
    the outer-join flag. *)
Lemma contains_outer_join_flag (node : Node) :
  contains_outer_join node ->
  forall c c', walker node c = Ok c' -> has_outerjoin c' = true.
Proof.
  induction 1 as [jt larg rarg quals Hjt | jt larg rarg quals _ IH
                 | jt larg rarg quals _ IH | fromlist quals n Hin _ IH];
    intros c c' H; simpl in H.
  - rewrite Hjt in H.
    inv_bind_as H c1 H1. inv_bind_as H c2 H2. inv_bind_as H c3 H3.
    inv_bind H1. injection H1 as <-.
    apply walk_opt_walker_keeps in H2, H3, H.
    apply H, H3, H2. reflexivity.
  - inv_bind_as H c1 H1. inv_bind_as H c2 H2. inv_bind_as H c3 H3.
    simpl in H2. apply IH in H2.
    apply walk_opt_walker_keeps in H3, H. apply H, H3, H2.
  - inv_bind_as H c1 H1. inv_bind_as H c2 H2. inv_bind_as H c3 H3.
    simpl in H3. apply IH in H3.
    apply walk_opt_walker_keeps in H. apply H, H3.
  - inv_bind_as H c1 H1. apply walk_opt_walker_keeps in H. apply H. clear H.
    apply in_split in Hin. destruct Hin as (l1 & l2 & ->).
    rewrite walk_list_app in H1. inv_bind_as H1 c2 H2. simpl in H1.
    inv_bind_as H1 c3 H3.
    apply IH in H3. apply walk_list_walker_keeps in H1. now apply H1.
Qed.

(** The children walk of a query restores the depth and sets the
    outer-join flag when the join tree has an outer join. *)
Lemma walk_query_children_outer_join (qry : Query) (jt : Node) (c c8 : context) :
  jointree qry = Some jt -> contains_outer_join jt ->
  walk_query_children qry c = Ok c8 ->
  sublevels_up c8 = sublevels_up c /\ has_outerjoin c8 = true.
Proof.
  intros Hjt Hoj H. unfold walk_query_children in H. rewrite Hjt in H.
  inv_bind_as H c1 H1. inv_bind_as H c2 H2. inv_bind_as H c3 H3.
  inv_bind_as H c4 H4. inv_bind_as H c5 H5. inv_bind_as H c6 H6.
  inv_bind_as H c7 H7. simpl in H3.
  pose proof (contains_outer_join_flag jt Hoj _ _ H3) as Hflag.
  apply walker_keeps in H3.
  apply walk_opt_walker_keeps in H4, H5, H6, H7.
  assert (K1 : context_kept c c1).
  { eapply walk_list_keeps; [|exact H1]. apply Forall_forall.
    intros r _ ca cb. apply walker_keeps_context. }
  assert (K2 : context_kept c1 c2).
  { eapply walk_list_keeps; [|exact H2]. apply Forall_forall.
    intros r _ ca cb. apply walker_keeps_context. }
  assert (K3 : context_kept c7 c8).
  { eapply walk_list_keeps; [|exact H]. apply Forall_forall.
    intros r _ ca cb. apply walker_keeps_context. }
  destruct K1, K2, K3, H3, H4, H5, H6, H7.
  split; [congruence | auto 10].
Qed.

Lemma Var_eqb_eq (a b : Var) : Var_eqb a b = true <-> a = b.
Proof.
  unfold Var_eqb. destruct a, b. simpl.
  rewrite !andb_true_iff, !Z.eqb_eq, Nat.eqb_eq.
  split; [intros [[[-> ->] ->] ->]; reflexivity | intros H].
  injection H as -> -> -> ->. auto.
Qed.

Lemma Var_eq_dec (a b : Var) : {a = b} + {a <> b}.
Proof.
  destruct (Var_eqb a b) eqn:E.
  - left. now apply Var_eqb_eq.
  - right. intros Heq. apply Var_eqb_eq in Heq. congruence.
Qed.

Lemma list_difference_In (l1 l2 : list Var) (v : Var) :
  In v (list_difference l1 l2) <-> In v l1 /\ ~ In v l2.
Proof.
  unfold list_difference. rewrite filter_In, negb_true_iff.
  split; intros [H1 H2]; split; try assumption.
  - intros Hin. apply not_true_iff_false in H2. apply H2.
    apply existsb_exists. exists v. split; [assumption|]. now apply Var_eqb_eq.
  - apply not_true_iff_false. rewrite existsb_exists.
    intros (w & Hw & Heq). apply Var_eqb_eq in Heq. now subst.
Qed.

(** The WHERE check fires exactly when some variable of the flattened
    WHERE clause is outside the non-nullable set. *)
Lemma check_where_null_rejecting_spec (qry : Query) :
  (check_where_null_rejecting qry = Error E_WhereNotNullRejecting
   <-> exists v, In v (where_quals_vars qry)
                 /\ ~ In v (find_nonnullable_vars (jointree_quals qry)))
  /\ (check_where_null_rejecting qry = Ok tt
      <-> forall v, In v (where_quals_vars qry) ->
                    In v (find_nonnullable_vars (jointree_quals qry))).
Proof.
  unfold check_where_null_rejecting.
  destruct (list_difference (where_quals_vars qry)
              (find_nonnullable_vars (jointree_quals qry))) as [|v d] eqn:E;
    simpl.
  - assert (Hnone : forall v, In v (where_quals_vars qry) ->
                      ~ In v (find_nonnullable_vars (jointree_quals qry)) ->
                      False).
    { intros v H1 H2.
      assert (Hin : In v (list_difference (where_quals_vars qry)
                            (find_nonnullable_vars (jointree_quals qry))))
        by now apply list_difference_In.
      rewrite E in Hin. exact Hin. }
    split; split; try discriminate; try reflexivity.
    + intros (v & H1 & H2). elim (Hnone v H1 H2).
    + intros _ v Hv.
      destruct (in_dec Var_eq_dec v
                  (find_nonnullable_vars (jointree_quals qry)));
        [assumption | elim (Hnone v Hv n)].
  - assert (Hv : In v (where_quals_vars qry)
                 /\ ~ In v (find_nonnullable_vars (jointree_quals qry))).
    { apply list_difference_In. rewrite E. now left. }
    split; split; try discriminate; try reflexivity.
    + intros _. now exists v.
    + intros Hall. destruct Hv as [H1 H2]. elim (H2 (Hall v H1)).
Qed.

(** The walker on a top-level query, up to the outer-join block. *)
Lemma check_ivm_restriction_eq (qry : Query) :
  check_ivm_restriction (T_Query qry) =
    (do _ <- check_query_clauses qry;
     do c8 <- walk_query_children qry
                (set_has_agg initial_context (hasAggs qry));
     do _ <- check_exists_vars qry c8;
     do _ <- check_outer_join qry c8;
     Ok tt).
Proof.
  unfold check_ivm_restriction. simpl. rewrite walker_Query_eq.
  destruct (check_query_clauses qry) as [[]|]; simpl; [|reflexivity].
  destruct (walk_query_children qry _) as [c8|]; simpl; [|reflexivity].
  destruct (check_exists_vars qry c8); simpl; [|reflexivity].
  destruct (check_outer_join qry c8); reflexivity.
Qed.

(** C7, as amended.  Let the join tree of a query have an outer join.
    If the flattened WHERE clause has a variable outside the
    non-nullable set of the WHERE qualifiers, the restriction check
    fails, and the WHERE check itself fires with its diagnostic; if every
    variable of the WHERE clause is in that set, the WHERE check
    passes.  The failure carries the WHERE diagnostic whenever what
    comes before it passes: the clauses of the query, the walk over its
    children, the EXISTS check, the equijoin check of the join quals
    and the check that their variables are in the target list.  When
    the WHERE check passes after these, only the check for non-strict
    functions in the target list remains. *)
Theorem where_clause_null_rejecting (qry : Query) (jt : Node) :
  jointree qry = Some jt ->
  contains_outer_join jt ->
  let outside := exists v, In v (where_quals_vars qry)
                   /\ ~ In v (find_nonnullable_vars (jointree_quals qry)) in
  let inside := forall v, In v (where_quals_vars qry) ->
                   In v (find_nonnullable_vars (jointree_quals qry)) in
  (outside -> exists e, check_ivm_restriction (T_Query qry) = Error e)
  /\ (outside <->
        check_where_null_rejecting qry = Error E_WhereNotNullRejecting)
  /\ (inside <-> check_where_null_rejecting qry = Ok tt)
  /\ (forall c8 qual_vars,
        check_query_clauses qry = Ok tt ->
        walk_query_children qry (set_has_agg initial_context (hasAggs qry))
          = Ok c8 ->
        check_exists_vars qry c8 = Ok tt ->
        collect_qual_vars qry (join_quals c8) [] = Ok qual_vars ->
        forallb (var_in_targetList (flatten_join_alias_vars qry)
                                   (targetList qry)) qual_vars = true ->
        (outside ->
           check_ivm_restriction (T_Query qry) = Error E_WhereNotNullRejecting)
        /\ (inside ->
              check_ivm_restriction (T_Query qry) =
                (raise_if contain_nonstrict_functions (targetList qry)
                   with E_NonStrictInTargetList;
                 Ok tt))).
Proof.
  intros Hjt Hoj outside inside.
  destruct (check_where_null_rejecting_spec qry) as [Hout Hin].
  fold outside in Hout. fold inside in Hin.
  assert (Hblock : forall c8,
             walk_query_children qry
               (set_has_agg initial_context (hasAggs qry)) = Ok c8 ->
             check_outer_join qry c8 =
               (do qual_vars <- collect_qual_vars qry (join_quals c8) [];
                raise_if negb (forallb
                                 (var_in_targetList
                                    (flatten_join_alias_vars qry)
                                    (targetList qry)) qual_vars)
                  with E_JoinVarsNotInTargetList;
                do _ <- check_where_null_rejecting qry;
                raise_if contain_nonstrict_functions (targetList qry)
                  with E_NonStrictInTargetList;
                Ok tt)).
  { intros c8 Hc8.
    destruct (walk_query_children_outer_join qry jt _ _ Hjt Hoj Hc8)
      as [Hlvl Hflag].
    unfold check_outer_join. rewrite Hflag, Hlvl. reflexivity. }
  split; [|split; [symmetry; exact Hout | split; [symmetry; exact Hin|]]].
  - intros Ho. apply Hout in Ho. rewrite check_ivm_restriction_eq.
    apply bind_Error. intros _.
    destruct (walk_query_children qry _) as [c8|e] eqn:Hc8; simpl; [|eauto].
    apply bind_Error. intros _. rewrite (Hblock c8 eq_refl).
    apply bind_Error_l. apply bind_Error. intros qv.
    apply bind_Error. intros _. rewrite Ho. simpl. eauto.
  - intros c8 qual_vars Hcl Hc8 Hex Hqv Htl.
    rewrite check_ivm_restriction_eq, Hcl, Hc8. simpl. rewrite Hex. simpl.
    rewrite (Hblock c8 Hc8), Hqv. simpl. rewrite Htl. simpl.
    split.
    + intros Ho. apply Hout in Ho. rewrite Ho. reflexivity.
    + intros Hi. apply Hin in Hi. rewrite Hi. simpl.
      destruct (contain_nonstrict_functions (targetList qry)); reflexivity.
Qed.

End WalkerContext.

(** C7 as stated fails on the diagnostic: with an outer join whose
    condition is no equijoin, a WHERE variable outside the non-nullable
    set does not get the WHERE diagnostic. *)
Lemma where_clause_null_rejecting_counterexample :
  let qry := Sample.q_left_join 97 (Some Sample.f_t2_b) in
  (exists jt, jointree qry = Some jt /\ contains_outer_join jt)
  /\ (exists v, In v (where_quals_vars (collab := Sample.collab) qry)
         /\ ~ In v (find_nonnullable_vars (Collaborators := Sample.collab)
                      (jointree_quals qry)))
  /\ check_ivm_restriction (collab := Sample.collab) (T_Query qry)
     = Error E_OnlySimpleEquijoin.
Proof.
  split; [|split; [|reflexivity]].
  - eexists. split; [reflexivity|].
    eapply outer_join_fromlist; [left; reflexivity|].
    now apply outer_join_here.
  - eexists. split; [left; reflexivity | intros []].
Qed.


(** ** The checker on the rewriter's output *)

Section Closure.

Context {collab : Collaborators}.

Lemma rewrite_group_flags (q1 q2 : Query) :
  rewrite_group q1 = Ok q2 ->
  distinctClause q2 = distinctClause q1 /\ hasAggs q2 = hasAggs q1.
Proof.
  unfold rewrite_group. intros H.
  destruct (negb (is_nil (groupClause q1))).
  - inv_bind H. injection H as <-. auto.
  - destruct (negb (hasAggs q1) && negb (is_nil (distinctClause q1))).
    + inv_bind H. injection H as <-. destruct q1. auto.
    + injection H as <-. auto.
Qed.

Lemma rewrite_aggs_flags (colNames : list string) (q2 q3 : Query) :
  rewrite_aggs colNames q2 = Ok q3 ->
  distinctClause q3 = distinctClause q2 /\ hasAggs q3 = hasAggs q2.
Proof.
  unfold rewrite_aggs. intros H. destruct (hasAggs q2) eqn:E.
  - inv_bind H. injection H as <-. destruct q2. auto.
  - injection H as <-. auto.
Qed.

(** With DISTINCT or aggregates the rewritten target list ends with the
    count-star column. *)
Lemma rewrite_count_last (q3 rewritten : Query) :
  distinctClause q3 <> [] \/ hasAggs q3 = true ->
  rewrite_count q3 = Ok rewritten ->
  exists node,
    targetList rewritten =
      targetList q3 ++ [makeTargetEntry node (next_free_resno (targetList q3))
                          (Some "__ivm_count__") false].
Proof.
  intros Hq. unfold rewrite_count.
  assert (Hc : negb (is_nil (distinctClause q3)) || hasAggs q3 = true).
  { destruct Hq as [Hd | ->]; [|apply orb_true_r].
    destruct (distinctClause q3); [contradiction | reflexivity]. }
  rewrite Hc. intros H. inv_bind H. injection H as <-.
  exists x. destruct q3. reflexivity.
Qed.

Lemma rewrite_unchanged (query rewritten : Query) (colNames : list string) :
  hasSubLinks query = false ->
  distinctClause query = [] ->
  hasAggs query = false ->
  rewriteQueryForIMMV query colNames = Ok rewritten ->
  rewritten = query.
Proof.
  intros Hsl Hd Ha. unfold rewriteQueryForIMMV, rewrite_exists.
  rewrite Hsl. simpl. intros H. inv_bind H.
  assert (x = query) as ->.
  { unfold rewrite_group in Hx. rewrite Ha, Hd in Hx. simpl in Hx.
    destruct (negb (is_nil (groupClause query))).
    - inv_bind Hx. congruence.
    - congruence. }
  unfold rewrite_aggs in H. rewrite Ha in H. simpl in H.
  unfold rewrite_count in H. rewrite Ha, Hd in H. simpl in H. congruence.
Qed.

(** C1, as amended.  A successful rewrite of a query without sublinks,
    DISTINCT clause and aggregates returns the query itself, so the
    checker accepts the output whenever it accepts the input.  When the
    query (after the EXISTS step) has a DISTINCT clause or aggregates,
    the checker rejects the output: its last column is named
    [__ivm_count__]. *)
Theorem rewrite_closure (query rewritten : Query) (colNames : list string) :
  rewriteQueryForIMMV query colNames = Ok rewritten ->
  (hasSubLinks query = false -> distinctClause query = [] ->
   hasAggs query = false ->
   rewritten = query
   /\ (check_ivm_restriction (T_Query query) = Ok tt ->
       check_ivm_restriction (T_Query rewritten) = Ok tt))
  /\ (forall q1,
        rewrite_exists query = Ok q1 ->
        distinctClause q1 <> [] \/ hasAggs q1 = true ->
        exists e, check_ivm_restriction (T_Query rewritten) = Error e).
Proof.
  intros H. split.
  - intros Hsl Hd Ha.
    rewrite (rewrite_unchanged query rewritten colNames Hsl Hd Ha H).
    auto.
  - intros q1 Hex Hq. unfold rewriteQueryForIMMV in H. rewrite Hex in H.
    simpl in H. inv_bind_as H q2 H2. inv_bind_as H q3 H3.
    apply rewrite_group_flags in H2. apply rewrite_aggs_flags in H3.
    destruct H2 as [D2 A2], H3 as [D3 A3].
    assert (Hq3 : distinctClause q3 <> [] \/ hasAggs q3 = true)
      by (rewrite D3, D2, A3, A2; exact Hq).
    destruct (rewrite_count_last q3 rewritten Hq3 H) as (node & Htl).
    unfold check_ivm_restriction. simpl.
    destruct (walker_Query_rejected rewritten initial_context
                (targetList q3) [] _ Htl) as (e & He).
    + intros c'. rewrite walker_TargetEntry_eq. simpl. eauto.
    + rewrite He. simpl. eauto.
Qed.

End Closure.

(** C1 as stated fails: the checker accepts
    [SELECT DISTINCT t1.a, t1.b FROM t1] and rejects its rewriting for
    the name of the column that the rewriter appends. *)
Lemma rewrite_closure_counterexample :
  check_ivm_restriction (collab := Sample.collab) (T_Query Sample.q_distinct)
    = Ok tt
  /\ exists rewritten,
       rewriteQueryForIMMV (collab := Sample.collab) Sample.q_distinct []
         = Ok rewritten
       /\ check_ivm_restriction (collab := Sample.collab) (T_Query rewritten)
          = Error (E_ColumnName (Some "__ivm_count__")).
Proof.
  split; [reflexivity|]. eexists. split; reflexivity.
Qed.

(** ** The primary-key analyser and the index provisioner *)

Section PrimaryKeys.

Context {collab : Collaborators}.

#[local] Abbreviation F := FirstLowInvalidHeapAttributeNumber.

(** *** The first loop *)



(** *** The scan of the target list *)




Lemma list_nth_Ok {A} (l : list A) (n : Z) (x : A) :
  list_nth l n = Ok x -> 0 <= n /\ nth_error l (Z.to_nat n) = Some x.
Proof.
  unfold list_nth. destruct (Z.ltb_spec n 0); [discriminate|].
  destruct (nth_error l (Z.to_nat n)); [|discriminate].
  intros Heq. injection Heq as <-. auto.
Qed.



(** *** The third loop *)



(** *** get_primary_key_attnos_from_query *)





End PrimaryKeys.

(** C6.  The analyser on [SELECT t1.a FROM t1, t2], where both tables
    have the primary key [a]: the restriction check accepts the query;
    [t2] is in the range table and in the FROM list, and no target
    entry projects its key column; yet the relations that
    [pull_varnos_of_level] finds in the join tree do not include [t2],
    which no qualifier mentions, so the analyser returns the key set of
    the first target column instead of NULL, and the index provisioner
    creates the unique index on [a], depending on both primary-key
    constraints. *)
Theorem partial_key_set_for_unmentioned_relation :
  let q := Sample.q_unmentioned in
  check_ivm_restriction (collab := Sample.collab) (T_Query q) = Ok tt
  /\ inline_ctes (collab := Sample.collab) q = q
  /\ nth_error (rtable q) 1 = Some (Sample.table 16385)
  /\ jointree q = Some (T_FromExpr [T_RangeTblRef 1; T_RangeTblRef 2] None)
  /\ fst (get_primary_key_attnos (Collaborators := Sample.collab) 16385)
     = Some [1 - FirstLowInvalidHeapAttributeNumber]
  /\ (forall t, In t (targetList q) ->
        ~ projects (collab := Sample.collab) q 2 1 t)
  /\ pull_varnos_of_level (Collaborators := Sample.collab) (jointree q) 0
     = []
  /\ get_primary_key_attnos_from_query (collab := Sample.collab) 5 q [] true
     = Ok (Some [1 - FirstLowInvalidHeapAttributeNumber], [17384; 17385])
  /\ CreateIndexOnIMMV (collab := Sample.collab) 5 q Sample.mv true
     = Ok (IndexCreated (mkIndexStmt "mv_index" true true "btree" ["a"])
                        [17384; 17385]).
Proof.
  cbv zeta. repeat (split; [reflexivity|]).
  split; [|repeat (split; [reflexivity|]); reflexivity].
  intros t [<-|[]] (t' & v & Hfl & He & Hno & _).
  injection Hfl as <-. injection He as <-. discriminate Hno.
Qed.

(** ** What an accepted query looks like

    The checker rejects by raising; read the other way round, a query
    that it accepts has none of the constructs it raises on, at any
    place it walks. *)

Section Walked.

Context {collab : Collaborators}.

#[local] Abbreviation context := check_ivm_restriction_context.
#[local] Abbreviation walker := check_ivm_restriction_walker.

Lemma is_nested_kept (c c' : context) :
  context_kept c c' -> is_nested c' = is_nested c.
Proof.
  intros [H _]. unfold is_nested. rewrite H. reflexivity.
Qed.

(** A successful walk over a list has succeeded on each element. *)
Lemma walk_list_Ok_In {A} (f : A -> context -> result context) (l : list A) :
  forall c c', walk_list f l c = Ok c' ->
  forall x, In x l -> exists cx cx', f x cx = Ok cx'.
Proof.
  induction l as [|y l IH]; intros c c' H x Hin; [contradiction|].
  simpl in H. inv_bind_as H c1 H1. destruct Hin as [<-|Hin].
  - eauto.
  - eapply IH; eassumption.
Qed.

Section WalksOnly.

Variable R : bool -> Query -> Prop.
Hypothesis R_checked :
  forall q c c', walker_Query q c = Ok c' -> R (is_nested c) q.

Lemma walk_list_walks_only_at {A} (f : A -> context -> result context)
  (walked : bool -> A -> list (bool * Query)) (l : list A) :
  (forall x, keeps f x) ->
  Forall (walks_only R f walked) l ->
  forall c0 c c', walk_list f l c = Ok c' -> is_nested c = is_nested c0 ->
  forall b q, In (b, q) (flat_map (walked (is_nested c0)) l) -> R b q.
Proof.
  intros Hk. induction 1 as [|x l Hx _ IH]; intros c0 c c' H Hn b q Hin.
  - contradiction.
  - simpl in H. inv_bind_as H c1 H1. simpl in Hin.
    apply in_app_or in Hin. destruct Hin as [Hin|Hin].
    + rewrite <- Hn in Hin. exact (Hx _ _ H1 _ _ Hin).
    + apply (IH c0 c1 c' H); [|exact Hin].
      rewrite (is_nested_kept _ _ (Hk x c c1 H1)). exact Hn.
Qed.

Lemma walk_opt_walks_only_at {A} (f : A -> context -> result context)
  (walked : bool -> A -> list (bool * Query)) (o : option A) :
  opt_all (walks_only R f walked) o ->
  forall c0 c c', walk_opt f o c = Ok c' -> is_nested c = is_nested c0 ->
  forall b q,
    In (b, q) (match o with Some n => walked (is_nested c0) n | None => [] end)
    -> R b q.
Proof.
  destruct o as [n|]; simpl; intros Hn c0 c c' H Heq b q Hin;
    [|contradiction].
  rewrite <- Heq in Hin. exact (Hn _ _ H _ _ Hin).
Qed.

Lemma walker_walks_only :
  (forall node, walks_only R walker queries_walked node)
  /\ (forall tle, walks_only R walker_TargetEntry TargetEntry_walked tle)
  /\ (forall cte, walks_only R walker_CommonTableExpr
                    (fun _ => CommonTableExpr_walked) cte)
  /\ (forall rte, walks_only R walker_RangeTblEntry
                    (fun _ => RangeTblEntry_walked) rte)
  /\ (forall qry, walks_only R walker_Query Query_walked qry).
Proof.
  pose proof walker_keeps_context as (Kn & Kt & Kc & Kr & Kq).
  apply (Node_mutind
           (walks_only R walker queries_walked)
           (walks_only R walker_TargetEntry TargetEntry_walked)
           (walks_only R walker_CommonTableExpr
              (fun _ => CommonTableExpr_walked))
           (walks_only R walker_RangeTblEntry
              (fun _ => RangeTblEntry_walked))
           (walks_only R walker_Query Query_walked)).
  - intros v c c' _ b q [].
  - intros ty v isnull c c' _ b q [].
  - intros fn tys args ord dis fil star _ _ c c' _ b q [].
  - intros fn args Hargs c c' H b q Hin.
    exact (walk_list_walks_only_at walker queries_walked args Kn Hargs
             c c c' H eq_refl b q Hin).
  - intros op args Hargs c c' H b q Hin.
    exact (walk_list_walks_only_at walker queries_walked args Kn Hargs
             c c c' H eq_refl b q Hin).
  - intros args Hargs c c' H b q Hin.
    exact (walk_list_walks_only_at walker queries_walked args Kn Hargs
             c c c' H eq_refl b q Hin).
  - (* T_SubLink *)
    intros ty test sub _ Hsub c c' H b q Hin. simpl in H, Hin.
    inv_bind H. inv_bind_as H c1 H1.
    destruct sub as [n|]; [|contradiction].
    exact (Hsub _ _ H1 _ _ Hin).
  - intros tle Ht. exact Ht.
  - intros rti c c' _ b q [].
  - (* T_JoinExpr *)
    intros jt larg rarg quals Hl Hr Hq c c' H b q Hin. simpl in H, Hin.
    inv_bind_as H c1 H1. inv_bind_as H c2 H2. inv_bind_as H c3 H3.
    assert (E1 : is_nested c1 = is_nested c).
    { destruct (IS_OUTER_JOIN jt).
      - inv_bind H1. injection H1 as <-. reflexivity.
      - injection H1 as <-. reflexivity. }
    assert (E2 : is_nested c2 = is_nested c).
    { rewrite <- E1. apply is_nested_kept.
      exact (walk_opt_walker_keeps _ _ _ H2). }
    assert (E3 : is_nested c3 = is_nested c).
    { rewrite <- E2. apply is_nested_kept.
      exact (walk_opt_walker_keeps _ _ _ H3). }
    apply in_app_or in Hin. destruct Hin as [Hin|Hin].
    { exact (walk_opt_walks_only_at walker queries_walked larg Hl
               c c1 c2 H2 E1 b q Hin). }
    apply in_app_or in Hin. destruct Hin as [Hin|Hin].
    { exact (walk_opt_walks_only_at walker queries_walked rarg Hr
               c c2 c3 H3 E2 b q Hin). }
    exact (walk_opt_walks_only_at walker queries_walked quals Hq
             c c3 c' H E3 b q Hin).
  - (* T_FromExpr *)
    intros fromlist quals Hl Hq c c' H b q Hin. simpl in H, Hin.
    inv_bind_as H c1 H1.
    apply in_app_or in Hin. destruct Hin as [Hin|Hin].
    { exact (walk_list_walks_only_at walker queries_walked fromlist Kn Hl
               c c c1 H1 eq_refl b q Hin). }
    refine (walk_opt_walks_only_at walker queries_walked quals Hq
              c c1 c' H _ b q Hin).
    apply is_nested_kept. exact (walk_list_walker_keeps _ _ _ H1).
  - intros cte Hc. exact Hc.
  - intros q Hq. exact Hq.
  - (* TargetEntry *)
    intros e no name ref junk He c c' H b q Hin. simpl in H, Hin.
    inv_bind H. exact (He _ _ H _ _ Hin).
  - (* CommonTableExpr *)
    intros name cq refcount Hcq c c' H b q Hin. simpl in H, Hin.
    inv_bind H. inv_bind_as H c1 H1.
    destruct cq as [n|]; [|contradiction].
    exact (Hcq _ _ H1 _ _ Hin).
  - (* RangeTblEntry *)
    intros kind oid rk ts sq lat Hsq c c' H b q Hin. simpl in H, Hin.
    inv_bind H.
    destruct kind, sq as [sq|]; try contradiction.
    inv_bind H. inv_bind_as H c1 H1.
    exact (Hsq _ _ H1 _ _ Hin).
  - (* Query *)
    intros aggs wf sl don rec ctes rt jt tl gc gs hq dc sc lo lc rm so
           Hctes Hrt Hjt Htl Hhq Hlo Hlc Hso c c' H b q Hin.
    pose proof (R_checked _ _ _ H) as Hhead.
    simpl in Hin. destruct Hin as [Heq|Hin].
    { injection Heq as <- <-. exact Hhead. }
    rewrite walker_Query_eq in H. inv_bind_as H u1 Hu1.
    inv_bind_as H u2 Hu2. inv_bind_as H c8 H8. clear H Hu1 Hu2 u1 u2.
    unfold walk_query_children in H8. simpl in H8.
    inv_bind_as H8 c1 H1. inv_bind_as H8 c2 H2. inv_bind_as H8 c3 H3.
    inv_bind_as H8 c4 H4. inv_bind_as H8 c5 H5. inv_bind_as H8 c6 H6.
    inv_bind_as H8 c7 H7.
    set (c0 := set_has_agg c (has_agg c || aggs)) in *.
    assert (E0 : is_nested c0 = is_nested c) by reflexivity.
    assert (E1 : is_nested c1 = is_nested c).
    { rewrite <- E0. apply is_nested_kept.
      refine (walk_list_keeps _ rt _ _ _ H1).
      apply Forall_forall. intros x _. apply Kr. }
    assert (E2 : is_nested c2 = is_nested c).
    { rewrite <- E1. apply is_nested_kept.
      refine (walk_list_keeps _ tl _ _ _ H2).
      apply Forall_forall. intros x _. apply Kt. }
    assert (E3 : is_nested c3 = is_nested c).
    { rewrite <- E2. apply is_nested_kept.
      exact (walk_opt_walker_keeps _ _ _ H3). }
    assert (E4 : is_nested c4 = is_nested c).
    { rewrite <- E3. apply is_nested_kept.
      exact (walk_opt_walker_keeps _ _ _ H4). }
    assert (E5 : is_nested c5 = is_nested c).
    { rewrite <- E4. apply is_nested_kept.
      exact (walk_opt_walker_keeps _ _ _ H5). }
    assert (E6 : is_nested c6 = is_nested c).
    { rewrite <- E5. apply is_nested_kept.
      exact (walk_opt_walker_keeps _ _ _ H6). }
    assert (E7 : is_nested c7 = is_nested c).
    { rewrite <- E6. apply is_nested_kept.
      exact (walk_opt_walker_keeps _ _ _ H7). }
    apply in_app_or in Hin. destruct Hin as [Hin|Hin].
    { exact (walk_list_walks_only_at walker_RangeTblEntry
               (fun _ => RangeTblEntry_walked) rt Kr Hrt
               c c0 c1 H1 E0 b q Hin). }
    apply in_app_or in Hin. destruct Hin as [Hin|Hin].
    { exact (walk_list_walks_only_at walker_TargetEntry TargetEntry_walked
               tl Kt Htl c c1 c2 H2 E1 b q Hin). }
    apply in_app_or in Hin. destruct Hin as [Hin|Hin].
    { exact (walk_opt_walks_only_at walker queries_walked jt Hjt
               c c2 c3 H3 E2 b q Hin). }
    apply in_app_or in Hin. destruct Hin as [Hin|Hin].
    { exact (walk_opt_walks_only_at walker queries_walked so Hso
               c c3 c4 H4 E3 b q Hin). }
    apply in_app_or in Hin. destruct Hin as [Hin|Hin].
    { exact (walk_opt_walks_only_at walker queries_walked hq Hhq
               c c4 c5 H5 E4 b q Hin). }
    apply in_app_or in Hin. destruct Hin as [Hin|Hin].
    { exact (walk_opt_walks_only_at walker queries_walked lo Hlo
               c c5 c6 H6 E5 b q Hin). }
    apply in_app_or in Hin. destruct Hin as [Hin|Hin].
    { exact (walk_opt_walks_only_at walker queries_walked lc Hlc
               c c6 c7 H7 E6 b q Hin). }
    exact (walk_list_walks_only_at walker_CommonTableExpr
             (fun _ => CommonTableExpr_walked) ctes Kc Hctes
             c c7 c8 H8 E7 b q Hin).
Qed.

(** Every query checked in the course of an accepted check satisfies
    what the head of the [T_Query] case establishes. *)
Lemma check_ivm_restriction_walks_only (qry : Query) :
  check_ivm_restriction (T_Query qry) = Ok tt ->
  forall b q, In (b, q) (queries_walked false (T_Query qry)) -> R b q.
Proof.
  intros H b q Hin. unfold check_ivm_restriction in H.
  inv_bind_as H c' Hw.
  exact (proj1 walker_walks_only (T_Query qry) _ _ Hw b q Hin).
Qed.

End WalksOnly.

End Walked.

(** *** What the walker never undoes *)

Section WalkerGrows.

Context {collab : Collaborators}.

#[local] Abbreviation context := check_ivm_restriction_context.
#[local] Abbreviation walker := check_ivm_restriction_walker.

Lemma context_grows_refl (c : context) : context_grows c c.
Proof. repeat split; auto. Qed.

Lemma context_grows_trans (c1 c2 c3 : context) :
  context_grows c1 c2 -> context_grows c2 c3 -> context_grows c1 c3.
Proof.
  intros (A1 & S1 & J1) (A2 & S2 & J2). repeat split; auto.
Qed.

Lemma walk_list_grows {A} (f : A -> context -> result context) (l : list A) :
  Forall (grows f) l ->
  forall c c', walk_list f l c = Ok c' -> context_grows c c'.
Proof.
  induction 1 as [|x l Hx _ IH]; intros c c' H; simpl in H.
  - injection H as <-. apply context_grows_refl.
  - inv_bind_as H c1 H1.
    eapply context_grows_trans; [exact (Hx _ _ H1) | exact (IH _ _ H)].
Qed.

Lemma walk_opt_grows {A} (f : A -> context -> result context) (o : option A) :
  opt_all (grows f) o ->
  forall c c', walk_opt f o c = Ok c' -> context_grows c c'.
Proof.
  destruct o as [n|]; simpl; intros Hn c c' H.
  - exact (Hn _ _ H).
  - injection H as <-. apply context_grows_refl.
Qed.

(** A walk one level down, as the sublink, CTE and subquery cases make
    it: the context goes down changed in fields that [context_grows]
    does not look at, and comes back up likewise. *)
Lemma nested_walk_grows {A} (f : A -> context -> result context)
  (o : option A) (c c0 c1 c' : context) :
  opt_all (grows f) o ->
  context_grows c c0 -> walk_opt f o c0 = Ok c1 -> context_grows c1 c' ->
  context_grows c c'.
Proof.
  intros Ho H0 H H1.
  eapply context_grows_trans; [exact H0|].
  eapply context_grows_trans; [exact (walk_opt_grows f o Ho _ _ H) | exact H1].
Qed.

Lemma walker_grows_context :
  (forall node, grows walker node)
  /\ (forall tle, grows walker_TargetEntry tle)
  /\ (forall cte, grows walker_CommonTableExpr cte)
  /\ (forall rte, grows walker_RangeTblEntry rte)
  /\ (forall qry, grows walker_Query qry).
Proof.
  apply (Node_mutind (grows walker) (grows walker_TargetEntry)
           (grows walker_CommonTableExpr) (grows walker_RangeTblEntry)
           (grows walker_Query)).
  - (* T_Var *)
    intros v c c' H. simpl in H.
    destruct (_ && _); injection H as <-; repeat split; auto.
  - intros ty v isnull c c' H. injection H as <-. apply context_grows_refl.
  - intros fn tys args ord dis fil star _ _ c c' H. simpl in H.
    inv_bind H. injection H as <-. apply context_grows_refl.
  - intros fn args Hargs c c'. now apply walk_list_grows.
  - intros op args Hargs c c'. now apply walk_list_grows.
  - intros args Hargs c c'. now apply walk_list_grows.
  - (* T_SubLink *)
    intros ty test sub _ Hsub c c' H. simpl in H.
    inv_bind H. inv_bind_as H c1 H1. injection H as <-.
    refine (nested_walk_grows walker sub c _ c1 _ Hsub _ H1 _);
      repeat split; auto.
  - intros tle Ht. exact Ht.
  - intros rti c c' H. injection H as <-. apply context_grows_refl.
  - (* T_JoinExpr *)
    intros jt larg rarg quals Hl Hr Hq c c' H. simpl in H.
    inv_bind_as H c1 H1. inv_bind_as H c2 H2. inv_bind_as H c3 H3.
    assert (G1 : context_grows c c1).
    { destruct (IS_OUTER_JOIN jt).
      - inv_bind H1. injection H1 as <-. repeat split; auto.
        simpl. intros q Hq0. apply in_or_app. now left.
      - injection H1 as <-. apply context_grows_refl. }
    eapply context_grows_trans; [exact G1|].
    eapply context_grows_trans; [exact (walk_opt_grows _ _ Hl _ _ H2)|].
    eapply context_grows_trans; [exact (walk_opt_grows _ _ Hr _ _ H3)|].
    exact (walk_opt_grows _ _ Hq _ _ H).
  - (* T_FromExpr *)
    intros fromlist quals Hl Hq c c' H. simpl in H. inv_bind_as H c1 H1.
    eapply context_grows_trans;
      [exact (walk_list_grows _ _ Hl _ _ H1)
      | exact (walk_opt_grows _ _ Hq _ _ H)].
  - intros cte Hc. exact Hc.
  - intros q Hq. exact Hq.
  - (* TargetEntry *)
    intros e no name ref junk He c c' H. simpl in H. inv_bind H.
    exact (He _ _ H).
  - (* CommonTableExpr *)
    intros name cq refcount Hcq c c' H. simpl in H.
    inv_bind H. inv_bind_as H c1 H1. injection H as <-.
    refine (nested_walk_grows walker cq c _ c1 _ Hcq _ H1 _);
      repeat split; auto.
  - (* RangeTblEntry *)
    intros kind oid rk ts sq lat Hsq c c' H. simpl in H. inv_bind H.
    destruct kind; try (injection H as <-; apply context_grows_refl).
    inv_bind H. inv_bind_as H c1 H1. injection H as <-.
    refine (nested_walk_grows walker_Query sq c _ c1 _ Hsq _ H1 _);
      repeat split; auto.
  - (* Query *)
    intros aggs wf sl don rec ctes rt jt tl gc gs hq dc sc lo lc rm so
           Hctes Hrt Hjt Htl Hhq Hlo Hlc Hso c c' H.
    rewrite walker_Query_eq in H. inv_bind_as H u1 Hu1.
    inv_bind_as H u2 Hu2. inv_bind_as H c8 H8.
    inv_bind_as H u3 Hu3. inv_bind_as H u4 Hu4. injection H as <-.
    unfold walk_query_children in H8. simpl in H8.
    inv_bind_as H8 c1 H1. inv_bind_as H8 c2 H2. inv_bind_as H8 c3 H3.
    inv_bind_as H8 c4 H4. inv_bind_as H8 c5 H5. inv_bind_as H8 c6 H6.
    inv_bind_as H8 c7 H7.
    eapply context_grows_trans.
    { instantiate (1 := set_has_agg c (has_agg c || aggs)).
      repeat split; auto. simpl. intros ->. reflexivity. }
    eapply context_grows_trans; [exact (walk_list_grows _ _ Hrt _ _ H1)|].
    eapply context_grows_trans; [exact (walk_list_grows _ _ Htl _ _ H2)|].
    eapply context_grows_trans; [exact (walk_opt_grows _ _ Hjt _ _ H3)|].
    eapply context_grows_trans; [exact (walk_opt_grows _ _ Hso _ _ H4)|].
    eapply context_grows_trans; [exact (walk_opt_grows _ _ Hhq _ _ H5)|].
    eapply context_grows_trans; [exact (walk_opt_grows _ _ Hlo _ _ H6)|].
    eapply context_grows_trans; [exact (walk_opt_grows _ _ Hlc _ _ H7)|].
    exact (walk_list_grows _ _ Hctes _ _ H8).
Qed.

Lemma walker_grows (node : Node) (c c' : context) :
  walker node c = Ok c' -> context_grows c c'.
Proof. apply walker_grows_context. Qed.

Lemma walk_opt_walker_grows (o : option Node) (c c' : context) :
  walk_opt walker o c = Ok c' -> context_grows c c'.
Proof.
  apply walk_opt_grows. destruct o; simpl; [|exact I].
  intros c1 c2. apply walker_grows.
Qed.

Lemma walk_list_walker_grows (l : list Node) (c c' : context) :
  walk_list walker l c = Ok c' -> context_grows c c'.
Proof.
  apply walk_list_grows. apply Forall_forall. intros n _ c1 c2.
  apply walker_grows.
Qed.

Lemma walk_list_TargetEntry_grows (l : list TargetEntry) (c c' : context) :
  walk_list walker_TargetEntry l c = Ok c' -> context_grows c c'.
Proof.
  apply walk_list_grows. apply Forall_forall. intros n _.
  apply walker_grows_context.
Qed.

Lemma walk_list_RangeTblEntry_grows (l : list RangeTblEntry) (c c' : context) :
  walk_list walker_RangeTblEntry l c = Ok c' -> context_grows c c'.
Proof.
  apply walk_list_grows. apply Forall_forall. intros n _.
  apply walker_grows_context.
Qed.

(** A successful walk over a list has succeeded on each element, in a
    context grown from the one the walk started in. *)
Lemma walk_list_Ok_grown {A} (f : A -> context -> result context)
  (l : list A) :
  (forall x, grows f x) ->
  forall c c', walk_list f l c = Ok c' ->
  forall x, In x l ->
    exists cx cx', f x cx = Ok cx' /\ context_grows c cx
                   /\ context_grows cx' c'.
Proof.
  intros Hg. induction l as [|y l IH]; intros c c' H x Hin; [contradiction|].
  simpl in H. inv_bind_as H c1 H1. destruct Hin as [<-|Hin].
  - exists c, c1. split; [exact H1|]. split; [apply context_grows_refl|].
    apply (walk_list_grows f l); [|exact H].
    apply Forall_forall. intros z _. apply Hg.
  - destruct (IH _ _ H x Hin) as (cx & cx' & Hf & G1 & G2).
    exists cx, cx'. split; [exact Hf|]. split; [|exact G2].
    eapply context_grows_trans; [exact (Hg _ _ _ H1) | exact G1].
Qed.

End WalkerGrows.

(** *** Accepted queries *)

Section Accepted.

Context {collab : Collaborators}.

#[local] Abbreviation context := check_ivm_restriction_context.
#[local] Abbreviation walker := check_ivm_restriction_walker.

Lemma is_some_false {A} (o : option A) : is_some o = false -> o = None.
Proof. destruct o; [discriminate | reflexivity]. Qed.

Lemma not_is_nil_false {A} (l : list A) : negb (is_nil l) = false -> l = [].
Proof. destruct l; [reflexivity | discriminate]. Qed.

Lemma check_query_clauses_Ok (q : Query) :
  check_query_clauses q = Ok tt ->
  havingQual q = None /\ sortClause q = [] /\ limitOffset q = None
  /\ limitCount q = None /\ hasDistinctOn q = false
  /\ hasWindowFuncs q = false /\ groupingSets q = false
  /\ setOperations q = None /\ targetList q <> [] /\ rowMarks q = false
  /\ hasRecursive q = false
  /\ forall v, In v (pull_vars_of_level (T_Query q) 0) -> 0 <= varattno v.
Proof.
  unfold check_query_clauses. intros H.
  apply raise_if_Ok_inv in H. destruct H as [H1 H].
  apply raise_if_Ok_inv in H. destruct H as [H2 H].
  apply raise_if_Ok_inv in H. destruct H as [H3 H].
  apply raise_if_Ok_inv in H. destruct H as [H4 H].
  apply raise_if_Ok_inv in H. destruct H as [H5 H].
  apply raise_if_Ok_inv in H. destruct H as [H6 H].
  apply raise_if_Ok_inv in H. destruct H as [H7 H].
  apply raise_if_Ok_inv in H. destruct H as [H8 H].
  apply raise_if_Ok_inv in H. destruct H as [H9 H].
  apply raise_if_Ok_inv in H. destruct H as [H10 H].
  apply raise_if_Ok_inv in H. destruct H as [H11 _].
  apply orb_false_iff in H3. destruct H3 as [H3 H3'].
  repeat split; auto using is_some_false, not_is_nil_false.
  - intros Htl. rewrite Htl in H8. discriminate.
  - intros v Hv. apply Z.ltb_ge.
    destruct (varattno v <? 0) eqn:E; [|reflexivity].
    assert (Hex : existsb (fun var => varattno var <? 0)
                    (pull_vars_of_level (T_Query q) 0) = true).
    { apply existsb_exists. exists v. auto. }
    congruence.
Qed.

(** X1.  A query that the restriction check accepts has, at the top and
    in every query the checker walks into (subqueries of the range
    table, CTE bodies, EXISTS bodies), no HAVING, ORDER BY, LIMIT or
    OFFSET, DISTINCT ON, window function, grouping set, set operation,
    row mark or recursive CTE, a target list that is not empty and no
    system column; the nested ones have no DISTINCT and no aggregate
    either. *)
Theorem accepted_query_clauses (qry : Query) :
  check_ivm_restriction (T_Query qry) = Ok tt ->
  forall nested q, In (nested, q) (queries_walked false (T_Query qry)) ->
    (havingQual q = None /\ sortClause q = [] /\ limitOffset q = None
     /\ limitCount q = None /\ hasDistinctOn q = false
     /\ hasWindowFuncs q = false /\ groupingSets q = false
     /\ setOperations q = None /\ targetList q <> [] /\ rowMarks q = false
     /\ hasRecursive q = false
     /\ forall v, In v (pull_vars_of_level (T_Query q) 0) -> 0 <= varattno v)
    /\ (nested = true -> distinctClause q = [] /\ hasAggs q = false).
Proof.
  intros Hacc.
  apply (check_ivm_restriction_walks_only
           (fun nested q =>
              (havingQual q = None /\ sortClause q = []
               /\ limitOffset q = None /\ limitCount q = None
               /\ hasDistinctOn q = false /\ hasWindowFuncs q = false
               /\ groupingSets q = false /\ setOperations q = None
               /\ targetList q <> [] /\ rowMarks q = false
               /\ hasRecursive q = false
               /\ forall v, In v (pull_vars_of_level (T_Query q) 0) ->
                            0 <= varattno v)
              /\ (nested = true ->
                  distinctClause q = [] /\ hasAggs q = false)));
    [|exact Hacc].
  intros q c c' H. rewrite walker_Query_eq in H.
  inv_bind_as H u1 Hu1. inv_bind_as H u2 Hu2. destruct u1.
  split; [exact (check_query_clauses_Ok q Hu1)|].
  intros Hn. unfold check_nested_query in Hu2.
  change (Nat.ltb 0 (sublevels_up c)) with (is_nested c) in Hu2.
  rewrite Hn in Hu2. simpl in Hu2.
  apply raise_if_Ok_inv in Hu2. destruct Hu2 as [D Hu2].
  apply raise_if_Ok_inv in Hu2. destruct Hu2 as [A _].
  split; [now apply not_is_nil_false | exact A].
Qed.

Lemma check_rte_kind_Ok (rte : RangeTblEntry) :
  check_rte_kind rte = Ok tt ->
  tablesample rte = false
  /\ relkind rte <> RELKIND_PARTITIONED_TABLE
  /\ (relkind rte = RELKIND_RELATION ->
      has_superclass (relid rte) = false
      /\ find_inheritance_children (relid rte) = [])
  /\ relkind rte <> RELKIND_FOREIGN_TABLE
  /\ relkind rte <> RELKIND_VIEW
  /\ relkind rte <> RELKIND_MATVIEW
  /\ rtekind rte <> RTE_VALUES.
Proof.
  unfold check_rte_kind. intros H.
  apply raise_if_Ok_inv in H. destruct H as [H1 H].
  apply raise_if_Ok_inv in H. destruct H as [H2 H].
  apply raise_if_Ok_inv in H. destruct H as [H3 H].
  apply raise_if_Ok_inv in H. destruct H as [H4 H].
  apply raise_if_Ok_inv in H. destruct H as [H5 H].
  apply raise_if_Ok_inv in H. destruct H as [H6 H].
  apply raise_if_Ok_inv in H. destruct H as [H7 _].
  split; [exact H1|].
  split; [intros E; rewrite E in H2; discriminate|].
  split.
  { intros E. rewrite E in H3, H4. simpl in H3, H4.
    split; [exact H3 | now apply not_is_nil_false]. }
  split; [intros E; rewrite E in H5; discriminate|].
  split; [intros E; rewrite E in H6; discriminate|].
  split; [intros E; rewrite E in H6; discriminate|].
  intros E; rewrite E in H7; discriminate.
Qed.

Lemma walker_RangeTblEntry_Ok (rte : RangeTblEntry) (c c' : context) :
  walker_RangeTblEntry rte c = Ok c' -> check_rte_kind rte = Ok tt.
Proof.
  destruct rte as [kind oid rk ts sq lat]. simpl. intros H.
  inv_bind_as H u Hu. destruct u. exact Hu.
Qed.

(** X2.  In a query that the restriction check accepts, every entry of
    the range table of every query walked is free of TABLESAMPLE, is no
    partitioned table, partition, inheritance parent, foreign table,
    view or materialized view, and is no VALUES list. *)
Theorem accepted_range_tables (qry : Query) :
  check_ivm_restriction (T_Query qry) = Ok tt ->
  forall nested q rte,
    In (nested, q) (queries_walked false (T_Query qry)) ->
    In rte (rtable q) ->
    tablesample rte = false
    /\ relkind rte <> RELKIND_PARTITIONED_TABLE
    /\ (relkind rte = RELKIND_RELATION ->
        has_superclass (relid rte) = false
        /\ find_inheritance_children (relid rte) = [])
    /\ relkind rte <> RELKIND_FOREIGN_TABLE
    /\ relkind rte <> RELKIND_VIEW
    /\ relkind rte <> RELKIND_MATVIEW
    /\ rtekind rte <> RTE_VALUES.
Proof.
  intros Hacc nested q rte Hq.
  revert rte.
  apply (check_ivm_restriction_walks_only
           (fun _ q => forall rte, In rte (rtable q) ->
              tablesample rte = false
              /\ relkind rte <> RELKIND_PARTITIONED_TABLE
              /\ (relkind rte = RELKIND_RELATION ->
                  has_superclass (relid rte) = false
                  /\ find_inheritance_children (relid rte) = [])
              /\ relkind rte <> RELKIND_FOREIGN_TABLE
              /\ relkind rte <> RELKIND_VIEW
              /\ relkind rte <> RELKIND_MATVIEW
              /\ rtekind rte <> RTE_VALUES) ) with (3 := Hq);
    [|exact Hacc].
  clear. intros q c c' H rte Hin. rewrite walker_Query_eq in H.
  inv_bind_as H u1 Hu1. inv_bind_as H u2 Hu2. inv_bind_as H c8 H8.
  unfold walk_query_children in H8. inv_bind_as H8 c1 H1.
  destruct (walk_list_Ok_In _ _ _ _ H1 rte Hin) as (cx & cx' & Hr).
  apply check_rte_kind_Ok. exact (walker_RangeTblEntry_Ok _ _ _ Hr).
Qed.

Lemma walker_CommonTableExpr_Ok (cte : CommonTableExpr) (c c' : context) :
  walker_CommonTableExpr cte c = Ok c' -> isIvmName (ctename cte) = false.
Proof.
  destruct cte as [name cq refcount]. simpl. intros H.
  apply raise_if_Ok_inv in H. exact (proj1 H).
Qed.

Lemma check_target_entry_Ok (tle : TargetEntry) (c : context) :
  check_target_entry tle c = Ok tt ->
  isIvmName (resname tle) = false
  /\ (has_agg c && negb (IsA_Aggref (expr tle))
      && contain_aggs_of_level (expr tle) 0 = false)
  /\ IsA_SubLink (expr tle) = false.
Proof.
  unfold check_target_entry. intros H.
  apply raise_if_Ok_inv in H. destruct H as [H1 H].
  apply raise_if_Ok_inv in H. destruct H as [H2 H].
  apply raise_if_Ok_inv in H. destruct H as [H3 _].
  auto.
Qed.

(** X3.  In a query that the restriction check accepts, no output
    column and no CTE of any query walked has a name that [isIvmName]
    reserves, and no target expression is itself a sublink. *)
Theorem accepted_names (qry : Query) :
  check_ivm_restriction (T_Query qry) = Ok tt ->
  forall nested q, In (nested, q) (queries_walked false (T_Query qry)) ->
    (forall tle, In tle (targetList q) ->
       isIvmName (resname tle) = false /\ IsA_SubLink (expr tle) = false)
    /\ (forall cte, In cte (cteList q) -> isIvmName (ctename cte) = false).
Proof.
  intros Hacc.
  apply (check_ivm_restriction_walks_only
           (fun _ q =>
              (forall tle, In tle (targetList q) ->
                 isIvmName (resname tle) = false
                 /\ IsA_SubLink (expr tle) = false)
              /\ (forall cte, In cte (cteList q) ->
                    isIvmName (ctename cte) = false)));
    [|exact Hacc].
  clear. intros q c c' H. rewrite walker_Query_eq in H.
  inv_bind_as H u1 Hu1. inv_bind_as H u2 Hu2. inv_bind_as H c8 H8.
  unfold walk_query_children in H8.
  inv_bind_as H8 c1 H1. inv_bind_as H8 c2 H2. inv_bind_as H8 c3 H3.
  inv_bind_as H8 c4 H4. inv_bind_as H8 c5 H5. inv_bind_as H8 c6 H6.
  inv_bind_as H8 c7 H7.
  split.
  - intros tle Hin.
    destruct (walk_list_Ok_In _ _ _ _ H2 tle Hin) as (cx & cx' & Ht).
    rewrite walker_TargetEntry_eq in Ht. inv_bind_as Ht u Hu. destruct u.
    apply check_target_entry_Ok in Hu. tauto.
  - intros cte Hin.
    destruct (walk_list_Ok_In _ _ _ _ H8 cte Hin) as (cx & cx' & Hc).
    exact (walker_CommonTableExpr_Ok _ _ _ Hc).
Qed.

Lemma check_aggref_Ok fn (ord dis : list SortGroupClause) (fil : option Node) :
  check_aggref fn ord dis fil = Ok tt ->
  fil = None /\ dis = [] /\ ord = []
  /\ check_aggregate_supports_ivm fn = true.
Proof.
  unfold check_aggref. intros H.
  apply raise_if_Ok_inv in H. destruct H as [H1 H].
  apply raise_if_Ok_inv in H. destruct H as [H2 H].
  apply raise_if_Ok_inv in H. destruct H as [H3 H].
  apply raise_if_Ok_inv in H. destruct H as [H4 _].
  repeat split; auto using is_some_false, not_is_nil_false.
  now apply negb_false_iff.
Qed.

(** X4.  In a query that the restriction check accepts, every target
    entry that is an aggregate, in any query walked, has no FILTER, no
    DISTINCT and no ORDER BY and calls a function that
    [check_aggregate_supports_ivm] lists; and when the query is flagged
    as having aggregates, a target expression of its own that contains
    an aggregate is that aggregate. *)
Theorem accepted_aggregates (qry : Query) :
  check_ivm_restriction (T_Query qry) = Ok tt ->
  (forall nested q tle fn tys args ord dis fil star,
     In (nested, q) (queries_walked false (T_Query qry)) ->
     In tle (targetList q) ->
     expr tle = T_Aggref fn tys args ord dis fil star ->
     fil = None /\ dis = [] /\ ord = []
     /\ check_aggregate_supports_ivm fn = true)
  /\ (hasAggs qry = true ->
      forall tle, In tle (targetList qry) ->
        contain_aggs_of_level (expr tle) 0 = true ->
        IsA_Aggref (expr tle) = true).
Proof.
  intros Hacc. split.
  - intros nested q tle fn tys args ord dis fil star Hq.
    revert tle fn tys args ord dis fil star.
    apply (check_ivm_restriction_walks_only
             (fun _ q =>
                forall tle fn tys args ord dis fil star,
                  In tle (targetList q) ->
                  expr tle = T_Aggref fn tys args ord dis fil star ->
                  fil = None /\ dis = [] /\ ord = []
                  /\ check_aggregate_supports_ivm fn = true))
      with (3 := Hq); [|exact Hacc].
    clear. intros q c c' H tle fn tys args ord dis fil star Hin He.
    rewrite walker_Query_eq in H.
    inv_bind_as H u1 Hu1. inv_bind_as H u2 Hu2. inv_bind_as H c8 H8.
    unfold walk_query_children in H8.
    inv_bind_as H8 c1 H1. inv_bind_as H8 c2 H2.
    destruct (walk_list_Ok_In _ _ _ _ H2 tle Hin) as (cx & cx' & Ht).
    rewrite walker_TargetEntry_eq in Ht. inv_bind_as Ht u Hu.
    rewrite He in Ht. simpl in Ht. inv_bind_as Ht u' Hu'. destruct u'.
    exact (check_aggref_Ok _ _ _ _ Hu').
  - intros Haggs tle Hin Hc.
    rewrite check_ivm_restriction_eq in Hacc.
    inv_bind_as Hacc u1 Hu1. inv_bind_as Hacc c8 H8.
    unfold walk_query_children in H8.
    inv_bind_as H8 c1 H1. inv_bind_as H8 c2 H2.
    destruct (walk_list_Ok_grown walker_TargetEntry (targetList qry)
                (proj1 (proj2 walker_grows_context)) _ _ H2 tle Hin)
      as (cx & cx' & Ht & G & _).
    rewrite walker_TargetEntry_eq in Ht. inv_bind_as Ht u Hu. destruct u.
    apply check_target_entry_Ok in Hu. destruct Hu as (_ & Hu & _).
    apply walk_list_RangeTblEntry_grows in H1.
    assert (Hagg : has_agg cx = true).
    { apply G, H1. simpl. exact Haggs. }
    rewrite Hagg, Hc in Hu. simpl in Hu. rewrite andb_true_r in Hu.
    now apply negb_false_iff.
Qed.

End Accepted.

(** *** Accepted EXISTS subqueries *)

Section AcceptedExists.

Context {collab : Collaborators}.

#[local] Abbreviation context := check_ivm_restriction_context.
#[local] Abbreviation walker := check_ivm_restriction_walker.

Lemma collected_refl (c : context) : collected c c [].
Proof. unfold collected. now rewrite app_nil_r. Qed.

Lemma collected_trans (c c1 c2 : context) (v1 v2 : list Var) :
  collected c c1 v1 -> collected c1 c2 v2 -> collected c c2 (v1 ++ v2).
Proof.
  intros (F1 & S1 & E1) (F2 & S2 & E2). unfold collected.
  rewrite F2, S2, E2, F1, S1, E1, app_assoc. auto.
Qed.

Lemma collected_invariant (c c' : context) (vars : list Var) :
  (in_exists_subquery c = true -> (0 < sublevels_up c)%nat) ->
  collected c c' vars ->
  in_exists_subquery c' = true -> (0 < sublevels_up c')%nat.
Proof. intros Hi (F & S & _). rewrite F, S. exact Hi. Qed.

Lemma walk_list_collects {A} (f : A -> context -> result context)
  (vars : bool -> A -> list Var) (l : list A) :
  Forall (collects f vars) l ->
  collects (walk_list f) (fun b => flat_map (vars b)) l.
Proof.
  induction 1 as [|x l Hx _ IH]; intros c c' Hi H; simpl in H.
  - injection H as <-. apply collected_refl.
  - inv_bind_as H c1 H1. simpl.
    pose proof (Hx _ _ Hi H1) as C1.
    eapply collected_trans; [exact C1|].
    replace (in_exists_subquery c) with (in_exists_subquery c1)
      by (apply C1).
    apply IH; [|exact H]. exact (collected_invariant _ _ _ Hi C1).
Qed.

Lemma walk_opt_collects {A} (f : A -> context -> result context)
  (vars : bool -> A -> list Var) (o : option A) :
  opt_all (collects f vars) o ->
  collects (walk_opt f)
    (fun b o => match o with Some n => vars b n | None => [] end) o.
Proof.
  destruct o as [n|]; simpl; intros Hn c c' Hi H.
  - exact (Hn _ _ Hi H).
  - injection H as <-. apply collected_refl.
Qed.

(** One more step of a walk: from [c] the walk has reached [c1] with
    [v1] collected, and the rest of it collects [v2]. *)
Lemma collected_step (c c1 c2 : context) (v1 v2 : list Var) :
  (in_exists_subquery c = true -> (0 < sublevels_up c)%nat) ->
  collected c c1 v1 ->
  ((in_exists_subquery c1 = true -> (0 < sublevels_up c1)%nat) ->
   in_exists_subquery c1 = in_exists_subquery c ->
   collected c1 c2 v2) ->
  collected c c2 (v1 ++ v2).
Proof.
  intros Hi C1 C2. eapply collected_trans; [exact C1|].
  apply C2; [exact (collected_invariant _ _ _ Hi C1) | apply C1].
Qed.

Lemma collected_step0 (c c1 c2 : context) (v2 : list Var) :
  (in_exists_subquery c = true -> (0 < sublevels_up c)%nat) ->
  collected c c1 [] ->
  ((in_exists_subquery c1 = true -> (0 < sublevels_up c1)%nat) ->
   in_exists_subquery c1 = in_exists_subquery c ->
   collected c1 c2 v2) ->
  collected c c2 v2.
Proof. intros Hi C1 C2. exact (collected_step c c1 c2 [] v2 Hi C1 C2). Qed.

(** A walk one level down: the context goes down with the depth
    incremented and comes back with it decremented. *)
Lemma collected_nested (c c0 c1 c' : context) (vars : list Var) :
  in_exists_subquery c' = in_exists_subquery c ->
  sublevels_up c0 = S (sublevels_up c) ->
  exists_qual_vars c0 = exists_qual_vars c ->
  collected c0 c1 vars ->
  sublevels_up c' = Nat.pred (sublevels_up c1) ->
  exists_qual_vars c' = exists_qual_vars c1 ->
  collected c c' vars.
Proof.
  intros F S0 E0 (_ & S1 & E1) S' E'. unfold collected.
  rewrite S', S1, S0, E', E1, E0. auto.
Qed.

Lemma walker_collects_context :
  (forall node, collects walker vars_collected node)
  /\ (forall tle, collects walker_TargetEntry TargetEntry_vars_collected tle)
  /\ (forall cte, collects walker_CommonTableExpr
                    CommonTableExpr_vars_collected cte)
  /\ (forall rte, collects walker_RangeTblEntry
                    RangeTblEntry_vars_collected rte)
  /\ (forall qry, collects walker_Query Query_vars_collected qry).
Proof.
  apply (Node_mutind
           (collects walker vars_collected)
           (collects walker_TargetEntry TargetEntry_vars_collected)
           (collects walker_CommonTableExpr CommonTableExpr_vars_collected)
           (collects walker_RangeTblEntry RangeTblEntry_vars_collected)
           (collects walker_Query Query_vars_collected)).
  - (* T_Var *)
    intros v c c' _ H. simpl in H. simpl.
    destruct (Nat.ltb 0 (varlevelsup v) && in_exists_subquery c);
      injection H as <-; [repeat split | apply collected_refl].
  - intros ty v isnull c c' _ H. injection H as <-. apply collected_refl.
  - intros fn tys args ord dis fil star _ _ c c' _ H. simpl in H.
    inv_bind H. injection H as <-. apply collected_refl.
  - intros fn args Hargs.
    exact (walk_list_collects walker vars_collected args Hargs).
  - intros op args Hargs.
    exact (walk_list_collects walker vars_collected args Hargs).
  - intros args Hargs.
    exact (walk_list_collects walker vars_collected args Hargs).
  - (* T_SubLink *)
    intros ty test sub _ Hsub c c' Hi H. simpl in H.
    inv_bind_as H u Hu. inv_bind_as H c1 H1. injection H as <-.
    unfold check_sublink in Hu.
    apply raise_if_Ok_inv in Hu. destruct Hu as [_ Hu].
    apply raise_if_Ok_inv in Hu. destruct Hu as [Hs _].
    assert (Hf : in_exists_subquery c = false).
    { destruct (in_exists_subquery c); [|reflexivity].
      apply Nat.ltb_ge in Hs. specialize (Hi eq_refl). lia. }
    assert (I0 : in_exists_subquery
                   (incr_sublevels (set_in_exists_subquery c true)) = true ->
                 (0 < sublevels_up
                        (incr_sublevels (set_in_exists_subquery c true)))%nat).
    { intros _. simpl. lia. }
    pose proof (walk_opt_collects walker vars_collected sub Hsub _ _ I0 H1)
      as C1.
    simpl in C1.
    refine (collected_nested c _ c1 _ _ _ _ _ C1 _ _);
      simpl; auto.
  - intros tle Ht. exact Ht.
  - intros rti c c' _ H. injection H as <-. apply collected_refl.
  - (* T_JoinExpr *)
    intros jt larg rarg quals Hl Hr Hq c c' Hi H. simpl in H.
    inv_bind_as H c1 H1. inv_bind_as H c2 H2. inv_bind_as H c3 H3.
    assert (C1 : collected c c1 []).
    { destruct (IS_OUTER_JOIN jt).
      - inv_bind_as H1 u Hu. injection H1 as <-.
        unfold collected. simpl. now rewrite app_nil_r.
      - injection H1 as <-. apply collected_refl. }
    simpl.
    apply (collected_step0 c c1 c' _ Hi C1). intros I1 E1. rewrite <- E1.
    apply (collected_step c1 c2 c' _ _ I1).
    { exact (walk_opt_collects walker vars_collected larg Hl _ _ I1 H2). }
    intros I2 E2. rewrite <- E2.
    apply (collected_step c2 c3 c' _ _ I2).
    { exact (walk_opt_collects walker vars_collected rarg Hr _ _ I2 H3). }
    intros I3 E3. rewrite <- E3.
    exact (walk_opt_collects walker vars_collected quals Hq _ _ I3 H).
  - (* T_FromExpr *)
    intros fromlist quals Hl Hq c c' Hi H. simpl in H.
    inv_bind_as H c1 H1.
    simpl.
    apply (collected_step c c1 c' _ _ Hi).
    { exact (walk_list_collects walker vars_collected fromlist Hl _ _ Hi H1). }
    intros I1 E1. rewrite <- E1.
    exact (walk_opt_collects walker vars_collected quals Hq _ _ I1 H).
  - intros cte Hc. exact Hc.
  - intros q Hq. exact Hq.
  - (* TargetEntry *)
    intros e no name ref junk He c c' Hi H. simpl in H.
    inv_bind_as H u Hu. exact (He _ _ Hi H).
  - (* CommonTableExpr *)
    intros name cq refcount Hcq c c' Hi H. simpl in H.
    apply raise_if_Ok_inv in H. destruct H as [_ H].
    inv_bind_as H c1 H1. injection H as <-.
    assert (I0 : in_exists_subquery (incr_sublevels c) = true ->
                 (0 < sublevels_up (incr_sublevels c))%nat).
    { intros _. simpl. lia. }
    pose proof (walk_opt_collects walker vars_collected cq Hcq _ _ I0 H1)
      as C1.
    simpl in C1.
    refine (collected_nested c _ c1 _ _ _ _ _ C1 _ _); simpl; auto.
    apply C1.
  - (* RangeTblEntry *)
    intros kind oid rk ts sq lat Hsq c c' Hi H. simpl in H.
    inv_bind_as H u Hu.
    destruct kind; try (injection H as <-; simpl; apply collected_refl).
    apply raise_if_Ok_inv in H. destruct H as [_ H].
    inv_bind_as H c1 H1. injection H as <-.
    assert (I0 : in_exists_subquery
                   (incr_sublevels (set_has_subquery c true)) = true ->
                 (0 < sublevels_up
                        (incr_sublevels (set_has_subquery c true)))%nat).
    { intros _. simpl. lia. }
    pose proof (walk_opt_collects walker_Query Query_vars_collected sq Hsq
                  _ _ I0 H1) as C1.
    simpl in C1.
    refine (collected_nested c _ c1 _ _ _ _ _ C1 _ _); simpl; auto.
    apply C1.
  - (* Query *)
    intros aggs wf sl don rec ctes rt jt tl gc gs hq dc sc lo lc rm so
           Hctes Hrt Hjt Htl Hhq Hlo Hlc Hso c c' Hi H.
    rewrite walker_Query_eq in H. inv_bind_as H u1 Hu1.
    inv_bind_as H u2 Hu2. inv_bind_as H c8 H8.
    inv_bind_as H u3 Hu3. inv_bind_as H u4 Hu4. injection H as <-.
    unfold walk_query_children in H8. simpl in H8.
    inv_bind_as H8 c1 H1. inv_bind_as H8 c2 H2. inv_bind_as H8 c3 H3.
    inv_bind_as H8 c4 H4. inv_bind_as H8 c5 H5. inv_bind_as H8 c6 H6.
    inv_bind_as H8 c7 H7.
    set (c0 := set_has_agg c (has_agg c || aggs)) in *.
    assert (C0 : collected c c0 []).
    { unfold collected. simpl. now rewrite app_nil_r. }
    simpl.
    apply (collected_step0 c c0 c8 _ Hi C0). intros I0 E0. rewrite <- E0.
    apply (collected_step c0 c1 c8 _ _ I0).
    { exact (walk_list_collects _ _ rt Hrt _ _ I0 H1). }
    intros I1 E1. rewrite <- E1.
    apply (collected_step c1 c2 c8 _ _ I1).
    { exact (walk_list_collects _ _ tl Htl _ _ I1 H2). }
    intros I2 E2. rewrite <- E2.
    apply (collected_step c2 c3 c8 _ _ I2).
    { exact (walk_opt_collects walker vars_collected jt Hjt _ _ I2 H3). }
    intros I3 E3. rewrite <- E3.
    apply (collected_step c3 c4 c8 _ _ I3).
    { exact (walk_opt_collects walker vars_collected so Hso _ _ I3 H4). }
    intros I4 E4. rewrite <- E4.
    apply (collected_step c4 c5 c8 _ _ I4).
    { exact (walk_opt_collects walker vars_collected hq Hhq _ _ I4 H5). }
    intros I5 E5. rewrite <- E5.
    apply (collected_step c5 c6 c8 _ _ I5).
    { exact (walk_opt_collects walker vars_collected lo Hlo _ _ I5 H6). }
    intros I6 E6. rewrite <- E6.
    apply (collected_step c6 c7 c8 _ _ I6).
    { exact (walk_opt_collects walker vars_collected lc Hlc _ _ I6 H7). }
    intros I7 E7. rewrite <- E7.
    exact (walk_list_collects _ _ ctes Hctes _ _ I7 H8).
Qed.

(** X5.  In a query that the restriction check accepts, every variable
    of an upper query level that the walker meets inside the subquery
    of an EXISTS sublink (sublinks inside aggregate arguments apart) is
    a plain column of the target list of the query, with the same
    range-table index and attribute number. *)
Theorem accepted_exists_vars (qry : Query) :
  check_ivm_restriction (T_Query qry) = Ok tt ->
  forall v, In v (vars_collected false (T_Query qry)) ->
    var_in_targetList (fun n => n) (targetList qry) v = true.
Proof.
  intros Hacc v Hv. unfold check_ivm_restriction in Hacc.
  inv_bind_as Hacc c' Hw.
  assert (Hi : in_exists_subquery initial_context = true ->
               (0 < sublevels_up initial_context)%nat) by discriminate.
  destruct (proj1 walker_collects_context (T_Query qry) _ _ Hi Hw)
    as (_ & Hs & He).
  simpl in Hs, He.
  change (walker (T_Query qry) initial_context) with
    (walker_Query qry initial_context) in Hw.
  rewrite walker_Query_eq in Hw.
  inv_bind_as Hw u1 Hu1. inv_bind_as Hw u2 Hu2. inv_bind_as Hw c8 H8.
  inv_bind_as Hw u3 Hu3. inv_bind_as Hw u4 Hu4. injection Hw as ->.
  unfold check_exists_vars in Hu3. rewrite Hs, He in Hu3.
  change (vars_collected false (T_Query qry))
    with (Query_vars_collected false qry) in Hv.
  assert (Hn : forall l : list Var, In v l -> negb (is_nil l) = true)
    by (intros [|v0 vs] X; [contradiction | reflexivity]).
  cbn [app] in Hu3. rewrite (Hn _ Hv) in Hu3. cbn [andb Nat.eqb] in Hu3.
  apply raise_if_Ok_inv in Hu3. destruct Hu3 as [Hall _].
  apply negb_false_iff in Hall.
  rewrite forallb_forall in Hall. exact (Hall v Hv).
Qed.

End AcceptedExists.

(** *** Accepted outer joins *)

Section AcceptedOuterJoin.

Context {collab : Collaborators}.

#[local] Abbreviation context := check_ivm_restriction_context.
#[local] Abbreviation walker := check_ivm_restriction_walker.

Lemma outer_join_qual_contains (n : Node) (quals : option Node) :
  outer_join_qual n quals -> contains_outer_join n.
Proof.
  induction 1.
  - now apply outer_join_here.
  - now apply outer_join_larg.
  - now apply outer_join_rarg.
  - eapply outer_join_fromlist; eassumption.
Qed.

Lemma grows_false (c c' : context) :
  context_grows c c' ->
  has_agg c' = false /\ has_subquery c' = false ->
  has_agg c = false /\ has_subquery c = false.
Proof.
  intros (A & S & _) [A' S'].
  split.
  - destruct (has_agg c); [rewrite A in A' by reflexivity; discriminate
                          | reflexivity].
  - destruct (has_subquery c); [rewrite S in S' by reflexivity; discriminate
                               | reflexivity].
Qed.

(** The walk reaches an outer join only in a context without
    aggregates and subqueries, and leaves with its qualifier
    collected. *)
Lemma outer_join_qual_collected (n : Node) (quals : option Node) :
  outer_join_qual n quals ->
  forall c c', walker n c = Ok c' ->
    In quals (join_quals c')
    /\ has_agg c = false /\ has_subquery c = false.
Proof.
  induction 1 as [jt larg rarg quals Hjt | jt larg rarg quals q _ IH
                 | jt larg rarg quals q _ IH | fromlist quals n q Hin _ IH];
    intros c c' H; simpl in H.
  - rewrite Hjt in H.
    inv_bind_as H c1 H1. inv_bind_as H c2 H2. inv_bind_as H c3 H3.
    inv_bind_as H1 u Hu. injection H1 as <-.
    unfold check_outer_joinexpr in Hu.
    apply raise_if_Ok_inv in Hu. destruct Hu as [S Hu].
    apply raise_if_Ok_inv in Hu. destruct Hu as [A _].
    split; [|split; assumption].
    apply walk_opt_walker_grows in H2, H3, H.
    apply H, H3, H2. simpl. apply in_or_app. right. now left.
  - inv_bind_as H c1 H1. inv_bind_as H c2 H2. inv_bind_as H c3 H3.
    simpl in H2. destruct (IH _ _ H2) as (I & F).
    apply walk_opt_walker_grows in H3, H.
    split; [apply H, H3, I|].
    destruct (IS_OUTER_JOIN jt).
    + inv_bind_as H1 u Hu. injection H1 as <-. exact F.
    + injection H1 as <-. exact F.
  - inv_bind_as H c1 H1. inv_bind_as H c2 H2. inv_bind_as H c3 H3.
    simpl in H3. destruct (IH _ _ H3) as (I & F).
    apply walk_opt_walker_grows in H.
    split; [apply H, I|].
    apply walk_opt_walker_grows in H2. apply (grows_false _ _ H2) in F.
    destruct (IS_OUTER_JOIN jt).
    + inv_bind_as H1 u Hu. injection H1 as <-. exact F.
    + injection H1 as <-. exact F.
  - inv_bind_as H c1 H1. apply walk_opt_walker_grows in H.
    apply in_split in Hin. destruct Hin as (l1 & l2 & ->).
    rewrite walk_list_app in H1. inv_bind_as H1 c2 H2. simpl in H1.
    inv_bind_as H1 c3 H3.
    destruct (IH _ _ H3) as (I & F).
    apply walk_list_walker_grows in H1, H2.
    split; [apply H, H1, I|].
    exact (grows_false _ _ H2 F).
Qed.

Lemma collect_qual_vars_Ok (qry : Query) (quals : list (option Node)) :
  forall acc vars,
    collect_qual_vars qry quals acc = Ok vars ->
    (forall op, In op quals -> is_equijoin_condition op = true)
    /\ (forall v, In v acc -> In v vars)
    /\ (forall n v, In (Some n) quals ->
          In v (pull_vars_of_level (flatten_join_alias_vars qry n) 0) ->
          In v vars).
Proof.
  induction quals as [|op rest IH]; intros acc vars H; simpl in H.
  - injection H as <-. repeat split; auto; intros; contradiction.
  - apply raise_if_Ok_inv in H. destruct H as [E H].
    apply negb_false_iff in E.
    destruct op as [n|].
    + destruct (IH _ _ H) as (I1 & I2 & I3).
      split; [intros op [<-|Hin]; auto|].
      split; [intros v Hv; apply I2, in_or_app; now left|].
      intros n0 v [Heq|Hin] Hv.
      * injection Heq as ->. apply I2, in_or_app. now right.
      * eapply I3; eassumption.
    + destruct (IH _ _ H) as (I1 & I2 & I3).
      split; [intros op [<-|Hin]; auto|].
      split; [exact I2|].
      intros n0 v [Heq|Hin] Hv; [discriminate|].
      eapply I3; eassumption.
Qed.

(** The state of an accepted check at the end of the top-level query
    that has an outer join with qualifier [quals]. *)
Lemma accepted_outer_join_context (qry : Query) (jt : Node)
  (quals : option Node) :
  check_ivm_restriction (T_Query qry) = Ok tt ->
  jointree qry = Some jt -> outer_join_qual jt quals ->
  exists c1 c2 c8,
    walk_list walker_RangeTblEntry (rtable qry)
      (set_has_agg initial_context (hasAggs qry)) = Ok c1
    /\ walk_list walker_TargetEntry (targetList qry) c1 = Ok c2
    /\ has_agg c2 = false /\ has_subquery c2 = false
    /\ In quals (join_quals c8)
    /\ has_outerjoin c8 = true /\ sublevels_up c8 = 0%nat
    /\ check_outer_join qry c8 = Ok tt.
Proof.
  intros Hacc Hjt Hoj. rewrite check_ivm_restriction_eq in Hacc.
  inv_bind_as Hacc u1 Hu1. inv_bind_as Hacc c8 H8.
  inv_bind_as Hacc u2 Hu2. inv_bind_as Hacc u3 Hu3. destruct u3.
  destruct (walk_query_children_outer_join qry jt _ c8 Hjt
              (outer_join_qual_contains _ _ Hoj) H8) as [Hs Hf].
  unfold walk_query_children in H8. rewrite Hjt in H8.
  inv_bind_as H8 c1 H1. inv_bind_as H8 c2 H2. inv_bind_as H8 c3 H3.
  inv_bind_as H8 c4 H4. inv_bind_as H8 c5 H5. inv_bind_as H8 c6 H6.
  inv_bind_as H8 c7 H7. simpl in H3.
  destruct (outer_join_qual_collected _ _ Hoj _ _ H3) as (I & A & S).
  exists c1, c2, c8.
  repeat split; try assumption.
  apply walk_opt_walker_grows in H4, H5, H6, H7.
  apply (walk_list_grows walker_CommonTableExpr) in H8;
    [|apply Forall_forall; intros x _; apply walker_grows_context].
  apply H8, H7, H6, H5, H4, I.
Qed.

(** X6.  In a query that the restriction check accepts, the qualifier
    of every outer join of the join tree is an equijoin in the sense of
    [is_equijoin_condition], and every variable of the qualifier, join
    aliases flattened, is a plain column of the target list. *)
Theorem accepted_outer_joins_are_equijoins (qry : Query) (jt : Node)
  (quals : option Node) :
  check_ivm_restriction (T_Query qry) = Ok tt ->
  jointree qry = Some jt ->
  outer_join_qual jt quals ->
  is_equijoin_condition quals = true
  /\ forall n v,
       quals = Some n ->
       In v (pull_vars_of_level (flatten_join_alias_vars qry n) 0) ->
       var_in_targetList (flatten_join_alias_vars qry) (targetList qry) v
       = true.
Proof.
  intros Hacc Hjt Hoj.
  destruct (accepted_outer_join_context qry jt quals Hacc Hjt Hoj)
    as (c1 & c2 & c8 & _ & _ & _ & _ & I & F & S & Hc).
  unfold check_outer_join in Hc. rewrite F, S in Hc. simpl in Hc.
  inv_bind_as Hc qual_vars Hq.
  apply raise_if_Ok_inv in Hc. destruct Hc as [Hall _].
  apply negb_false_iff in Hall.
  destruct (collect_qual_vars_Ok _ _ _ _ Hq) as (E & _ & V).
  split; [exact (E _ I)|].
  intros n v -> Hv.
  rewrite forallb_forall in Hall. apply Hall. exact (V n v I Hv).
Qed.

Lemma walker_RangeTblEntry_subquery (rte : RangeTblEntry) (c c' : context) :
  walker_RangeTblEntry rte c = Ok c' ->
  rtekind rte = RTE_SUBQUERY -> has_subquery c' = true.
Proof.
  destruct rte as [kind oid rk ts sq lat]. simpl. intros H ->.
  inv_bind_as H u Hu. apply raise_if_Ok_inv in H. destruct H as [_ H].
  inv_bind_as H c1 H1. injection H as <-. simpl.
  apply (walk_opt_grows walker_Query) in H1.
  - apply H1. reflexivity.
  - destruct sq; simpl; [|exact I]. apply walker_grows_context.
Qed.

(** X7.  A query that the restriction check accepts and whose join tree
    has an outer join has no aggregates and no subquery in its range
    table; every variable of its WHERE clause is one that
    [find_nonnullable_vars] finds, and its target list has no
    non-strict function. *)
Theorem accepted_outer_join_query (qry : Query) (jt : Node)
  (quals : option Node) :
  check_ivm_restriction (T_Query qry) = Ok tt ->
  jointree qry = Some jt ->
  outer_join_qual jt quals ->
  hasAggs qry = false
  /\ (forall rte, In rte (rtable qry) -> rtekind rte <> RTE_SUBQUERY)
  /\ (forall v, In v (where_quals_vars qry) ->
                In v (find_nonnullable_vars (jointree_quals qry)))
  /\ contain_nonstrict_functions (targetList qry) = false.
Proof.
  intros Hacc Hjt Hoj.
  destruct (accepted_outer_join_context qry jt quals Hacc Hjt Hoj)
    as (c1 & c2 & c8 & H1 & H2 & A & Sq & _ & F & S & Hc).
  pose proof (walk_list_TargetEntry_grows _ _ _ H2) as G2.
  destruct (grows_false _ _ G2 (conj A Sq)) as [A1 S1].
  split.
  { pose proof (walk_list_RangeTblEntry_grows _ _ _ H1) as G1.
    destruct (grows_false _ _ G1 (conj A1 S1)) as [A0 _].
    exact A0. }
  split.
  { intros rte Hin Hk.
    destruct (walk_list_Ok_grown walker_RangeTblEntry (rtable qry)
                (proj1 (proj2 (proj2 (proj2 walker_grows_context))))
                _ _ H1 rte Hin) as (cx & cx' & Hr & _ & G).
    apply walker_RangeTblEntry_subquery in Hr; [|exact Hk].
    destruct G as (_ & G & _). rewrite (G Hr) in S1. discriminate. }
  unfold check_outer_join in Hc. rewrite F, S in Hc. simpl in Hc.
  inv_bind_as Hc qual_vars Hq.
  apply raise_if_Ok_inv in Hc. destruct Hc as [_ Hc].
  inv_bind_as Hc u Hu. destruct u.
  apply raise_if_Ok_inv in Hc. destruct Hc as [Hn _].
  split; [|exact Hn].
  exact (proj1 (proj2 (check_where_null_rejecting_spec qry)) Hu).
Qed.

Lemma singleton_members (s : list Z) :
  bms_num_members s = 1%nat -> exists a, forall x, In x s <-> x = a.
Proof.
  unfold bms_num_members. intros H.
  destruct (nodup Z.eq_dec s) as [|a [|b l]] eqn:E; try discriminate.
  exists a. intros x. rewrite <- (nodup_In Z.eq_dec), E. simpl.
  split; [intros [->|[]]; reflexivity | intros ->; now left].
Qed.

(** X8.  [is_equijoin_condition] holds only of an operator with two
    arguments that each mention exactly one relation, the two being
    different relations, and whose operator is merge-joinable with an
    operator family or hash-joinable on the type of the left
    argument. *)
Theorem equijoin_condition_sides (op : option Node) :
  is_equijoin_condition op = true ->
  exists opno l r a b,
    op = Some (T_OpExpr opno [l; r])
    /\ a <> b
    /\ (forall x, In x (pull_varnos l) <-> x = a)
    /\ (forall x, In x (pull_varnos r) <-> x = b)
    /\ ((op_mergejoinable opno (exprType l) = true
         /\ get_mergejoin_opfamilies opno <> [])
        \/ op_hashjoinable opno (exprType l) = true).
Proof.
  intros H. destruct op as [n|]; [|discriminate].
  destruct n; try discriminate.
  destruct args as [|l [|r [|x args]]]; try discriminate.
  simpl in H.
  destruct (negb (Nat.eqb (bms_num_members (pull_varnos l)) 1)) eqn:E1;
    [discriminate|].
  destruct (negb (Nat.eqb (bms_num_members (pull_varnos r)) 1)) eqn:E2;
    [discriminate|].
  destruct (bms_equal (pull_varnos l) (pull_varnos r)) eqn:E3;
    [discriminate|].
  simpl in H.
  apply negb_false_iff, Nat.eqb_eq in E1, E2.
  destruct (singleton_members _ E1) as [a Ha].
  destruct (singleton_members _ E2) as [b Hb].
  exists opno, l, r, a, b.
  split; [reflexivity|]. split.
  { intros ->. unfold bms_equal, bms_subset in E3.
    assert (S1 : forallb (fun x => bms_is_member x (pull_varnos r))
                   (pull_varnos l) = true).
    { apply forallb_forall. intros x Hx. apply bms_is_member_In.
      apply Hb. now apply Ha. }
    assert (S2 : forallb (fun x => bms_is_member x (pull_varnos l))
                   (pull_varnos r) = true).
    { apply forallb_forall. intros x Hx. apply bms_is_member_In.
      apply Ha. now apply Hb. }
    rewrite S1, S2 in E3. discriminate. }
  split; [exact Ha|]. split; [exact Hb|].
  destruct (op_mergejoinable opno (exprType l)) eqn:M; simpl in H.
  - destruct (get_mergejoin_opfamilies opno) eqn:Fm; simpl in H.
    + right. destruct (op_hashjoinable opno (exprType l));
        [reflexivity | discriminate].
    + left. split; [reflexivity | discriminate].
  - right. destruct (op_hashjoinable opno (exprType l));
      [reflexivity | discriminate].
Qed.

End AcceptedOuterJoin.

(** ** The rewriter: what it adds and what it leaves alone *)

Section RewriterMore.

Context {collab : Collaborators}.

Lemma same_outside_targets_refl (q : Query) : same_outside_targets q q.
Proof. repeat split. Qed.

Lemma same_outside_targets_trans (q1 q2 q3 : Query) :
  same_outside_targets q1 q2 -> same_outside_targets q2 q3 ->
  same_outside_targets q1 q3.
Proof.
  unfold same_outside_targets. intros H1 H2.
  repeat match goal with H : _ /\ _ |- _ => destruct H end.
  repeat split; congruence.
Qed.

Lemma same_outside_set_targetList (q : Query) (tl : list TargetEntry) :
  same_outside_targets q (set_targetList q tl).
Proof. destruct q. repeat split. Qed.

Lemma same_outside_set_groupClause (q : Query) (gc : list SortGroupClause) :
  same_outside_targets q (set_groupClause q gc).
Proof. destruct q. repeat split. Qed.

Lemma same_outside_set_hasAggs (q : Query) (b : bool) :
  same_outside_targets q (set_hasAggs q b).
Proof. destruct q. repeat split. Qed.

Lemma rewrite_group_outside (q1 q2 : Query) :
  rewrite_group q1 = Ok q2 -> same_outside_targets q1 q2.
Proof.
  unfold rewrite_group. intros H.
  destruct (negb (is_nil (groupClause q1))).
  - inv_bind H. injection H as <-. apply same_outside_targets_refl.
  - destruct (negb (hasAggs q1) && negb (is_nil (distinctClause q1))).
    + inv_bind H. injection H as <-.
      eapply same_outside_targets_trans;
        [apply same_outside_set_targetList
        | apply same_outside_set_groupClause].
    + injection H as <-. apply same_outside_targets_refl.
Qed.

Lemma rewrite_aggs_outside (colNames : list string) (q2 q3 : Query) :
  rewrite_aggs colNames q2 = Ok q3 ->
  same_outside_targets q2 q3 /\ groupClause q3 = groupClause q2.
Proof.
  unfold rewrite_aggs. intros H. destruct (hasAggs q2).
  - inv_bind H. injection H as <-.
    split; [apply same_outside_set_targetList|].
    destruct q2; reflexivity.
  - injection H as <-. split; [apply same_outside_targets_refl | reflexivity].
Qed.

Lemma rewrite_count_outside (q3 q4 : Query) :
  rewrite_count q3 = Ok q4 ->
  same_outside_targets q3 q4 /\ groupClause q4 = groupClause q3
  /\ hasAggs q4 = (negb (is_nil (distinctClause q3)) || hasAggs q3).
Proof.
  unfold rewrite_count. intros H.
  destruct (negb (is_nil (distinctClause q3)) || hasAggs q3) eqn:E.
  - inv_bind H. injection H as <-.
    split; [|destruct q3; split; reflexivity].
    eapply same_outside_targets_trans;
      [apply same_outside_set_targetList | apply same_outside_set_hasAggs].
  - injection H as <-.
    split; [apply same_outside_targets_refl|].
    split; [reflexivity|].
    apply orb_false_iff in E. tauto.
Qed.

(** X9.  [rewriteQueryForIMMV] leaves the query as the EXISTS step
    returns it in everything but the target list, the GROUP BY clause
    and the aggregate flag: the range table, the join tree with the
    WHERE clause, the CTEs and every other clause and flag are the
    same.  The aggregate flag of the result is set exactly when there
    is a DISTINCT clause or there were aggregates, and a GROUP BY
    clause that is there is kept. *)
Theorem rewrite_leaves_from_clause (query q1 rewritten : Query)
  (colNames : list string) :
  rewrite_exists query = Ok q1 ->
  rewriteQueryForIMMV query colNames = Ok rewritten ->
  same_outside_targets q1 rewritten
  /\ hasAggs rewritten = (negb (is_nil (distinctClause q1)) || hasAggs q1)
  /\ (groupClause q1 <> [] -> groupClause rewritten = groupClause q1).
Proof.
  intros Hex H. unfold rewriteQueryForIMMV in H. rewrite Hex in H.
  simpl in H. inv_bind_as H q2 H2. inv_bind_as H q3 H3.
  pose proof (rewrite_group_outside _ _ H2) as O2.
  destruct (rewrite_group_flags _ _ H2) as [D2 A2].
  destruct (rewrite_aggs_outside _ _ _ H3) as [O3 G3].
  destruct (rewrite_aggs_flags _ _ _ H3) as [D3 A3].
  destruct (rewrite_count_outside _ _ H) as (O4 & G4 & A4).
  split.
  { eapply same_outside_targets_trans; [exact O2|].
    eapply same_outside_targets_trans; [exact O3 | exact O4]. }
  split.
  { rewrite A4, D3, A3, D2, A2. reflexivity. }
  intros Hg. rewrite G4, G3.
  unfold rewrite_group in H2.
  destruct (groupClause q1) eqn:E; [contradiction|]. simpl in H2.
  inv_bind H2. injection H2 as <-. exact E.
Qed.

(** What [makeIvmAggColumn] adds: [companion_columns] entries, numbered
    from [n], none of them junk or with a sort/group reference. *)
Lemma makeIvmAggColumn_added (tle : TargetEntry) fn tys aggargs ord dis fil
  star name n aggs n' aggs' :
  expr tle = T_Aggref fn tys aggargs ord dis fil star ->
  makeIvmAggColumn fn tys aggargs name n aggs = Ok (n', aggs') ->
  exists ext,
    aggs' = aggs ++ ext /\ n' = n + Z.of_nat (List.length ext)
    /\ resnos_from n ext
    /\ Forall (fun t => resjunk t = false /\ ressortgroupref t = 0%nat) ext
    /\ List.length ext = companion_columns tle.
Proof.
  intros He H. unfold companion_columns. rewrite He.
  unfold makeIvmAggColumn in H.
  destruct (String.eqb (get_func_name fn) "count") eqn:Ec;
    destruct (String.eqb (get_func_name fn) "avg") eqn:Ea; simpl in H.
  - inv_bind_as H node Hn. injection H as <- <-.
    eexists [_]. simpl.
    repeat split; auto; try lia; repeat constructor.
  - injection H as <- <-. exists []. simpl. rewrite app_nil_r.
    repeat split; auto; try lia; repeat constructor.
  - inv_bind_as H st H1. inv_bind_as H1 node1 Hn1. injection H1 as <-.
    inv_bind_as H node2 Hn2. injection H as <- <-. simpl.
    eexists [_; _]. rewrite <- app_assoc. simpl.
    repeat split; auto; try lia; repeat constructor.
  - inv_bind_as H st H1. inv_bind_as H1 node1 Hn1. injection H1 as <-.
    injection H as <- <-. simpl.
    eexists [_]. simpl.
    repeat split; auto; try lia; repeat constructor.
Qed.

Lemma add_agg_columns_added (colNames : list string) (tl : list TargetEntry) :
  forall n aggs n' aggs',
    add_agg_columns colNames tl n aggs = Ok (n', aggs') ->
    exists ext,
      aggs' = aggs ++ ext
      /\ resnos_from n ext
      /\ Forall (fun t => resjunk t = false /\ ressortgroupref t = 0%nat) ext
      /\ List.length ext = list_sum (map companion_columns tl).
Proof.
  induction tl as [|tle rest IH]; intros n aggs n' aggs' H; simpl in H.
  - injection H as <- <-. exists []. rewrite app_nil_r.
    repeat split; auto.
  - inv_bind_as H name Hname. inv_bind_as H st Hst.
    destruct st as [n1 aggs1]. simpl in H.
    assert (Hone : exists ext1,
               aggs1 = aggs ++ ext1 /\ n1 = n + Z.of_nat (List.length ext1)
               /\ resnos_from n ext1
               /\ Forall (fun t => resjunk t = false
                                   /\ ressortgroupref t = 0%nat) ext1
               /\ List.length ext1 = companion_columns tle).
    { destruct (expr tle) eqn:He;
        try (injection Hst as <- <-; exists []; rewrite app_nil_r;
             unfold companion_columns; rewrite He; simpl;
             repeat split; auto; lia).
      eapply makeIvmAggColumn_added; eassumption. }
    destruct Hone as (ext1 & -> & -> & R1 & F1 & L1).
    destruct (IH _ _ _ _ H) as (ext2 & -> & R2 & F2 & L2).
    exists (ext1 ++ ext2). rewrite app_assoc.
    split; [reflexivity|]. split; [apply resnos_from_app; auto|].
    split; [apply Forall_app; auto|].
    rewrite length_app. simpl. lia.
Qed.

Lemma Forall2_same_column_refl (l : list TargetEntry) :
  Forall2 same_column l l.
Proof.
  induction l; constructor; [apply same_column_refl | assumption].
Qed.

Lemma check_group_keys_Ok (tl : list TargetEntry)
  (gc : list SortGroupClause) (u : unit) :
  check_group_keys tl gc = Ok u ->
  forall scl, In scl gc ->
    exists tle, get_sortgroupclause_tle scl tl = Ok tle
                /\ resjunk tle = false.
Proof.
  induction gc as [|g rest IH]; intros Hu scl Hin; [contradiction|].
  simpl in Hu. inv_bind_as Hu tle Ht.
  apply raise_if_Ok_inv in Hu. destruct Hu as [Hj Hu].
  destruct Hin as [<-|Hin]; [eauto | exact (IH Hu scl Hin)].
Qed.

Lemma rewrite_group_columns (q1 q2 : Query) :
  rewrite_group q1 = Ok q2 ->
  Forall2 same_column (targetList q1) (targetList q2)
  /\ (hasAggs q1 = true \/ groupClause q1 <> [] \/ distinctClause q1 = [] ->
      q2 = q1)
  /\ forall scl, In scl (groupClause q1) ->
       exists tle, get_sortgroupclause_tle scl (targetList q1) = Ok tle
                   /\ resjunk tle = false.
Proof.
  unfold rewrite_group. intros H.
  destruct (negb (is_nil (groupClause q1))) eqn:Eg.
  - inv_bind_as H u Hu. injection H as <-.
    split; [apply Forall2_same_column_refl|].
    split; [reflexivity|].
    exact (check_group_keys_Ok _ _ _ Hu).
  - apply not_is_nil_false in Eg. rewrite Eg.
    destruct (hasAggs q1) eqn:Ea; simpl in H.
    + injection H as <-.
      split; [apply Forall2_same_column_refl|].
      split; [reflexivity | contradiction].
    + destruct (distinctClause q1) as [|d ds] eqn:Ed; simpl in H.
      * injection H as <-.
        split; [apply Forall2_same_column_refl|].
        split; [reflexivity | contradiction].
      * inv_bind_as H r Hr. injection H as <-. destruct r as [tl' gl'].
        apply transformDistinctClause_spec in Hr. destruct Hr as [F2 _].
        split; [destruct q1; exact F2|].
        split; [|contradiction].
        intros [X|[X|X]]; [discriminate | contradiction | discriminate].
Qed.

(** X10.  [rewriteQueryForIMMV] only appends to the target list: the
    columns of the query as the EXISTS step returns it come first,
    each with its expression, number, name and junk flag (only the
    sort/group reference may be set, and only when DISTINCT is turned
    into GROUP BY); the columns that follow are numbered on from
    there, are not junk and carry no sort/group reference, and there
    are none exactly when the query has neither DISTINCT nor
    aggregates. *)
Theorem rewrite_only_appends (query q1 rewritten : Query)
  (colNames : list string) :
  rewrite_exists query = Ok q1 ->
  rewriteQueryForIMMV query colNames = Ok rewritten ->
  exists columns added,
    targetList rewritten = columns ++ added
    /\ Forall2 same_column (targetList q1) columns
    /\ (hasAggs q1 = true \/ groupClause q1 <> [] \/ distinctClause q1 = [] ->
        columns = targetList q1)
    /\ resnos_from (Z.of_nat (List.length (targetList q1)) + 1) added
    /\ Forall (fun t => resjunk t = false /\ ressortgroupref t = 0%nat) added
    /\ (added = [] <-> distinctClause q1 = [] /\ hasAggs q1 = false).
Proof.
  intros Hex H. unfold rewriteQueryForIMMV in H. rewrite Hex in H.
  simpl in H. inv_bind_as H q2 H2. inv_bind_as H q3 H3.
  destruct (rewrite_group_columns _ _ H2) as (F2 & Same & _).
  destruct (rewrite_group_flags _ _ H2) as [D2 A2].
  pose proof (Forall2_same_column_length _ _ F2) as L2.
  (* the aggregate step *)
  assert (Haggs : exists ext1,
             targetList q3 = targetList q2 ++ ext1
             /\ resnos_from (next_free_resno (targetList q2)) ext1
             /\ Forall (fun t => resjunk t = false
                                 /\ ressortgroupref t = 0%nat) ext1
             /\ (hasAggs q2 = false -> ext1 = [])
             /\ distinctClause q3 = distinctClause q2
             /\ hasAggs q3 = hasAggs q2).
  { unfold rewrite_aggs in H3. destruct (hasAggs q2) eqn:Ea.
    - inv_bind_as H3 st Hst. injection H3 as <-. destruct st as [n' aggs'].
      destruct (add_agg_columns_added _ _ _ _ _ _ Hst)
        as (ext & E & R & F & _).
      simpl in E. subst aggs'. exists ext.
      rewrite targetList_set_targetList.
      split; [reflexivity|]. split; [exact R|]. split; [exact F|].
      split; [discriminate|].
      destruct q2; split; [reflexivity | exact Ea].
    - injection H3 as <-. exists []. rewrite app_nil_r.
      repeat split; auto. }
  destruct Haggs as (ext1 & T3 & R1 & F1 & N1 & D3 & A3).
  (* the count step *)
  unfold rewrite_count in H. rewrite D3, A3, D2, A2 in H.
  unfold next_free_resno in *.
  destruct (negb (is_nil (distinctClause q1)) || hasAggs q1) eqn:E.
  - inv_bind_as H node Hn. injection H as <-.
    exists (targetList q2), (ext1 ++ [makeTargetEntry node
              (Z.of_nat (List.length (targetList q3)) + 1)
              (Some "__ivm_count__") false]).
    rewrite targetList_set_hasAggs, targetList_set_targetList, T3.
    rewrite <- app_assoc.
    split; [reflexivity|]. split; [exact F2|].
    split; [intros X; now rewrite (Same X)|].
    split.
    { apply resnos_from_app. rewrite L2. split; [exact R1|].
      simpl. split; [|exact I]. rewrite length_app. lia. }
    split.
    { apply Forall_app. split; [exact F1|]. constructor; [|constructor].
      split; reflexivity. }
    split.
    { intros X. destruct ext1; discriminate. }
    intros [Hd Ha]. rewrite Hd, Ha in E. discriminate.
  - injection H as <-. apply orb_false_iff in E. destruct E as [Ed Ea].
    apply not_is_nil_false in Ed.
    rewrite A2 in N1. rewrite (N1 Ea), app_nil_r in T3.
    exists (targetList q2), []. rewrite app_nil_r.
    split; [exact T3|]. split; [exact F2|].
    split; [intros X; now rewrite (Same X)|].
    repeat split; auto.
Qed.

(** X11.  For a query with aggregates, the rewritten target list is the
    target list as the EXISTS step returns it, followed by the hidden
    columns of the aggregates in target-list order, none for [count],
    one for any other aggregate and two for [avg], and one last
    column: its length is the sum of these. *)
Theorem rewrite_aggregate_columns (query q1 rewritten : Query)
  (colNames : list string) :
  rewrite_exists query = Ok q1 ->
  hasAggs q1 = true ->
  rewriteQueryForIMMV query colNames = Ok rewritten ->
  exists hidden last,
    targetList rewritten = targetList q1 ++ hidden ++ [last]
    /\ List.length hidden = list_sum (map companion_columns (targetList q1))
    /\ resname last = Some "__ivm_count__"
    /\ resno last
       = Z.of_nat (List.length (targetList q1) + List.length hidden) + 1.
Proof.
  intros Hex Ha H. unfold rewriteQueryForIMMV in H. rewrite Hex in H.
  simpl in H. inv_bind_as H q2 H2. inv_bind_as H q3 H3.
  apply (rewrite_group_hasAggs _ _ Ha) in H2. subst q2.
  unfold rewrite_aggs in H3. rewrite Ha in H3.
  inv_bind_as H3 st Hst. injection H3 as <-. destruct st as [n' aggs'].
  destruct (add_agg_columns_added _ _ _ _ _ _ Hst) as (ext & E & _ & _ & L).
  simpl in E. subst aggs'.
  unfold rewrite_count in H.
  replace (hasAggs (set_targetList q1 (targetList q1 ++ snd (n', ext))))
    with true in H by (destruct q1; simpl in *; congruence).
  rewrite orb_true_r in H. inv_bind_as H node Hn. injection H as <-.
  rewrite targetList_set_hasAggs, !targetList_set_targetList. simpl.
  eexists ext, _. rewrite <- app_assoc.
  split; [reflexivity|]. split; [exact L|]. split; [reflexivity|].
  simpl. unfold next_free_resno. rewrite length_app. reflexivity.
Qed.

(** X12.  When [rewriteQueryForIMMV] returns, every key of the GROUP BY
    clause of the query as the EXISTS step returns it resolves to a
    target entry that is not junk: a GROUP BY expression outside the
    select list makes the rewriter fail. *)
Theorem rewrite_group_keys_in_select_list (query q1 rewritten : Query)
  (colNames : list string) :
  rewrite_exists query = Ok q1 ->
  rewriteQueryForIMMV query colNames = Ok rewritten ->
  forall scl, In scl (groupClause q1) ->
    exists tle,
      get_sortgroupclause_tle scl (targetList q1) = Ok tle
      /\ In tle (targetList q1)
      /\ ressortgroupref tle = tleSortGroupRef scl
      /\ resjunk tle = false.
Proof.
  intros Hex H scl Hin. unfold rewriteQueryForIMMV in H. rewrite Hex in H.
  simpl in H. inv_bind_as H q2 H2.
  destruct (rewrite_group_columns _ _ H2) as (_ & _ & K).
  destruct (K scl Hin) as (tle & Ht & Hj).
  exists tle. split; [exact Ht|].
  unfold get_sortgroupclause_tle in Ht.
  destruct (find _ _) as [t|] eqn:Ef; [|discriminate]. injection Ht as ->.
  apply find_some in Ef. destruct Ef as [Hi He].
  apply Nat.eqb_eq in He. auto.
Qed.

(** The loop over the range table appends one column for every
    lateral subquery that has a column starting with [__ivm_exists]. *)
Lemma add_exists_count_columns_spec (rt : list RangeTblEntry) :
  forall varno tl,
  exists added,
    add_exists_count_columns rt varno tl = tl ++ added
    /\ resnos_from (next_free_resno tl) added
    /\ (forall tle, In tle added ->
          exists i rte name attnum,
            nth_error rt i = Some rte
            /\ is_some (subquery rte) = true /\ lateral rte = true
            /\ getColumnNameStartWith rte "__ivm_exists"
               = Some (name, attnum)
            /\ expr tle = T_Var (mkVar (varno + Z.of_nat (S i)) attnum
                                       INT8OID 0)
            /\ resname tle = Some name /\ resjunk tle = false)
    /\ (forall i rte name attnum,
          nth_error rt i = Some rte ->
          is_some (subquery rte) = true -> lateral rte = true ->
          getColumnNameStartWith rte "__ivm_exists" = Some (name, attnum) ->
          exists tle,
            In tle added
            /\ expr tle = T_Var (mkVar (varno + Z.of_nat (S i)) attnum
                                       INT8OID 0)
            /\ resname tle = Some name).
Proof.
  induction rt as [|rte rest IH]; intros varno tl.
  - exists []. rewrite app_nil_r. simpl.
    repeat split; auto; try contradiction.
    intros [|i] rte name attnum H; discriminate.
  - cbn [add_exists_count_columns].
    assert (Hskip :
      forall added,
        (forall tle, In tle added ->
           exists i rte0 name attnum,
             nth_error rest i = Some rte0
             /\ is_some (subquery rte0) = true /\ lateral rte0 = true
             /\ getColumnNameStartWith rte0 "__ivm_exists"
                = Some (name, attnum)
             /\ expr tle = T_Var (mkVar (varno + 1 + Z.of_nat (S i)) attnum
                                        INT8OID 0)
             /\ resname tle = Some name /\ resjunk tle = false) ->
        forall tle, In tle added ->
          exists i rte0 name attnum,
            nth_error (rte :: rest) i = Some rte0
            /\ is_some (subquery rte0) = true /\ lateral rte0 = true
            /\ getColumnNameStartWith rte0 "__ivm_exists"
               = Some (name, attnum)
            /\ expr tle = T_Var (mkVar (varno + Z.of_nat (S i)) attnum
                                       INT8OID 0)
            /\ resname tle = Some name /\ resjunk tle = false).
    { intros added H tle Hin.
      destruct (H tle Hin) as (i & rte0 & name & attnum & A & B & C & D & E & G).
      exists (S i), rte0, name, attnum. split; [exact A|].
      split; [exact B|]. split; [exact C|]. split; [exact D|].
      split; [|exact G]. rewrite E. do 2 f_equal. lia. }
    destruct (negb (is_some (subquery rte)) || negb (lateral rte)) eqn:Ek.
    + destruct (IH (varno + 1) tl) as (added & E & R & F & B).
      exists added. split; [exact E|]. split; [exact R|].
      split; [exact (Hskip added F)|].
      intros [|i] rte0 name attnum Hn Hs Hl Hc.
      * injection Hn as <-. rewrite Hs, Hl in Ek. discriminate.
      * destruct (B i rte0 name attnum Hn Hs Hl Hc) as (tle & I & X & Y).
        exists tle. split; [exact I|]. split; [|exact Y].
        rewrite X. do 2 f_equal. lia.
    + destruct (getColumnNameStartWith rte "__ivm_exists")
        as [[columnName attnum0]|] eqn:Ec.
      * destruct (IH (varno + 1)
                    (tl ++ [makeTargetEntry
                              (T_Var (mkVar (varno + 1) attnum0 INT8OID 0))
                              (next_free_resno tl) (Some columnName) false]))
          as (added & E & R & F & B).
        eexists (_ :: added). rewrite E, <- app_assoc.
        split; [reflexivity|].
        split.
        { simpl. split; [reflexivity|].
          unfold next_free_resno in R |- *. rewrite length_app in R.
          simpl in R. replace (Z.of_nat (List.length tl) + 1 + 1)
            with (Z.of_nat (List.length tl + 1) + 1) by lia. exact R. }
        apply orb_false_iff in Ek. destruct Ek as [Es El].
        apply negb_false_iff in Es, El.
        split.
        { intros tle [<-|Hin].
          - exists 0%nat, rte, columnName, attnum0. simpl.
            repeat split; auto.
          - exact (Hskip added F tle Hin). }
        intros [|i] rte0 name attnum Hn Hs Hl Hc.
        -- injection Hn as <-. rewrite Hc in Ec. injection Ec as <- <-.
           eexists. split; [left; reflexivity|]. simpl. auto.
        -- destruct (B i rte0 name attnum Hn Hs Hl Hc) as (tle & I0 & X & Y).
           exists tle. split; [right; exact I0|]. split; [|exact Y].
           rewrite X. do 2 f_equal. lia.
      * destruct (IH (varno + 1) tl) as (added & E & R & F & B).
        exists added. split; [exact E|]. split; [exact R|].
        split; [exact (Hskip added F)|].
        intros [|i] rte0 name attnum Hn Hs Hl Hc.
        -- injection Hn as <-. rewrite Hc in Ec. discriminate.
        -- destruct (B i rte0 name attnum Hn Hs Hl Hc) as (tle & I & X & Y).
           exists tle. split; [exact I|]. split; [|exact Y].
           rewrite X. do 2 f_equal. lia.
Qed.

Lemma filter_combine_seq_length {A} (f : A -> bool) (l : list A) :
  forall k,
    List.length (filter (fun e => f (snd e))
                        (combine (seq k (List.length l)) l))
    = List.length (filter f l).
Proof.
  induction l as [|x l IH]; intros k; [reflexivity|].
  cbn [List.length seq combine filter snd].
  destruct (f x); cbn [List.length]; now rewrite IH.
Qed.

(** The columns that the loop appends are those of the entries of
    [exists_count_entries], one each and in their order. *)
Lemma add_exists_count_columns_exposes (rt : list RangeTblEntry) :
  forall k tl,
  exists added,
    add_exists_count_columns rt (Z.of_nat k) tl = tl ++ added
    /\ Forall2 exposes added
         (filter (fun e => has_exists_count (snd e))
                 (combine (seq (S k) (List.length rt)) rt)).
Proof.
  induction rt as [|rte rest IH]; intros k tl.
  - exists []. rewrite app_nil_r. split; [reflexivity | constructor].
  - cbn [add_exists_count_columns List.length seq combine filter snd].
    replace (Z.of_nat k + 1) with (Z.of_nat (S k)) by lia.
    unfold has_exists_count at 1.
    destruct (is_some (subquery rte)); [|apply IH].
    destruct (lateral rte); [|apply IH].
    cbn [negb orb andb].
    destruct (getColumnNameStartWith rte "__ivm_exists")
      as [[name attnum]|] eqn:E; cbn [is_some]; [|apply IH].
    destruct (IH (S k)
                (tl ++ [makeTargetEntry
                          (T_Var (mkVar (Z.of_nat (S k)) attnum INT8OID 0))
                          (next_free_resno tl) (Some name) false]))
      as (added & Ha & Hf).
    eexists (_ :: added). rewrite Ha, <- app_assoc.
    split; [reflexivity|].
    constructor; [|exact Hf].
    exists name, attnum. cbn [fst snd]. repeat split. exact E.
Qed.

(** X13.  For a query with sublinks, the EXISTS step takes the query
    that [rewrite_query_for_exists_subquery] returns and appends to its
    target list, numbered on from there, exactly one column for every
    entry of its range table that is a lateral subquery with a column
    whose name starts with [__ivm_exists], in range-table order and
    nothing else: the column is that column of the entry, as a
    variable of type [int8], under the same name. *)
Theorem exists_count_columns (query q1 : Query) :
  hasSubLinks query = true ->
  rewrite_exists query = Ok q1 ->
  exists rewritten added,
    rewrite_query_for_exists_subquery query = Ok rewritten
    /\ same_outside_targets rewritten q1
    /\ targetList q1 = targetList rewritten ++ added
    /\ resnos_from (Z.of_nat (List.length (targetList rewritten)) + 1) added
    /\ Forall2 exposes added (exists_count_entries (rtable rewritten))
    /\ List.length added
       = List.length (filter has_exists_count (rtable rewritten))
    /\ (forall tle, In tle added ->
          exists i rte name attnum,
            nth_error (rtable rewritten) i = Some rte
            /\ is_some (subquery rte) = true /\ lateral rte = true
            /\ getColumnNameStartWith rte "__ivm_exists"
               = Some (name, attnum)
            /\ expr tle = T_Var (mkVar (Z.of_nat (S i)) attnum INT8OID 0)
            /\ resname tle = Some name /\ resjunk tle = false)
    /\ (forall i rte name attnum,
          nth_error (rtable rewritten) i = Some rte ->
          is_some (subquery rte) = true -> lateral rte = true ->
          getColumnNameStartWith rte "__ivm_exists" = Some (name, attnum) ->
          exists tle,
            In tle added
            /\ expr tle = T_Var (mkVar (Z.of_nat (S i)) attnum INT8OID 0)
            /\ resname tle = Some name).
Proof.
  intros Hs H. unfold rewrite_exists in H. rewrite Hs in H.
  inv_bind_as H rewritten Hr. injection H as <-.
  destruct (add_exists_count_columns_spec (rtable rewritten) 0
              (targetList rewritten)) as (added & E & R & F & B).
  destruct (add_exists_count_columns_exposes (rtable rewritten) 0%nat
              (targetList rewritten)) as (added' & E' & X).
  change (Z.of_nat 0) with 0 in E'. rewrite E in E'.
  apply app_inv_head in E'. subst added'.
  exists rewritten, added. split; [exact Hr|].
  split; [apply same_outside_set_targetList|].
  rewrite targetList_set_targetList.
  split; [exact E|]. split; [exact R|]. split; [exact X|].
  split; [|split; [exact F | exact B]].
  rewrite (Forall2_length X). unfold exists_count_entries.
  apply filter_combine_seq_length.
Qed.

End RewriterMore.

(** ** Triggers, keys and the index: further properties *)

Section ProvisionMore.

Context {collab : Collaborators}.

#[local] Abbreviation F := FirstLowInvalidHeapAttributeNumber.

Lemma length_six_triggers (oid : Oid) (ex : bool) (new : list Oid) :
  List.length (flat_map (six_triggers oid ex) new) = (6 * List.length new)%nat.
Proof.
  induction new as [|r new IH]; [reflexivity|].
  cbn [flat_map]. rewrite length_app, IH.
  change (List.length (six_triggers oid ex r)) with 6%nat.
  cbn [List.length]. lia.
Qed.

Lemma six_triggers_view (oid : Oid) (ex : bool) (r : Oid) (t : CreateTrigStmt) :
  In t (six_triggers oid ex r) ->
  trig_relOid t = r /\ arg_viewOid t = oid /\ depends_on t = oid.
Proof.
  unfold six_triggers. simpl.
  intros H. repeat (destruct H as [<- | H]; [auto|]). contradiction.
Qed.

(** X14.  [CreateIvmTriggersOnBaseTables] only appends to the catalog
    it is given: what was there stays, in place.  The triggers added are
    six for each relation of a duplicate-free list of relations
    reachable from the query, each created on one of these relations,
    with the view as its argument and as the object it depends on. *)
Theorem triggers_are_appended (depth : nat) (qry : Query) (oid : Oid)
  (is_create : bool) (cat cat' : list CreateTrigStmt) :
  CreateIvmTriggersOnBaseTables depth qry oid is_create cat = Ok cat' ->
  exists rels added,
    cat' = cat ++ added
    /\ NoDup rels
    /\ (forall r, In r rels -> reachable qry r)
    /\ List.length added = (6 * List.length rels)%nat
    /\ forall t, In t added ->
         In (trig_relOid t) rels /\ arg_viewOid t = oid /\ depends_on t = oid.
Proof.
  unfold CreateIvmTriggersOnBaseTables. intros H.
  destruct (choose_ex_lock qry is_create) as [ex|].
  - inv_bind_as H st Hst. injection H as <-.
    apply Recurse_of_depth in Hst.
    change (Recurse oid ex (rt_actions oid ex (rtable qry)) (T_Query qry)
              (mkTriggerState [] cat) = Ok st) in Hst.
    rewrite Recurse_T_Query in Hst.
    destruct (Recurse_Query_provisioned oid ex qry _ _ Hst)
      as (new & _ & Hcat & Hnd & Hnew).
    simpl in Hcat. exists new, (flat_map (six_triggers oid ex) new).
    split; [exact Hcat|]. split; [exact Hnd|].
    split; [intros r Hr; now apply Hnew in Hr|].
    split; [apply length_six_triggers|].
    intros t Ht. apply in_flat_map in Ht. destruct Ht as (r & Hr & Ht).
    apply six_triggers_view in Ht. destruct Ht as (-> & ? & ?). auto.
  - injection H as <-. exists [], []. rewrite app_nil_r.
    repeat split; auto; try contradiction. constructor.
Qed.

(** X15.  On a catalog that starts empty, no two triggers that
    [CreateIvmTriggersOnBaseTables] creates on the same relation have
    the same name or the same pair of timing and event. *)
Theorem trigger_names_distinct_per_relation (depth : nat) (qry : Query)
  (oid : Oid) (is_create : bool) (cat : list CreateTrigStmt) :
  CreateIvmTriggersOnBaseTables depth qry oid is_create [] = Ok cat ->
  forall r,
    NoDup (map trigname (triggers_on r cat))
    /\ NoDup (map (fun t => (timing t, events t)) (triggers_on r cat)).
Proof.
  intros H r.
  destruct (choose_ex_lock qry is_create) as [ex|] eqn:Hch.
  - destruct (CreateIvmTriggersOnBaseTables_catalog _ _ _ _ _ _ Hch H)
      as (new & -> & Hnd & _).
    destruct (in_dec Z.eq_dec r new) as [Hin|Hout].
    + rewrite (triggers_on_flat_map _ _ _ _ Hnd Hin).
      split; repeat constructor; simpl; intuition discriminate.
    + rewrite (triggers_on_flat_map_notin _ _ _ _ Hout).
      split; constructor.
  - unfold CreateIvmTriggersOnBaseTables in H. rewrite Hch in H.
    injection H as <-. split; constructor.
Qed.

(** *** The keys returned *)





(** *** The index *)

Lemma Forall2_In_r {A B} (R : A -> B -> Prop) (l : list A) (l' : list B) :
  Forall2 R l l' -> forall y, In y l' -> exists x, In x l /\ R x y.
Proof.
  induction 1 as [|x y l l' Hxy _ IH]; intros z Hz; [contradiction|].
  destruct Hz as [<-|Hz].
  - exists x. split; [now left | exact Hxy].
  - destruct (IH z Hz) as (x0 & Hin & Hr). exists x0. split; [now right | exact Hr].
Qed.

Lemma attname_of_In (rel : Relation) (tle : TargetEntry) (name : string) :
  attname_of rel tle = Ok name -> In name (rd_attnames rel).
Proof.
  unfold attname_of. intros H. apply list_nth_Ok in H.
  destruct H as [_ H]. exact (nth_error_In _ _ H).
Qed.

Lemma group_index_params_spec (rel : Relation) (tl : list TargetEntry)
  (gc : list SortGroupClause) :
  forall params,
    group_index_params rel tl gc = Ok params ->
    Forall2 (fun scl name =>
               exists tle, get_sortgroupclause_tle scl tl = Ok tle
                           /\ attname_of rel tle = Ok name) gc params.
Proof.
  induction gc as [|scl rest IH]; intros params H; simpl in H.
  - injection H as <-. constructor.
  - inv_bind_as H tle Ht. inv_bind_as H name Hn. inv_bind_as H names Hs.
    injection H as <-. constructor; [eauto | exact (IH _ Hs)].
Qed.

Lemma all_index_params_spec (rel : Relation) (tl : list TargetEntry) :
  forall params,
    all_index_params rel tl = Ok params ->
    Forall2 (fun tle name => attname_of rel tle = Ok name) tl params.
Proof.
  induction tl as [|tle rest IH]; intros params H; simpl in H.
  - injection H as <-. constructor.
  - inv_bind_as H name Hn. inv_bind_as H names Hs.
    injection H as <-. constructor; [exact Hn | exact (IH _ Hs)].
Qed.

Lemma key_index_params_spec (rel : Relation) (tl : list TargetEntry)
  (keys : Bitmapset) :
  forall params,
    key_index_params rel tl keys = Ok params ->
    Forall2 (fun tle name => attname_of rel tle = Ok name)
      (filter (fun tle => bms_member (resno tle - F) keys) tl) params.
Proof.
  induction tl as [|tle rest IH]; intros params H; simpl in H.
  - injection H as <-. constructor.
  - simpl. destruct (bms_member (resno tle - F) keys).
    + inv_bind_as H name Hn. inv_bind_as H names Hs.
      injection H as <-. constructor; [exact Hn | exact (IH _ Hs)].
    + exact (IH _ H).
Qed.

Lemma define_index_decided (rel : Relation) (params : list string)
  (deps : list Oid) :
  index_decided rel params deps (define_index rel params deps).
Proof.
  unfold index_decided, define_index, index_name.
  destruct (rd_has_compatible_index rel params); [left | right];
    split; reflexivity.
Qed.

(** X17.  For a view query with a GROUP BY clause, [CreateIndexOnIMMV]
    chooses as index columns the view's attributes at the positions of
    the target entries that the keys resolve to, one per key and in
    the order of the clause; without GROUP BY but with DISTINCT, the
    attributes at the positions of all target entries, in order.  In
    both cases it then either finds a compatible index or creates the
    unique index on these columns, with no constraint to depend on and
    named by the first 63 bytes of the view's name followed by
    [_index], and never ends with the notice that no index could be
    created. *)
Theorem index_on_group_or_distinct_columns (depth : nat) (query : Query)
  (rel : Relation) (is_create : bool) (outcome : index_outcome) :
  CreateIndexOnIMMV depth query rel is_create = Ok outcome ->
  (groupClause query <> [] ->
   exists params,
     Forall2 (fun scl name =>
                exists tle,
                  get_sortgroupclause_tle scl (targetList query) = Ok tle
                  /\ attname_of rel tle = Ok name)
             (groupClause query) params
     /\ index_decided rel params [] outcome)
  /\ (groupClause query = [] -> distinctClause query <> [] ->
      exists params,
        Forall2 (fun tle name => attname_of rel tle = Ok name)
                (targetList query) params
        /\ index_decided rel params [] outcome).
Proof.
  unfold CreateIndexOnIMMV. intros H. split.
  - intros Hg.
    assert (E : negb (is_nil (groupClause query)) = true)
      by (destruct (groupClause query); [contradiction | reflexivity]).
    rewrite E in H. inv_bind_as H params Hp. injection H as <-.
    exists params. split; [|apply define_index_decided].
    exact (group_index_params_spec _ _ _ _ Hp).
  - intros Hg Hd. rewrite Hg in H. simpl in H.
    assert (E : negb (is_nil (distinctClause query)) = true)
      by (destruct (distinctClause query); [contradiction | reflexivity]).
    rewrite E in H. inv_bind_as H params Hp. injection H as <-.
    exists params. split; [|apply define_index_decided].
    exact (all_index_params_spec _ _ _ Hp).
Qed.

(** X18.  Whatever the shape of the view query, an index that
    [CreateIndexOnIMMV] creates is unique, treats nulls as not distinct
    and is a btree; its name is the first 63 bytes of the view's name
    followed by [_index], so it is the view's name with the suffix
    [_index] when the view's name has at most 57 bytes, and it never
    has more than 63 bytes; every column of it is an attribute of the
    view; it is created only when the view has no compatible index on
    the same columns; and it depends on constraints only when the
    columns come from primary keys, that is for a query without GROUP
    BY and DISTINCT. *)
Theorem created_index_shape (depth : nat) (query : Query) (rel : Relation)
  (is_create : bool) (stmt : IndexStmt) (deps : list Oid) :
  CreateIndexOnIMMV depth query rel is_create = Ok (IndexCreated stmt deps) ->
  unique stmt = true
  /\ nulls_not_distinct stmt = true
  /\ accessMethod stmt = "btree"%string
  /\ idxname stmt = substring 0 63 (rd_relname rel ++ "_index")%string
  /\ ((String.length (rd_relname rel) <= 57)%nat ->
      idxname stmt = (rd_relname rel ++ "_index")%string)
  /\ (String.length (idxname stmt) <= 63)%nat
  /\ rd_has_compatible_index rel (indexParams stmt) = false
  /\ (forall name, In name (indexParams stmt) -> In name (rd_attnames rel))
  /\ (groupClause query <> [] \/ distinctClause query <> [] -> deps = []).
Proof.
  unfold CreateIndexOnIMMV. intros H.
  assert (Hshape : forall params cl,
            define_index rel params cl = IndexCreated stmt deps ->
            (forall name, In name params -> In name (rd_attnames rel)) ->
            unique stmt = true /\ nulls_not_distinct stmt = true
            /\ accessMethod stmt = "btree"%string
            /\ idxname stmt
               = substring 0 63 (rd_relname rel ++ "_index")%string
            /\ ((String.length (rd_relname rel) <= 57)%nat ->
                idxname stmt = (rd_relname rel ++ "_index")%string)
            /\ (String.length (idxname stmt) <= 63)%nat
            /\ rd_has_compatible_index rel (indexParams stmt) = false
            /\ (forall name, In name (indexParams stmt) ->
                             In name (rd_attnames rel))
            /\ deps = cl).
  { intros params cl Hd Hin. unfold define_index, index_name in Hd.
    destruct (rd_has_compatible_index rel params) eqn:Ec; [discriminate|].
    injection Hd as <- <-. cbn [unique nulls_not_distinct accessMethod
                                 idxname indexParams].
    change (NAMEDATALEN - 1)%nat with 63%nat.
    split; [reflexivity|]. split; [reflexivity|]. split; [reflexivity|].
    split; [reflexivity|].
    split.
    { intros Hlen. apply substring_all. rewrite length_append. simpl. lia. }
    split; [rewrite length_substring; lia|].
    split; [exact Ec|]. split; [exact Hin | reflexivity]. }
  destruct (negb (is_nil (groupClause query))) eqn:Eg;
    [|destruct (negb (is_nil (distinctClause query))) eqn:Ed];
    [| |apply not_is_nil_false in Eg, Ed].
  3: {
      inv_bind_as H r Hr.
      destruct (fst r) eqn:Ek; [|discriminate].
      inv_bind_as H params Hp. injection H as H.
      apply key_index_params_spec in Hp.
      destruct (Hshape params (snd r) H)
        as (A & B & C & D & D1 & D2 & E & G & _).
      { intros name Hn.
        destruct (Forall2_In_r _ _ _ Hp name Hn) as (tle & _ & Ht).
        exact (attname_of_In _ _ _ Ht). }
      repeat split; auto. intros [X|X]; contradiction. }
  - inv_bind_as H params Hp. injection H as H.
    apply group_index_params_spec in Hp.
    destruct (Hshape params [] H) as (A & B & C & D & D1 & D2 & E & G & K).
    { intros name Hn.
      destruct (Forall2_In_r _ _ _ Hp name Hn) as (scl & _ & tle & _ & Ht).
      exact (attname_of_In _ _ _ Ht). }
    repeat split; auto.
  - inv_bind_as H params Hp. injection H as H.
    apply all_index_params_spec in Hp.
    destruct (Hshape params [] H) as (A & B & C & D & D1 & D2 & E & G & K).
    { intros name Hn.
      destruct (Forall2_In_r _ _ _ Hp name Hn) as (tle & _ & Ht).
      exact (attname_of_In _ _ _ Ht). }
    repeat split; auto.
Qed.

End ProvisionMore.

(** ** The orchestrator: further properties *)

Section OrchestratorMore.

Context {collab : Collaborators}.

(** X19.  The columns that [create_ctas_nodata] defines the relation
    with are those of the target entries that are not junk, in order
    and with the types of their expressions; the explicit column names
    of the INTO clause, of which there are no more than columns, name
    the first columns and the remaining ones keep the names of their
    target entries; and a collation was derived for every one of
    them. *)
Theorem ctas_nodata_columns (tlist : list TargetEntry) (into : IntoClause)
  (address : Oid) :
  create_ctas_nodata tlist into = Ok address ->
  let visible := filter (fun t => negb (resjunk t)) tlist in
  exists cols,
    DefineRelation into cols = Ok address
    /\ (List.length (colNames into) <= List.length visible)%nat
    /\ map coltype cols = map (fun t => exprType (expr t)) visible
    /\ map colname cols =
         map Some (colNames into)
         ++ map resname (skipn (List.length (colNames into)) visible)
    /\ Forall (fun t => collation_derived (expr t) = true) visible.
Proof.
  intros H. cbv zeta. unfold create_ctas_nodata in H.
  inv_bind_as H cols Hc. exists cols. split; [exact H|]. clear H.
  revert cols Hc. generalize (colNames into).
  induction tlist as [|tle rest IH]; intros names cols H; simpl in H.
  - apply raise_if_Ok_inv in H. destruct H as [Hn H].
    apply not_is_nil_false in Hn. subst names. injection H as <-.
    simpl. repeat split; auto.
  - simpl. destruct (resjunk tle) eqn:Ej; simpl; [exact (IH _ _ H)|].
    destruct names as [|n ns].
    + apply raise_if_Ok_inv in H. destruct H as [Hcoll H].
      apply negb_false_iff in Hcoll.
      inv_bind_as H cols' Hc. injection H as <-.
      destruct (IH _ _ Hc) as (L & T & N & C). simpl in *.
      repeat split; auto; try lia; try congruence;
        constructor; assumption.
    + apply raise_if_Ok_inv in H. destruct H as [Hcoll H].
      apply negb_false_iff in Hcoll.
      inv_bind_as H cols' Hc. injection H as <-.
      destruct (IH _ _ Hc) as (L & T & N & C). simpl in *.
      repeat split; auto; try lia; try congruence;
        constructor; assumption.
Qed.

(** X20.  With more explicit column names than target entries that are
    not junk, [create_ctas_nodata] fails and the relation is not
    defined; the error is that too many column names were specified
    when a collation was derived for every column. *)
Theorem ctas_nodata_too_many_names (tlist : list TargetEntry)
  (into : IntoClause) :
  let visible := filter (fun t => negb (resjunk t)) tlist in
  (List.length visible < List.length (colNames into))%nat ->
  (exists e, create_ctas_nodata tlist into = Error e)
  /\ (Forall (fun t => collation_derived (expr t) = true) visible ->
      create_ctas_nodata tlist into
      = Error (E_External "too many column names were specified")).
Proof.
  cbv zeta. intros Hlen. unfold create_ctas_nodata.
  assert (H : (exists e, ctas_columns tlist (colNames into) = Error e)
              /\ (Forall (fun t => collation_derived (expr t) = true)
                         (filter (fun t => negb (resjunk t)) tlist) ->
                  ctas_columns tlist (colNames into)
                  = Error (E_External
                             "too many column names were specified"))).
  { revert Hlen. generalize (colNames into).
    induction tlist as [|tle rest IH]; intros names Hlen; simpl in *.
    - destruct names; [simpl in Hlen; lia|]. simpl. eauto.
    - destruct (resjunk tle) eqn:Ej; simpl in *; [exact (IH _ Hlen)|].
      destruct names as [|n ns]; [simpl in Hlen; lia|]. simpl in Hlen.
      destruct (IH ns) as [(e & He) Hall]; [lia|].
      split.
      + destruct (collation_derived (expr tle)); simpl; [|eauto].
        rewrite He. simpl. eauto.
      + intros Hf. inversion Hf as [|x l Hx Hl]; subst.
        rewrite Hx. simpl. rewrite (Hall Hl). reflexivity. }
  destruct H as [(e & He) Hall]. split.
  - rewrite He. simpl. eauto.
  - intros Hf. rewrite (Hall Hf). reflexivity.
Qed.

(** X21.  When the relation to create exists already,
    [ExecCreateTableAs] looks at nothing else: with IF NOT EXISTS it
    returns the invalid address and does nothing, whatever the query
    is, and without it it fails with the duplicate-table error. *)
Theorem existing_relation_is_left_alone (depth : nat)
  (stmt : CreateTableAsStmt) :
  get_relname_relid (into_relname (stmt_into stmt)) = true ->
  (if_not_exists stmt = true -> ExecCreateTableAs depth stmt = Ok (None, []))
  /\ (if_not_exists stmt = false ->
      ExecCreateTableAs depth stmt = Error E_DuplicateTable)
  /\ forall address trace,
       ExecCreateTableAs depth stmt = Ok (address, trace) ->
       address = None /\ trace = [].
Proof.
  intros Hex. unfold ExecCreateTableAs, CreateTableAsRelExists.
  rewrite Hex. destruct (if_not_exists stmt); simpl.
  - repeat split; try discriminate; try reflexivity;
      intros; congruence.
  - repeat split; try discriminate; try reflexivity.
Qed.

(** X22.  Without the IVM option, or for a plain CREATE TABLE AS, the
    query is neither checked nor rewritten: the relation is created
    from the query as it stands, from its target list with no data or
    by running the single query that the rule rewriter returns for it,
    and nothing else is done. *)
Theorem plain_ctas_is_not_checked (depth : nat) (stmt : CreateTableAsStmt)
  (address : option Oid) (trace : list event) :
  let into := stmt_into stmt in
  let query := stmt_query stmt in
  stmt_is_execute stmt = false ->
  viewQuery into = None \/ ivm into = false ->
  ExecCreateTableAs depth stmt = Ok (address, trace) ->
  (address = None /\ trace = []
   /\ get_relname_relid (into_relname into) = true)
  \/ exists oid,
       address = Some oid
       /\ ((skipData into = true
            /\ create_ctas_nodata (targetList query) into = Ok oid
            /\ trace = [RelationDefinedWithNoData (targetList query) oid])
           \/ (skipData into = false
               /\ exists q, QueryRewrite query = [q]
                            /\ ExecutorRun q into = Ok oid
                            /\ trace = [QueryExecuted q oid])).
Proof.
  intros into query Hexe Hplain H. unfold ExecCreateTableAs in H.
  fold into in H. fold query in H.
  inv_bind_as H already Hex. destruct already.
  - injection H as <- <-. left.
    unfold CreateTableAsRelExists in Hex. fold into in Hex.
    destruct (get_relname_relid (into_relname into)); [auto | discriminate].
  - right. rewrite Hexe in H.
    assert (Hp : prepare_immv query into = Ok (query, None, [])).
    { unfold prepare_immv. destruct Hplain as [-> | ->]; simpl;
        [reflexivity | now rewrite andb_false_r]. }
    rewrite Hp in H. simpl in H. inv_bind_as H c Hc.
    assert (Hf : finish_immv depth into None (fst c) = Ok []).
    { unfold finish_immv. destruct Hplain as [-> | ->];
        [reflexivity | destruct (viewQuery into); reflexivity]. }
    rewrite Hf in H. simpl in H. injection H as <- <-.
    exists (fst c). split; [reflexivity|]. rewrite app_nil_r.
    unfold create_relation in Hc. destruct (skipData into).
    + left. inv_bind_as Hc a Ha. injection Hc as <-. auto.
    + right. destruct (QueryRewrite query) as [|q [|q' l]];
        try discriminate.
      inv_bind_as Hc a Ha. injection Hc as <-. eauto.
Qed.

(** X23.  An incrementally maintainable materialized view that
    [ExecCreateTableAs] creates has a defining query without mutable
    functions that the restriction check accepts; the relation is
    created from the rewritten query; and when the view is populated,
    the index is provisioned from the view query of the INTO clause
    and the triggers from the rewritten query, on a catalog of
    triggers that starts empty. *)
Theorem created_immv_was_checked (depth : nat) (stmt : CreateTableAsStmt)
  (vq : Query) (oid : Oid) (trace : list event) :
  let into := stmt_into stmt in
  let query := stmt_query stmt in
  stmt_is_execute stmt = false ->
  viewQuery into = Some vq ->
  ivm into = true ->
  ExecCreateTableAs depth stmt = Ok (Some oid, trace) ->
  contain_mutable_functions query = false
  /\ check_ivm_restriction (T_Query query) = Ok tt
  /\ exists rewritten ev,
       rewriteQueryForIMMV query (colNames into) = Ok rewritten
       /\ create_relation rewritten into = Ok (oid, ev)
       /\ (skipData into = true ->
           trace = [RestrictionChecked query; QueryRewritten rewritten]
                   ++ ev ++ [IVMStateMarked oid])
       /\ (skipData into = false ->
           exists outcome triggers,
             CreateIndexOnIMMV depth vq (table_open oid) true = Ok outcome
             /\ CreateIvmTriggersOnBaseTables depth rewritten oid true []
                = Ok triggers
             /\ trace = [RestrictionChecked query; QueryRewritten rewritten]
                        ++ ev
                        ++ [IVMStateMarked oid; IndexProvisioned outcome;
                            TriggersProvisioned triggers]).
Proof.
  intros into query Hexe Hvq Hivm H. unfold ExecCreateTableAs in H.
  fold into in H. fold query in H.
  inv_bind_as H already Hex. destruct already; [discriminate|].
  rewrite Hexe in H. inv_bind_as H p Hp.
  rewrite (prepare_immv_ivm query vq into Hvq Hivm) in Hp.
  apply raise_if_Ok_inv in Hp. destruct Hp as [Hmut Hp].
  inv_bind_as Hp u Hu. destruct u.
  inv_bind_as Hp rewritten Hrw. injection Hp as <-.
  inv_bind_as H c Hc. inv_bind_as H ev3 H3. injection H as <- <-.
  split; [exact Hmut|]. split; [exact Hu|].
  exists rewritten, (snd c).
  split; [exact Hrw|]. split; [destruct c; exact Hc|].
  unfold finish_immv in H3. rewrite Hvq, Hivm in H3.
  destruct (skipData into); simpl in H3.
  - injection H3 as <-. split; [reflexivity | discriminate].
  - split; [discriminate|]. intros _.
    inv_bind_as H3 outcome Ho. inv_bind_as H3 triggers Ht.
    injection H3 as <-. exists outcome, triggers. auto.
Qed.

End OrchestratorMore.

(** ** The tuple receiver *)

Section IntoRelFacts.

Context {collab : Collaborators} {storage : Storage}.

(** X24.  When the tuple descriptor describes the target list, the
    receiver's startup and [create_ctas_nodata] build the same column
    definitions from the same explicit column names, and fail alike:
    a view created WITH NO DATA has the columns it would have with
    data. *)
Theorem intorel_columns_agree (tlist : list TargetEntry)
  (typeinfo : TupleDesc) (names : list string) :
  describes tlist typeinfo ->
  intorel_columns typeinfo names = ctas_columns tlist names.
Proof.
  unfold describes. revert typeinfo names.
  induction tlist as [|tle rest IH]; intros typeinfo names H; simpl in *.
  - inversion H; subst. reflexivity.
  - destruct (resjunk tle) eqn:Ej; simpl in H; [exact (IH _ _ H)|].
    inversion H as [|t a l l' (Hn & Ht & Hc) Hrest]; subst. simpl.
    rewrite Hc, negb_involutive, Ht.
    destruct names as [|n ns]; rewrite (IH _ _ Hrest);
      [rewrite Hn|]; reflexivity.
Qed.

Lemma intorel_columns_Ok (typeinfo : TupleDesc) :
  forall names cols,
    intorel_columns typeinfo names = Ok cols ->
    (List.length names <= List.length typeinfo)%nat
    /\ map coltype cols = map atttypid typeinfo
    /\ map colname cols =
         map Some (names
                   ++ map attname (skipn (List.length names) typeinfo))
    /\ Forall (fun a => OidIsValid (attcollation a) = true
                        \/ type_is_collatable (atttypid a) = false)
              typeinfo.
Proof.
  induction typeinfo as [|a rest IH]; intros names cols H; simpl in H.
  - apply raise_if_Ok_inv in H. destruct H as [Hn H].
    apply not_is_nil_false in Hn. subst names. injection H as <-.
    simpl. repeat split; auto.
  - assert (Hcoll : forall b,
              negb (OidIsValid (attcollation a))
              && type_is_collatable (atttypid a) = b -> b = false ->
              OidIsValid (attcollation a) = true
              \/ type_is_collatable (atttypid a) = false).
    { intros b <- E. apply andb_false_iff in E.
      destruct E as [E|E]; [left; now apply negb_false_iff | now right]. }
    destruct names as [|n ns].
    + apply raise_if_Ok_inv in H. destruct H as [Hc H].
      inv_bind_as H cols' Hcols. injection H as <-.
      destruct (IH _ _ Hcols) as (L & T & N & C). simpl in *.
      repeat split; auto; try lia; try congruence.
      constructor; [exact (Hcoll _ eq_refl Hc) | exact C].
    + apply raise_if_Ok_inv in H. destruct H as [Hc H].
      inv_bind_as H cols' Hcols. injection H as <-.
      destruct (IH _ _ Hcols) as (L & T & N & C). simpl in *.
      repeat split; auto; try lia; try congruence.
      constructor; [exact (Hcoll _ eq_refl Hc) | exact C].
Qed.

(** X25.  When [intorel_startup] returns, the relation has been
    defined with one column per attribute of the tuple descriptor, of
    the attribute's type; the explicit column names of the INTO
    clause, no more than attributes, name the first columns and the
    others keep the attribute names; no attribute has a collatable
    type without a collation; row security is off for the relation;
    and the relation has been opened, and marked populated exactly
    for a materialized view that is filled. *)
Theorem intorel_startup_defines (self s : DR_intorel) (typeinfo : TupleDesc)
  (log log1 : list storage_event) :
  intorel_startup self typeinfo log = Ok (s, log1) ->
  exists i cols,
    into self = Some i
    /\ DefineRelation i cols = Ok (reladdr s)
    /\ check_enable_rls (reladdr s) = Ok false
    /\ (List.length (colNames i) <= List.length typeinfo)%nat
    /\ map coltype cols = map atttypid typeinfo
    /\ map colname cols =
         map Some (colNames i
                   ++ map attname (skipn (List.length (colNames i)) typeinfo))
    /\ Forall (fun a => OidIsValid (attcollation a) = true
                        \/ type_is_collatable (atttypid a) = false)
              typeinfo
    /\ log1 = log ++ [TableOpened (reladdr s)]
              ++ (if is_some (viewQuery i) && negb (skipData i)
                  then [MatViewPopulatedStateSet (reladdr s)] else []).
Proof.
  unfold intorel_startup. intros H.
  destruct (into self) as [i|]; [|discriminate].
  inv_bind_as H attrList Ha. inv_bind_as H addr Hd.
  inv_bind_as H rls Hr. apply raise_if_Ok_inv in H. destruct H as [-> H].
  injection H as <- <-. simpl.
  destruct (intorel_columns_Ok _ _ _ Ha) as (L & T & N & C).
  exists i, attrList. repeat split; auto.
  destruct (is_some (viewQuery i) && negb (skipData i));
    [rewrite <- app_assoc|]; reflexivity.
Qed.

Lemma receive_all_log (slots : list TupleTableSlot) (self : DR_intorel)
  (i : IntoClause) (a : Oid) :
  into self = Some i -> rel self = Some a ->
  forall log,
    receive_all slots self log =
      Ok (log ++ if skipData i then []
                 else map (fun slot =>
                             TupleInserted a slot (output_cid self)
                               (ti_options self) (bistate self)) slots).
Proof.
  intros Hi Ha. induction slots as [|slot rest IH]; intros log; simpl.
  - destruct (skipData i); now rewrite app_nil_r.
  - unfold intorel_receive. rewrite Hi, Ha.
    destruct (skipData i) eqn:Es; simpl.
    + rewrite IH. try rewrite Es. reflexivity.
    + rewrite IH. try rewrite Es. rewrite <- app_assoc. reflexivity.
Qed.

(** X26.  Once [intorel_startup] has returned, the receiver takes any
    number of rows and shuts down without error.  When the INTO clause
    asks for data, every row received is inserted into the relation
    that the startup created, in the order received, with the command
    id, the insert options and the bulk-insert state of the startup,
    and the bulk insert is then finished; WITH NO DATA nothing is
    inserted.  In both cases the relation is closed last and the
    receiver keeps its address. *)
Theorem receiver_life_cycle (self s : DR_intorel) (typeinfo : TupleDesc)
  (slots : list TupleTableSlot) (log log1 : list storage_event) :
  intorel_startup self typeinfo log = Ok (s, log1) ->
  exists i s',
    into self = Some i
    /\ receiver_run self typeinfo slots log =
         Ok (s',
             log1
             ++ (if skipData i then []
                 else map (fun slot =>
                             TupleInserted (reladdr s) slot
                               GetCurrentCommandId TABLE_INSERT_SKIP_FSM
                               (Some GetBulkInsertState)) slots
                      ++ [BulkInsertStateFreed (Some GetBulkInsertState);
                          BulkInsertFinished (reladdr s)
                            TABLE_INSERT_SKIP_FSM])
             ++ [TableClosed (reladdr s)])
    /\ rel s' = None /\ reladdr s' = reladdr s.
Proof.
  intros H. unfold receiver_run. rewrite H. simpl.
  unfold intorel_startup in H.
  destruct (into self) as [i|]; [|discriminate].
  inv_bind_as H attrList Ha. inv_bind_as H addr Hd.
  inv_bind_as H rls Hr. apply raise_if_Ok_inv in H. destruct H as [-> H].
  injection H as <- <-.
  rewrite receive_all_log with (i := i) (a := addr) by reflexivity. simpl.
  unfold intorel_shutdown. simpl.
  exists i, (mkDR_intorel (Some i) None addr GetCurrentCommandId
               TABLE_INSERT_SKIP_FSM
               (if negb (skipData i) then Some GetBulkInsertState else None)).
  split; [reflexivity|].
  split; [|split; reflexivity].
  f_equal. f_equal.
  destruct (skipData i); simpl.
  - rewrite ?app_nil_r. reflexivity.
  - rewrite <- ?app_assoc. reflexivity.
Qed.

End IntoRelFacts.

(** ** The theorems at work on the sample catalog *)

Lemma rewrite_closure_witness :
  rewriteQueryForIMMV (collab := Sample.collab) Sample.q_distinct []
    = Ok Sample.q_distinct_rewritten
  /\ exists e,
       check_ivm_restriction (collab := Sample.collab)
         (T_Query Sample.q_distinct_rewritten) = Error e.
Proof.
  split; [reflexivity|].
  apply (proj2 (@rewrite_closure Sample.collab Sample.q_distinct
                  Sample.q_distinct_rewritten [] eq_refl)
           Sample.q_distinct eq_refl).
  left. discriminate.
Defined.

Lemma rewrite_distinct_to_group_witness :
  rewriteQueryForIMMV (collab := Sample.collab) Sample.q_distinct []
    = Ok Sample.q_distinct_rewritten
  /\ hasAggs Sample.q_distinct_rewritten = true.
Proof.
  split; [reflexivity|].
  apply (@rewrite_distinct_to_group Sample.collab Sample.q_distinct
           Sample.q_distinct Sample.q_distinct_rewritten []);
    [reflexivity | discriminate | reflexivity | reflexivity | reflexivity].
Defined.

Lemma avg_companion_columns_witness :
  rewriteQueryForIMMV (collab := Sample.collab) Sample.q_avg []
    = Ok Sample.q_avg_rewritten
  /\ exists before after count_col sum_col last,
       targetList Sample.q_avg_rewritten =
         targetList Sample.q_avg ++ before
         ++ [mkTargetEntry count_col
               (Z.of_nat (List.length (targetList Sample.q_avg ++ before)) + 1)
               (Some "__ivm_count_m__") 0%nat false;
             mkTargetEntry sum_col
               (Z.of_nat (List.length (targetList Sample.q_avg ++ before)) + 2)
               (Some "__ivm_sum_m__") 0%nat false]
         ++ after ++ [last]
       /\ count_col
          = T_Aggref 2147 []
              [T_TargetEntry (Sample.target (Sample.column 1 2) 1 "")]
              [] [] None false
       /\ sum_col
          = T_Aggref 2108 [INT4OID]
              [T_TargetEntry (Sample.target (Sample.column 1 2) 1 "")]
              [] [] None false.
Proof.
  split; [reflexivity|].
  destruct (@avg_companion_columns Sample.collab Sample.q_avg Sample.q_avg
              Sample.q_avg_rewritten []
              [mkTargetEntry (Sample.column 1 1) 1 (Some "a") 1%nat false] []
              (Sample.target Sample.avg_b 2 "m")
              2101 [INT4OID]
              [T_TargetEntry (Sample.target (Sample.column 1 2) 1 "")]
              [] [] None false "m"
              eq_refl eq_refl eq_refl eq_refl eq_refl eq_refl eq_refl)
    as (before & after & count_node & sum_node & count_col & sum_col & last
        & Hc & Hs & Hcc & Hsc & Htl & Hn & _).
  destruct Hn as [Hn1 Hn2]; [simpl; lia|].
  rewrite Hn1, Hn2 in Htl.
  exists before, after, count_col, sum_col, last.
  split; [exact Htl|].
  split; [eapply Hcc | eapply Hsc]; symmetry;
    [injection Hc as Hc; exact Hc | injection Hs as Hs; exact Hs].
Defined.

Lemma lock_mode_decision_witness :
  (first_rtindex true <= List.length (rtable Sample.q_plain))%nat
  /\ (first_rtindex true <= List.length (rtable Sample.q_selfjoin))%nat
  /\ CreateIvmTriggersOnBaseTables 10 Sample.q_plain 20000 true []
     = Ok (six_triggers 20000 false 16384)
  /\ triggers_on 16384 (six_triggers 20000 false 16384)
     = six_triggers 20000 false 16384
  /\ CreateIvmTriggersOnBaseTables 10 Sample.q_selfjoin 20000 true []
     = Ok Sample.q_selfjoin_triggers
  /\ List.length (triggers_on 16385 Sample.q_selfjoin_triggers) = 6%nat
  /\ forall t, In t Sample.q_selfjoin_triggers -> arg_ex_lock t = true.
Proof.
  split; [simpl; lia|]. split; [simpl; lia|].
  split; [reflexivity|].
  split.
  - destruct (lock_mode_decision Sample.q_plain 20000 true (Nat.le_refl 1))
      as (rte & ex_lock & Hn & Hiff & _ & _ & Htr).
    injection Hn as <-.
    rewrite (proj2 Hiff (conj eq_refl eq_refl)) in Htr.
    refine (proj1 (proj1 (Htr 10%nat _ eq_refl) 16384 _)).
    eapply reachable_jointree; [reflexivity|].
    eapply reach_fromlist; [left; reflexivity|].
    change 16384 with (relid (Sample.table 16384)).
    apply reach_relation; reflexivity.
  - split; [reflexivity|].
    destruct (lock_mode_decision Sample.q_selfjoin 20000 true
                (Nat.le_trans _ _ _ (Nat.le_succ_diag_r 1)
                   (Nat.le_succ_diag_r 2)))
      as (rte & ex_lock & Hn & _ & Himp & _ & Htr).
    rewrite (Himp (or_introl (Nat.lt_trans 1 2 3 (Nat.lt_succ_diag_r 1)
                                (Nat.lt_succ_diag_r 2)))) in Htr.
    destruct (Htr 10%nat _ eq_refl) as [Hr Hall].
    split; [|exact Hall].
    refine (proj1 (proj2 (Hr 16385 _))).
    eapply reachable_jointree; [reflexivity|].
    eapply reach_fromlist; [right; left; reflexivity|].
    change 16385 with (relid (Sample.table 16385)).
    apply reach_relation; reflexivity.
Defined.

Lemma six_triggers_per_relation_witness :
  (first_rtindex true <= List.length (rtable Sample.q_selfjoin))%nat
  /\ CreateIvmTriggersOnBaseTables 10 Sample.q_selfjoin 20000 true []
     = Ok Sample.q_selfjoin_triggers
  /\ exists ex_lock,
       choose_ex_lock Sample.q_selfjoin true = Some ex_lock
       /\ forall r, reachable Sample.q_selfjoin r ->
            triggers_on r Sample.q_selfjoin_triggers
            = six_triggers 20000 ex_lock r.
Proof.
  split; [simpl; lia | split; [reflexivity|]].
  destruct (six_triggers_per_relation 10 Sample.q_selfjoin 20000 true
              Sample.q_selfjoin_triggers
              (Nat.le_trans _ _ _ (Nat.le_succ_diag_r 1)
                 (Nat.le_succ_diag_r 2)) eq_refl)
    as (ex_lock & H1 & _ & H2 & _).
  exists ex_lock. split; [exact H1|].
  intros r Hr. exact (proj1 (H2 r Hr)).
Defined.


Lemma where_clause_null_rejecting_witness :
  let qry := Sample.q_left_join 96 (Some Sample.f_t2_b) in
  (exists jt, jointree qry = Some jt /\ contains_outer_join jt)
  /\ check_ivm_restriction (collab := Sample.collab) (T_Query qry)
     = Error E_WhereNotNullRejecting.
Proof.
  assert (Hoj : contains_outer_join
                  (T_FromExpr
                     [T_JoinExpr JOIN_LEFT (Some (T_RangeTblRef 1))
                        (Some (T_RangeTblRef 2))
                        (Some (T_OpExpr 96 [Sample.column 1 1;
                                            Sample.column 2 1]))]
                     (Some Sample.f_t2_b))).
  { eapply outer_join_fromlist; [left; reflexivity|].
    apply outer_join_here. reflexivity. }
  split; [eexists; split; [reflexivity | exact Hoj]|].
  eapply (proj2 (proj2 (proj2
            (@where_clause_null_rejecting Sample.collab
               (Sample.q_left_join 96 (Some Sample.f_t2_b)) _ eq_refl Hoj))));
    try reflexivity.
  exists (mkVar 2 2 INT4OID 0). split; [left; reflexivity | intros []].
Defined.

Lemma nested_distinct_or_aggs_rejected_witness :
  (0 < sublevels_up (incr_sublevels initial_context))%nat
  /\ distinctClause Sample.q_distinct <> []
  /\ check_ivm_restriction_walker (collab := Sample.collab)
       (T_Query Sample.q_distinct) (incr_sublevels initial_context)
     = Error E_NestedDistinct.
Proof.
  split; [apply Nat.lt_0_1 | split; [discriminate|]].
  apply (@nested_distinct_or_aggs_rejected Sample.collab Sample.q_distinct
           (incr_sublevels initial_context) Nat.lt_0_1);
    [left; discriminate | reflexivity].
Defined.

Lemma ExecCreateTableAs_skipData_witness :
  ExecCreateTableAs (collab := Sample.collab) 1 Sample.stmt_no_data
  = Ok (Some 20000,
        [RestrictionChecked Sample.q_distinct;
         QueryRewritten Sample.q_distinct_rewritten;
         RelationDefinedWithNoData
           (targetList Sample.q_distinct_rewritten) 20000;
         IVMStateMarked 20000]).
Proof.
  apply (proj1 (@ExecCreateTableAs_skipData Sample.collab 1
                  Sample.stmt_no_data Sample.q_distinct
                  eq_refl eq_refl eq_refl eq_refl eq_refl) eq_refl);
    reflexivity.
Defined.

Lemma sublink_in_targetList_rejected_witness :
  targetList Sample.q_sublink_target =
    [Sample.target (Sample.column 1 1) 1 "a"]
    ++ Sample.target Sample.exists_t2 2 "e" :: []
  /\ check_ivm_restriction (collab := Sample.collab)
       (T_Query Sample.q_sublink_target) = Error E_SubqueryInTargetList.
Proof.
  split; [reflexivity|].
  eapply (proj2 (@sublink_in_targetList_rejected Sample.collab
                   Sample.q_sublink_target
                   [Sample.target (Sample.column 1 1) 1 "a"] []
                   (Sample.target Sample.exists_t2 2 "e") eq_refl eq_refl));
    reflexivity.
Defined.

(** ** The further properties at work on the sample catalog *)

Lemma accepted_query_clauses_witness :
  check_ivm_restriction (collab := Sample.collab)
    (T_Query Fixture.q_from_subquery) = Ok tt
  /\ sortClause Sample.q_plain = []
  /\ distinctClause Sample.q_plain = [].
Proof.
  split; [reflexivity|].
  destruct (@accepted_query_clauses Sample.collab Fixture.q_from_subquery
              eq_refl true Sample.q_plain) as [(_ & S & _) N].
  { right. left. reflexivity. }
  split; [exact S | exact (proj1 (N eq_refl))].
Defined.

Lemma accepted_range_tables_witness :
  check_ivm_restriction (collab := Sample.collab)
    (T_Query Fixture.q_from_subquery) = Ok tt
  /\ relkind (Sample.table 16384) <> RELKIND_VIEW
  /\ rtekind (Sample.table 16384) <> RTE_VALUES.
Proof.
  split; [reflexivity|].
  destruct (@accepted_range_tables Sample.collab Fixture.q_from_subquery
              eq_refl true Sample.q_plain (Sample.table 16384))
    as (_ & _ & _ & _ & V & _ & W).
  { right. left. reflexivity. }
  { left. reflexivity. }
  split; [exact V | exact W].
Defined.

Lemma accepted_names_witness :
  check_ivm_restriction (collab := Sample.collab) (T_Query Sample.q_plain)
    = Ok tt
  /\ isIvmName (Some "a") = false.
Proof.
  split; [reflexivity|].
  destruct (@accepted_names Sample.collab Sample.q_plain eq_refl
              false Sample.q_plain) as [T _].
  { left. reflexivity. }
  exact (proj1 (T (Sample.target (Sample.column 1 1) 1 "a")
                  (or_introl eq_refl))).
Defined.

Lemma accepted_aggregates_witness :
  check_ivm_restriction (collab := Sample.collab) (T_Query Sample.q_avg)
    = Ok tt
  /\ check_aggregate_supports_ivm (collab := Sample.collab) 2101 = true.
Proof.
  split; [reflexivity|].
  destruct (@accepted_aggregates Sample.collab Sample.q_avg eq_refl)
    as [A _].
  refine (proj2 (proj2 (proj2
            (A false Sample.q_avg (Sample.target Sample.avg_b 2 "m")
               2101 _ _ _ _ _ _ _ _ eq_refl)))).
  - left. reflexivity.
  - right. left. reflexivity.
Defined.

Lemma accepted_outer_joins_are_equijoins_witness :
  check_ivm_restriction (collab := Sample.collab)
    (T_Query Fixture.q_left_equijoin) = Ok tt
  /\ is_equijoin_condition (collab := Sample.collab)
       (Some Fixture.t1_a_eq_t2_a) = true.
Proof.
  split; [reflexivity|].
  refine (proj1 (@accepted_outer_joins_are_equijoins Sample.collab
                   Fixture.q_left_equijoin _ (Some Fixture.t1_a_eq_t2_a)
                   eq_refl eq_refl _)).
  eapply outer_qual_fromlist; [left; reflexivity|].
  apply outer_qual_here. reflexivity.
Defined.

Lemma accepted_outer_join_query_witness :
  check_ivm_restriction (collab := Sample.collab)
    (T_Query Fixture.q_left_equijoin) = Ok tt
  /\ hasAggs Fixture.q_left_equijoin = false
  /\ forall rte, In rte (rtable Fixture.q_left_equijoin) ->
                 rtekind rte <> RTE_SUBQUERY.
Proof.
  split; [reflexivity|].
  destruct (@accepted_outer_join_query Sample.collab
              Fixture.q_left_equijoin _ (Some Fixture.t1_a_eq_t2_a)
              eq_refl eq_refl) as (A & S & _).
  { eapply outer_qual_fromlist; [left; reflexivity|].
    apply outer_qual_here. reflexivity. }
  split; [exact A | exact S].
Defined.

Lemma equijoin_condition_sides_witness :
  is_equijoin_condition (collab := Sample.collab)
    (Some Fixture.t1_a_eq_t2_a) = true
  /\ exists opno l r a b,
       Some Fixture.t1_a_eq_t2_a = Some (T_OpExpr opno [l; r])
       /\ a <> b
       /\ (forall x, In x (pull_varnos (Collaborators := Sample.collab) l)
                     <-> x = a)
       /\ (forall x, In x (pull_varnos (Collaborators := Sample.collab) r)
                     <-> x = b).
Proof.
  split; [reflexivity|].
  destruct (@equijoin_condition_sides Sample.collab
              (Some Fixture.t1_a_eq_t2_a) eq_refl)
    as (opno & l & r & a & b & E & N & L & R & _).
  exists opno, l, r, a, b. auto.
Defined.

Lemma rewrite_leaves_from_clause_witness :
  rewriteQueryForIMMV (collab := Sample.collab) Sample.q_avg []
    = Ok Sample.q_avg_rewritten
  /\ rtable Sample.q_avg_rewritten = rtable Sample.q_avg
  /\ jointree Sample.q_avg_rewritten = jointree Sample.q_avg
  /\ groupClause Sample.q_avg_rewritten = groupClause Sample.q_avg.
Proof.
  split; [reflexivity|].
  destruct (@rewrite_leaves_from_clause Sample.collab Sample.q_avg
              Sample.q_avg Sample.q_avg_rewritten [] eq_refl eq_refl)
    as ((_ & _ & _ & _ & _ & R & J & _) & _ & G).
  split; [exact R|]. split; [exact J|]. apply G. discriminate.
Defined.

Lemma rewrite_only_appends_witness :
  rewriteQueryForIMMV (collab := Sample.collab) Sample.q_distinct []
    = Ok Sample.q_distinct_rewritten
  /\ exists columns added,
       targetList Sample.q_distinct_rewritten = columns ++ added
       /\ Forall2 same_column (targetList Sample.q_distinct) columns
       /\ added <> [].
Proof.
  split; [reflexivity|].
  destruct (@rewrite_only_appends Sample.collab Sample.q_distinct
              Sample.q_distinct Sample.q_distinct_rewritten [] eq_refl eq_refl)
    as (columns & added & E & C & _ & _ & _ & N).
  exists columns, added. split; [exact E|]. split; [exact C|].
  intros X. apply N in X. destruct X as [X _]. discriminate.
Defined.

Lemma rewrite_aggregate_columns_witness :
  rewriteQueryForIMMV (collab := Sample.collab) Sample.q_avg []
    = Ok Sample.q_avg_rewritten
  /\ exists hidden last,
       targetList Sample.q_avg_rewritten
       = targetList Sample.q_avg ++ hidden ++ [last]
       /\ List.length hidden = 2%nat.
Proof.
  split; [reflexivity|].
  destruct (@rewrite_aggregate_columns Sample.collab Sample.q_avg
              Sample.q_avg Sample.q_avg_rewritten [] eq_refl eq_refl eq_refl)
    as (hidden & last & E & L & _).
  exists hidden, last. split; [exact E | exact L].
Defined.

Lemma rewrite_group_keys_in_select_list_witness :
  rewriteQueryForIMMV (collab := Sample.collab) Sample.q_avg []
    = Ok Sample.q_avg_rewritten
  /\ exists tle,
       In tle (targetList Sample.q_avg)
       /\ ressortgroupref tle = 1%nat /\ resjunk tle = false.
Proof.
  split; [reflexivity|].
  destruct (@rewrite_group_keys_in_select_list Sample.collab Sample.q_avg
              Sample.q_avg Sample.q_avg_rewritten [] eq_refl eq_refl
              (mkSortGroupClause 1 96 97) (or_introl eq_refl))
    as (tle & _ & I & R & J).
  exists tle. auto.
Defined.

Lemma triggers_are_appended_witness :
  CreateIvmTriggersOnBaseTables 10 Sample.q_selfjoin 20000 true
    [Fixture.other_trigger]
  = Ok (Fixture.other_trigger :: Sample.q_selfjoin_triggers)
  /\ exists (rels : list Oid) added,
       Fixture.other_trigger :: Sample.q_selfjoin_triggers
       = [Fixture.other_trigger] ++ added
       /\ List.length added = (6 * List.length rels)%nat.
Proof.
  split; [reflexivity|].
  destruct (triggers_are_appended 10 Sample.q_selfjoin 20000 true
              [Fixture.other_trigger]
              (Fixture.other_trigger :: Sample.q_selfjoin_triggers) eq_refl)
    as (rels & added & E & _ & _ & L & _).
  exists rels, added. auto.
Defined.


Lemma index_on_group_or_distinct_columns_witness :
  CreateIndexOnIMMV (collab := Sample.collab) 5 Sample.q_avg Sample.mv true
  = Ok (IndexCreated (mkIndexStmt "mv_index" true true "btree" ["a"]) [])
  /\ exists params,
       List.length params = 1%nat
       /\ index_decided Sample.mv params []
            (IndexCreated (mkIndexStmt "mv_index" true true "btree" ["a"]) []).
Proof.
  split; [reflexivity|].
  destruct (proj1 (@index_on_group_or_distinct_columns Sample.collab 5
                     Sample.q_avg Sample.mv true _ eq_refl))
    as (params & F2 & D).
  { discriminate. }
  exists params. split; [|exact D].
  apply Forall2_length in F2. symmetry. exact F2.
Defined.

Lemma created_index_shape_witness :
  String.length (rd_relname Fixture.mv_long) = 60%nat
  /\ exists stmt,
       CreateIndexOnIMMV (collab := Sample.collab) 5 Sample.q_distinct
         Fixture.mv_long true = Ok (IndexCreated stmt [])
       /\ idxname stmt
          = "monthly_revenue_per_customer_and_sales_region_immediate_view_in"%string
       /\ (String.length (idxname stmt) <= 63)%nat
       /\ forall name, In name (indexParams stmt) ->
                       In name (rd_attnames Fixture.mv_long).
Proof.
  split; [reflexivity|].
  eexists. split; [reflexivity|].
  destruct (@created_index_shape Sample.collab 5 Sample.q_distinct
              Fixture.mv_long true _ _ eq_refl)
    as (_ & _ & _ & N & _ & L & _ & A & _).
  split; [exact N|]. split; [exact L | exact A].
Defined.

Lemma ctas_nodata_columns_witness :
  create_ctas_nodata (collab := Sample.collab)
    (targetList Sample.q_distinct) Fixture.into_one_name = Ok 20000
  /\ exists cols,
       map colname cols = [Some "x"; Some "b"]
       /\ map coltype cols = [INT4OID; INT4OID].
Proof.
  split; [reflexivity|].
  destruct (@ctas_nodata_columns Sample.collab (targetList Sample.q_distinct)
              Fixture.into_one_name 20000 eq_refl)
    as (cols & _ & _ & T & N & _).
  exists cols. split; [exact N | exact T].
Defined.

Lemma ctas_nodata_too_many_names_witness :
  (List.length (filter (fun t => negb (resjunk t))
                       (targetList Sample.q_plain))
   < List.length (colNames Fixture.into_two_names))%nat
  /\ create_ctas_nodata (collab := Sample.collab)
       (targetList Sample.q_plain) Fixture.into_two_names
     = Error (E_External "too many column names were specified").
Proof.
  split; [simpl; lia|].
  apply (@ctas_nodata_too_many_names Sample.collab
           (targetList Sample.q_plain) Fixture.into_two_names).
  - simpl. lia.
  - repeat constructor.
Defined.

Lemma existing_relation_is_left_alone_witness :
  get_relname_relid (Collaborators := Fixture.collab_taken) "mv" = true
  /\ check_ivm_restriction (collab := Fixture.collab_taken)
       (T_Query (stmt_query Fixture.stmt_if_not_exists)) = Error E_OrderBy
  /\ ExecCreateTableAs (collab := Fixture.collab_taken) 10
       Fixture.stmt_if_not_exists = Ok (None, []).
Proof.
  split; [reflexivity|]. split; [reflexivity|].
  apply (@existing_relation_is_left_alone Fixture.collab_taken 10
           Fixture.stmt_if_not_exists eq_refl).
  reflexivity.
Defined.

Lemma plain_ctas_is_not_checked_witness :
  check_ivm_restriction (collab := Sample.collab)
    (T_Query (stmt_query Fixture.stmt_plain_matview)) = Error E_OrderBy
  /\ exists oid q,
       ExecCreateTableAs (collab := Sample.collab) 10
         Fixture.stmt_plain_matview = Ok (Some oid, [QueryExecuted q oid]).
Proof.
  split; [reflexivity|].
  destruct (@plain_ctas_is_not_checked Sample.collab 10
              Fixture.stmt_plain_matview (Some 20000)
              [QueryExecuted Sample.q_distinct_ordered 20000]
              eq_refl (or_intror eq_refl) eq_refl)
    as [(X & _)|(oid & _ & [(X & _)|(_ & q & _ & _ & _)])];
    try discriminate.
  exists 20000, Sample.q_distinct_ordered. reflexivity.
Defined.

Lemma created_immv_was_checked_witness :
  (exists trace,
     ExecCreateTableAs (collab := Sample.collab) 10 Fixture.stmt_immv
     = Ok (Some 20000, trace))
  /\ check_ivm_restriction (collab := Sample.collab) (T_Query Sample.q_plain)
     = Ok tt.
Proof.
  split; [eexists; reflexivity|].
  refine (proj1 (proj2 (@created_immv_was_checked Sample.collab 10
                          Fixture.stmt_immv Sample.q_plain 20000 _
                          eq_refl eq_refl eq_refl eq_refl))).
Defined.

Lemma intorel_columns_agree_witness :
  describes (collab := Sample.collab) (storage := Fixture.storage)
    (targetList Sample.q_plain) Fixture.desc_a
  /\ intorel_columns (storage := Fixture.storage) Fixture.desc_a []
     = ctas_columns (collab := Sample.collab) (targetList Sample.q_plain) [].
Proof.
  assert (D : describes (collab := Sample.collab) (storage := Fixture.storage)
                (targetList Sample.q_plain) Fixture.desc_a).
  { constructor; [repeat split; reflexivity | constructor]. }
  split; [exact D|].
  exact (@intorel_columns_agree Sample.collab Fixture.storage
           (targetList Sample.q_plain) Fixture.desc_a [] D).
Defined.

Lemma intorel_startup_defines_witness :
  exists s log1,
    intorel_startup (collab := Sample.collab) (storage := Fixture.storage)
      (CreateIntoRelDestReceiver (Some Fixture.into_mv)) Fixture.desc_a []
    = Ok (s, log1)
    /\ exists cols,
         DefineRelation (Collaborators := Sample.collab) Fixture.into_mv cols
         = Ok (reladdr s)
         /\ map colname cols = [Some "a"]
         /\ log1 = [TableOpened 20000; MatViewPopulatedStateSet 20000].
Proof.
  eexists. eexists. split; [reflexivity|].
  destruct (@intorel_startup_defines Sample.collab Fixture.storage
              (CreateIntoRelDestReceiver (Some Fixture.into_mv)) _
              Fixture.desc_a [] _ eq_refl)
    as (i & cols & Hi & D & _ & _ & _ & N & _ & L).
  injection Hi as <-.
  exists cols. split; [exact D|]. split; [exact N | exact L].
Defined.

Lemma receiver_life_cycle_witness :
  exists s log1 s',
    intorel_startup (collab := Sample.collab) (storage := Fixture.storage)
      (CreateIntoRelDestReceiver (Some Fixture.into_mv)) Fixture.desc_a []
    = Ok (s, log1)
    /\ receiver_run (collab := Sample.collab) (storage := Fixture.storage)
         (CreateIntoRelDestReceiver (Some Fixture.into_mv)) Fixture.desc_a
         [7; 8] []
       = Ok (s',
             [@TableOpened Fixture.storage 20000;
              MatViewPopulatedStateSet 20000;
              @TupleInserted Fixture.storage 20000 7 1 2
                (Some BulkInsertStateData);
              @TupleInserted Fixture.storage 20000 8 1 2
                (Some BulkInsertStateData);
              BulkInsertStateFreed (Some BulkInsertStateData);
              BulkInsertFinished 20000 2; TableClosed 20000])
    /\ rel s' = None.
Proof.
  eexists. eexists.
  destruct (@receiver_life_cycle Sample.collab Fixture.storage
              (CreateIntoRelDestReceiver (Some Fixture.into_mv)) _
              Fixture.desc_a [7; 8] [] _ eq_refl)
    as (i & s' & Hi & R & N & _).
  injection Hi as <-.
  exists s'. split; [reflexivity|]. split; [exact R | exact N].
Defined.

Lemma exists_count_columns_witness :
  hasSubLinks Fixture.q_exists = true
  /\ exists q1 tle,
       rewrite_exists (collab := Fixture.collab_exists) Fixture.q_exists
       = Ok q1
       /\ targetList q1 = targetList Fixture.q_exists_lateral ++ [tle]
       /\ expr tle = T_Var (mkVar 2 2 INT8OID 0)
       /\ resname tle = Some "__ivm_exists_count_0__"
       /\ resno tle = 2.
Proof.
  split; [reflexivity|].
  destruct (@exists_count_columns Fixture.collab_exists Fixture.q_exists _
              eq_refl eq_refl)
    as (rewritten & added & Hr & _ & E & R & X & _).
  injection Hr as <-.
  inversion X as [|tle e added' rest (name & attnum & Hc & He & Hn & _) X'];
    subst.
  inversion X'; subst.
  injection Hc as <- <-.
  eexists. exists tle. split; [reflexivity|].
  split; [exact E|]. split; [exact He|]. split; [exact Hn|].
  exact (proj1 R).
Defined.

Lemma accepted_exists_vars_witness :
  check_ivm_restriction (collab := Sample.collab)
    (T_Query Fixture.q_exists_correlated) = Ok tt
  /\ In Fixture.t1_a_from_below
        (vars_collected false (T_Query Fixture.q_exists_correlated))
  /\ var_in_targetList (fun n => n)
       (targetList Fixture.q_exists_correlated) Fixture.t1_a_from_below
     = true.
Proof.
  split; [reflexivity|]. split; [left; reflexivity|].
  apply (@accepted_exists_vars Sample.collab Fixture.q_exists_correlated
           eq_refl).
  left. reflexivity.
Defined.

Lemma trigger_names_distinct_per_relation_witness :
  CreateIvmTriggersOnBaseTables 10 Sample.q_selfjoin 20000 true []
  = Ok Sample.q_selfjoin_triggers
  /\ NoDup (map trigname (triggers_on 16384 Sample.q_selfjoin_triggers)).
Proof.
  split; [reflexivity|].
  exact (proj1 (trigger_names_distinct_per_relation 10 Sample.q_selfjoin
                  20000 true Sample.q_selfjoin_triggers eq_refl 16384)).
Defined.
